(** * Verification of the per-node voting protocol engine (voting-node.js)

    A shallow embedding of [class VotingNodeWithAutoGUI]: the JavaScript
    object state becomes a record, methods become functions threading that
    record, [setTimeout]/[clearTimeout] become a table of pending timers,
    sends become an effect log, and [Date.now()], [Math.random()] and
    [crypto.randomBytes] become explicit inputs.

    The services of the JavaScript runtime that the file calls but does not
    define (String.prototype.toLowerCase / localeCompare, the AES-256-CBC
    cipher of the crypto module, JSON and SHA-256) are the fields of the
    [Runtime] interface; what a theorem needs from them is an explicit
    hypothesis of that theorem. *)

From Stdlib Require Import ZArith QArith Qround Qabs Lia Strings.Byte OrdersEx.
From Stdlib Require DecimalString DecimalZ.
From stdpp Require Import base option list sorting gmap strings pretty.

Open Scope Z_scope.

(** ** JavaScript [Map]: an association list in insertion order

    [Map.prototype.set] on a present key replaces the value in place and
    keeps the position; on a fresh key it appends.  Iteration ([values],
    [entries], [for..of]) follows that order, which is why the inner maps
    of the node are not modelled as unordered finite maps. *)

Module JsMap.
  Section Ops.
    Context {V : Type}.

Fixpoint get (k : string) (m : list (string * V)) : option V :=
      match m with
      | [] => None
      | (k', v) :: m' => if decide (k' = k) then Some v else get k m'
      end.

Definition has (k : string) (m : list (string * V)) : bool :=
      bool_decide (is_Some (get k m)).

Fixpoint set (k : string) (v : V) (m : list (string * V)) : list (string * V) :=
      match m with
      | [] => [(k, v)]
      | (k', v') :: m' =>
          if decide (k' = k) then (k', v) :: m' else (k', v') :: set k v m'
      end.

Definition delete (k : string) (m : list (string * V)) : list (string * V) :=
      filter (λ e, e.1 ≠ k) m.

Definition keys (m : list (string * V)) : list string := m.*1.
Definition values (m : list (string * V)) : list V := m.*2.
Definition size (m : list (string * V)) : Z := Z.of_nat (length m).
  End Ops.

  (** The type of maps with values in [V]. *)
  Abbreviation t V := (list (string * V)) (only parsing).
End JsMap.

(** ** Data carried by ballots and tallies *)

(** The record encrypted inside a ballot and stored once decrypted. *)
Record VoteRecord := mkVoteRecord {
  vr_choice : string;
  vr_anonymousVoteId : string;
  vr_timestamp : Z;
  vr_roundId : string
}.

(** One line of a tally: [{ choice, count }]. *)
Record ResultEntry := mkResult { choice : string; count : Z }.

(** ** The JavaScript runtime services used by the node *)

Class Runtime := {
  (** [String.prototype.toLowerCase] *)
  toLowerCase : string → string;
  (** [String.prototype.localeCompare]: negative, zero or positive *)
  localeCompare : string → string → Z;
  (** [crypto.createCipheriv('aes-256-cbc', key, iv)], update + final *)
  aes_256_cbc_encrypt : list byte → list byte → list byte → list byte;
  (** [crypto.createDecipheriv('aes-256-cbc', key, iv)], update + final;
      [None] when [final] throws (bad padding, truncated input) *)
  aes_256_cbc_decrypt : list byte → list byte → list byte → option (list byte);
  (** [JSON.stringify] of a vote record *)
  JSON_stringify : VoteRecord → string;
  (** [JSON.parse] of the decrypted text; [None] when it throws *)
  JSON_parse : string → option VoteRecord;
  (** [crypto.createHash('sha256').update(s).digest('hex')] *)
  sha256_hex : string → string
}.

(** ** Tally: [calculateResults] and [compareResults] *)

Section Tally.
  Context `{Runtime}.

  (** Body of the loop [for (const vote of roundVotes.values())]. *)
Definition tally_vote (tally : JsMap.t Z) (vote : VoteRecord) : JsMap.t Z :=
    let choice := toLowerCase (vr_choice vote) in
    JsMap.set choice (default 0 (JsMap.get choice tally) + 1) tally.

  (** The comparator handed to [sort]: count descending, then
      [localeCompare] on the choice. *)
Definition compareEntries (a b : string * Z) : Z :=
    if decide (b.2 ≠ a.2) then b.2 - a.2 else localeCompare a.1 b.1.

  (** [Array.prototype.sort] is a stable sort; stable insertion is used
      as its model.  [x] is placed before the first element it does not
      compare greater than. *)
Fixpoint sort_insert (cmp : string * Z → string * Z → Z)
      (x : string * Z) (l : list (string * Z)) : list (string * Z) :=
    match l with
    | [] => [x]
    | y :: l' => if decide (cmp x y ≤ 0) then x :: y :: l' else y :: sort_insert cmp x l'
    end.

Definition Array_sort (cmp : string * Z → string * Z → Z)
      (l : list (string * Z)) : list (string * Z) :=
    foldr (sort_insert cmp) [] l.

  (** [calculateResults] once [this.votes.get(this.currentRound.id)] has
      been read. *)
Definition calculateResultsOf (roundVotes : JsMap.t VoteRecord) : list ResultEntry :=
    let tally := foldl tally_vote [] (JsMap.values roundVotes) in
    (λ e, mkResult e.1 e.2) <$> Array_sort compareEntries tally.

  (** The [for] loop of [compareResults]; reading past the end of
      [results2] cannot happen once the lengths agree. *)
Fixpoint compareResults_loop (results1 results2 : list ResultEntry) : bool :=
    match results1, results2 with
    | [], _ => true
    | a :: r1, b :: r2 =>
        if bool_decide (choice a ≠ choice b) || bool_decide (count a ≠ count b)
        then false
        else compareResults_loop r1 r2
    | _ :: _, [] => false
    end.

Definition compareResults (results1 results2 : list ResultEntry) : bool :=
    if bool_decide (length results1 ≠ length results2) then false
    else compareResults_loop results1 results2.
End Tally.

(** ** Encryption utilities: [encryptVote] and [decryptVote] *)

(** Strings are sequences of 8-bit characters: a JavaScript string is
    represented by its UTF-8 bytes, so the ['utf8'] conversions of
    [cipher.update] and [decipher.update] are the two Stdlib bijections
    between [string] and [list byte]. *)

(** Outcome of a [try] block. *)
Inductive Except (A : Type) : Type :=
| Returned (a : A)
| Thrown (err : string).
Arguments Returned {A} a.
Arguments Thrown {A} err.

(** [buf.toString('hex')]: two lower-case digits per byte. *)
Definition hex_digit (n : N) : Ascii.ascii :=
  Ascii.ascii_of_N (if (n <? 10)%N then 48 + n else 87 + n)%N.

Definition Buffer_toString_hex (buf : list byte) : string :=
  foldr (λ b acc,
           String (hex_digit (Byte.to_N b / 16)%N)
             (String (hex_digit (Byte.to_N b mod 16)%N) acc))
        EmptyString buf.

(** Value of one hexadecimal digit, either case. *)
Definition unhex (c : Ascii.ascii) : option N :=
  let n := Ascii.N_of_ascii c in
  if ((48 <=? n) && (n <=? 57))%N then Some (n - 48)%N
  else if ((97 <=? n) && (n <=? 102))%N then Some (n - 87)%N
  else if ((65 <=? n) && (n <=? 70))%N then Some (n - 55)%N
  else None.

(** [Buffer.from(s, 'hex')]: decodes pairs of digits and stops, without
    throwing, at the first pair that is not hexadecimal; a trailing odd
    character is dropped. *)
Fixpoint Buffer_from_hex (s : string) : list byte :=
  match s with
  | String a (String b rest) =>
      match unhex a, unhex b with
      | Some hi, Some lo =>
          match Byte.of_N (16 * hi + lo) with
          | Some x => x :: Buffer_from_hex rest
          | None => []
          end
      | _, _ => []
      end
  | _ => []
  end.

(** Randomness handed to one handler run: [randomBytes_src c i] is byte
    [i] of the [c]-th call of [crypto.randomBytes], and [Math_random k]
    stands for the [k]-th value of [Math.random()], namely the fraction
    [(Math_random k mod 2^53) / 2^53] of the interval [0, 1). *)
Record Entropy := mkEntropy {
  randomBytes_src : nat → nat → byte;
  Math_random : nat → N
}.

Definition randomBytes (e : Entropy) (call : nat) (n : nat) : list byte :=
  randomBytes_src e call <$> seq 0 n.

(** [Math.floor(Math.random() * n)] for the [k]-th draw. *)
Definition random_below (e : Entropy) (k : nat) (n : Z) : Z :=
  (Z.of_N (Math_random e k) mod 2 ^ 53) * n / 2 ^ 53.

(** What [encryptVote] returns. *)
Record EncryptedVote := mkEncryptedVote {
  encryptedData : string;
  key : string;
  iv : string;
  anonymousVoteId : string
}.

Section Crypto.
  Context `{Runtime}.

Definition encryptVote (e : Entropy) (now : Z) (choice roundId : string) : EncryptedVote :=
    let key := randomBytes e 0 32 in
    let iv := randomBytes e 1 16 in
    let anonymousVoteId := Buffer_toString_hex (randomBytes e 2 16) in
    let voteData :=
      JSON_stringify (mkVoteRecord choice anonymousVoteId now roundId) in
    let encrypted :=
      Buffer_toString_hex
        (aes_256_cbc_encrypt key iv (String.list_byte_of_string voteData)) in
    mkEncryptedVote encrypted (Buffer_toString_hex key) (Buffer_toString_hex iv)
      anonymousVoteId.

  (** The body of the [try] in [decryptVote].  [createDecipheriv] throws
      on a key that is not 32 bytes or an IV that is not 16 bytes. *)
Definition decryptVote_try (encryptedData keyHex ivHex : string) : Except VoteRecord :=
    let key := Buffer_from_hex keyHex in
    let iv := Buffer_from_hex ivHex in
    if bool_decide (length key ≠ 32%nat) then Thrown "Invalid key length"
    else if bool_decide (length iv ≠ 16%nat) then Thrown "Invalid initialization vector"
    else
      match aes_256_cbc_decrypt key iv (Buffer_from_hex encryptedData) with
      | None => Thrown "bad decrypt"
      | Some decrypted =>
          match JSON_parse (String.string_of_list_byte decrypted) with
          | None => Thrown "Unexpected token in JSON"
          | Some record => Returned record
          end
      end.

  (** [decryptVote]: the [catch] turns every exception into [null]. *)
Definition decryptVote (encryptedData keyHex ivHex : string) : option VoteRecord :=
    match decryptVote_try encryptedData keyHex ivHex with
    | Returned record => Some record
    | Thrown _ => None
    end.

  (** [signMessage] *)
Definition signMessage (nodeId message : string) : string :=
    sha256_hex (nodeId +:+ "_" +:+ message).
End Crypto.

(** ** State of a node *)

Inductive Phase := VOTING | CONSENSUS | FINISHED.

#[global] Instance Phase_eq_dec : EqDecision Phase.
Proof. solve_decision. Defined.

(** A WebSocket is identified by a number; [===] on sockets compares it. *)
Definition WebSocket := nat.

(** The round object literal built by [startVotingRound] and
    [handleRoundStart]. *)
Module Round.
Record t := mk {
    id : string;
    topic : string;
    allowedChoices : option (list string);
    startTime : Z;
    duration : Q;
    votingTimeSeconds : Q;
    phase : Phase;
    results : option (list ResultEntry);
    consensusAchieved : bool;
    consensusNodes : gset string;
    consensusTimeout : option nat;
    finishTimeout : option nat
  }.

Definition with_phase (p : Phase) (r : t) : t :=
    mk (id r) (topic r) (allowedChoices r) (startTime r) (duration r)
       (votingTimeSeconds r) p (results r) (consensusAchieved r)
       (consensusNodes r) (consensusTimeout r) (finishTimeout r).
Definition with_results (x : option (list ResultEntry)) (r : t) : t :=
    mk (id r) (topic r) (allowedChoices r) (startTime r) (duration r)
       (votingTimeSeconds r) (phase r) x (consensusAchieved r)
       (consensusNodes r) (consensusTimeout r) (finishTimeout r).
Definition with_consensusAchieved (b : bool) (r : t) : t :=
    mk (id r) (topic r) (allowedChoices r) (startTime r) (duration r)
       (votingTimeSeconds r) (phase r) (results r) b
       (consensusNodes r) (consensusTimeout r) (finishTimeout r).
Definition with_consensusNodes (x : gset string) (r : t) : t :=
    mk (id r) (topic r) (allowedChoices r) (startTime r) (duration r)
       (votingTimeSeconds r) (phase r) (results r) (consensusAchieved r)
       x (consensusTimeout r) (finishTimeout r).
Definition with_timeouts (c f : option nat) (r : t) : t :=
    mk (id r) (topic r) (allowedChoices r) (startTime r) (duration r)
       (votingTimeSeconds r) (phase r) (results r) (consensusAchieved r)
       (consensusNodes r) c f.
End Round.

(** Value stored in [voteKeys]: [castVote] writes [{key, submittedBy}],
    the key handlers write [{key, keyProvider}]. *)
Record KeyData := mkKeyData {
  kd_key : string;
  kd_submittedBy : option string;
  kd_keyProvider : option string
}.

(** Value stored in [myVoteTracking]. *)
Record VoteTracking := mkVoteTracking {
  vt_anonymousVoteId : string;
  vt_choice : string;
  vt_timestamp : Z;
  vt_verified : bool
}.

(** An entry of a peer list ([knownPeers], [PEER_EXCHANGE_RESPONSE.peers]). *)
Record PeerInfo := mkPeerInfo {
  pi_nodeId : option string;
  pi_host : option string;
  pi_port : option Z
}.

(** ** Messages *)

Record EncryptedVoteMessage := mkEncryptedVoteMessage {
  ev_roundId : string;
  ev_anonymousVoteId : string;
  ev_encryptedData : string;
  ev_iv : string;
  ev_timestamp : Z;
  ev_signature : string
}.

Record RoundStartMessage := mkRoundStartMessage {
  rs_roundId : string;
  rs_topic : string;
  rs_allowedChoices : option (list string);
  rs_votingTimeSeconds : option Q;
  rs_startTime : Z;
  rs_from : string
}.

(** A decoded frame, by its [type] tag.  [ENCRYPTED_VOTE] is the one
    message without a [from] field; a tag outside the [switch] is
    [OTHER]. *)
Inductive Message :=
| HANDSHAKE (from : string) (port : option Z) (knownPeers : list PeerInfo)
| HANDSHAKE_ACK (from : string) (port : option Z) (knownPeers : list PeerInfo)
| PEER_EXCHANGE_REQUEST (from : string)
| PEER_EXCHANGE_RESPONSE (from : string) (peers : list PeerInfo)
| HEARTBEAT (from : string)
| DUPLICATE_NODE_REJECTION (existingNodeId : string)
| ROUND_START (m : RoundStartMessage)
| ENCRYPTED_VOTE (m : EncryptedVoteMessage)
| BATCH_VOTE_KEYS (roundId : string) (keys : list (string * string)) (from : string)
| VOTE_KEY (roundId anonymousVoteId key : string) (from : string)
| RESULT_PROPOSAL (roundId : string) (results : list ResultEntry)
    (voteCount : Z) (from : string)
| OTHER (type : string) (from : option string).

(** [message.from]; [undefined] is [None]. *)
Definition message_from (m : Message) : option string :=
  match m with
  | HANDSHAKE f _ _ | HANDSHAKE_ACK f _ _ | PEER_EXCHANGE_REQUEST f
  | PEER_EXCHANGE_RESPONSE f _ | HEARTBEAT f | BATCH_VOTE_KEYS _ _ f
  | VOTE_KEY _ _ _ f | RESULT_PROPOSAL _ _ _ f => Some f
  | ROUND_START m => Some (rs_from m)
  | OTHER _ f => f
  | DUPLICATE_NODE_REJECTION _ | ENCRYPTED_VOTE _ => None
  end.

(** Notifications for GUI observers ([notifyGUIClients]). *)
Inductive GuiEvent :=
| GUI_VOTE_RECEIVED (roundId anonymousVoteId : string) (encryptedVoteCount : Z)
| GUI_PHASE_CHANGE (phase : Phase) (roundId : string)
| GUI_RESULTS (results : option (list ResultEntry)) (roundId topic : string)
    (totalVotes activeNodes participated : Z)
| GUI_ROUND_START (m : RoundStartMessage)
| GUI_STATUS_UPDATE (nodeId : string) (peers : Z) (phase : option Phase).

(** What a handler does to the outside world, in order. *)
Inductive Effect :=
| Send (ws : WebSocket) (m : Message)
| Close (ws : WebSocket)
| Broadcast (m : Message) (to : list WebSocket) (gui : list WebSocket)
| Notify (e : GuiEvent) (gui : list WebSocket)
| Connect (host : string) (port : Z)
| Exit (code : Z).

(** Callbacks given to [setTimeout]. *)
Inductive Callback :=
| cb_enterConsensusPhase
| cb_finishRound
| cb_checkIfReadyToPropose
| cb_broadcastKeys (allKeys : list (string * string))
| cb_connectToPeer (host : string) (port : Z)
| cb_exit.

Record Timer := mkTimer {
  timer_id : nat;
  callback : Callback;
  armedAt : Z;
  delay : Q
}.

(** The fields of [this], followed by the pending timers and the log of
    effects.  The outer maps are keyed by round id and never iterated
    by the voting logic; the inner ones are iterated and keep insertion
    order. *)
Record Node := mkNode {
  nodeId : string;
  port : Z;
  knownPeers : list (string * Z);
  peers : JsMap.t WebSocket;
  activePeers : gset string;
  peerAddresses : gmap string (string * Z);
  currentRound : option Round.t;
  votes : gmap string (JsMap.t VoteRecord);
  encryptedVotes : gmap string (JsMap.t EncryptedVoteMessage);
  voteKeys : gmap string (JsMap.t KeyData);
  results : JsMap.t (list ResultEntry);
  myVoteTracking : gmap string VoteTracking;
  hasVotedInRound : gmap string bool;
  guiClients : JsMap.t WebSocket;
  nodeRegistry : gmap string (Z * WebSocket);
  duplicateNodeDetected : bool;
  resultProposed : bool;
  keysSharingComplete : bool;
  timers : list Timer;
  nextTimer : nat;
  effects : list Effect
}.

Definition set_knownPeers (x : list (string * Z)) (s : Node) : Node :=
    mkNode (nodeId s) (port s) x (peers s) (activePeers s) (peerAddresses s)
      (currentRound s) (votes s) (encryptedVotes s) (voteKeys s) (results s)
      (myVoteTracking s) (hasVotedInRound s) (guiClients s) (nodeRegistry s)
      (duplicateNodeDetected s) (resultProposed s) (keysSharingComplete s)
      (timers s) (nextTimer s) (effects s).
Definition set_peers (x : JsMap.t WebSocket) (s : Node) : Node :=
    mkNode (nodeId s) (port s) (knownPeers s) x (activePeers s)
      (peerAddresses s) (currentRound s) (votes s) (encryptedVotes s)
      (voteKeys s) (results s) (myVoteTracking s) (hasVotedInRound s)
      (guiClients s) (nodeRegistry s) (duplicateNodeDetected s)
      (resultProposed s) (keysSharingComplete s) (timers s) (nextTimer s)
      (effects s).
Definition set_activePeers (x : gset string) (s : Node) : Node :=
    mkNode (nodeId s) (port s) (knownPeers s) (peers s) x (peerAddresses s)
      (currentRound s) (votes s) (encryptedVotes s) (voteKeys s) (results s)
      (myVoteTracking s) (hasVotedInRound s) (guiClients s) (nodeRegistry s)
      (duplicateNodeDetected s) (resultProposed s) (keysSharingComplete s)
      (timers s) (nextTimer s) (effects s).
Definition set_peerAddresses (x : gmap string (string * Z)) (s : Node) : Node :=
    mkNode (nodeId s) (port s) (knownPeers s) (peers s) (activePeers s) x
      (currentRound s) (votes s) (encryptedVotes s) (voteKeys s) (results s)
      (myVoteTracking s) (hasVotedInRound s) (guiClients s) (nodeRegistry s)
      (duplicateNodeDetected s) (resultProposed s) (keysSharingComplete s)
      (timers s) (nextTimer s) (effects s).
Definition set_currentRound (x : option Round.t) (s : Node) : Node :=
    mkNode (nodeId s) (port s) (knownPeers s) (peers s) (activePeers s)
      (peerAddresses s) x (votes s) (encryptedVotes s) (voteKeys s)
      (results s) (myVoteTracking s) (hasVotedInRound s) (guiClients s)
      (nodeRegistry s) (duplicateNodeDetected s) (resultProposed s)
      (keysSharingComplete s) (timers s) (nextTimer s) (effects s).
Definition set_votes (x : gmap string (JsMap.t VoteRecord)) (s : Node) : Node :=
    mkNode (nodeId s) (port s) (knownPeers s) (peers s) (activePeers s)
      (peerAddresses s) (currentRound s) x (encryptedVotes s) (voteKeys s)
      (results s) (myVoteTracking s) (hasVotedInRound s) (guiClients s)
      (nodeRegistry s) (duplicateNodeDetected s) (resultProposed s)
      (keysSharingComplete s) (timers s) (nextTimer s) (effects s).
Definition set_encryptedVotes (x : gmap string (JsMap.t EncryptedVoteMessage)) (s : Node) : Node :=
    mkNode (nodeId s) (port s) (knownPeers s) (peers s) (activePeers s)
      (peerAddresses s) (currentRound s) (votes s) x (voteKeys s)
      (results s) (myVoteTracking s) (hasVotedInRound s) (guiClients s)
      (nodeRegistry s) (duplicateNodeDetected s) (resultProposed s)
      (keysSharingComplete s) (timers s) (nextTimer s) (effects s).
Definition set_voteKeys (x : gmap string (JsMap.t KeyData)) (s : Node) : Node :=
    mkNode (nodeId s) (port s) (knownPeers s) (peers s) (activePeers s)
      (peerAddresses s) (currentRound s) (votes s) (encryptedVotes s) x
      (results s) (myVoteTracking s) (hasVotedInRound s) (guiClients s)
      (nodeRegistry s) (duplicateNodeDetected s) (resultProposed s)
      (keysSharingComplete s) (timers s) (nextTimer s) (effects s).
Definition set_results (x : JsMap.t (list ResultEntry)) (s : Node) : Node :=
    mkNode (nodeId s) (port s) (knownPeers s) (peers s) (activePeers s)
      (peerAddresses s) (currentRound s) (votes s) (encryptedVotes s)
      (voteKeys s) x (myVoteTracking s) (hasVotedInRound s) (guiClients s)
      (nodeRegistry s) (duplicateNodeDetected s) (resultProposed s)
      (keysSharingComplete s) (timers s) (nextTimer s) (effects s).
Definition set_myVoteTracking (x : gmap string VoteTracking) (s : Node) : Node :=
    mkNode (nodeId s) (port s) (knownPeers s) (peers s) (activePeers s)
      (peerAddresses s) (currentRound s) (votes s) (encryptedVotes s)
      (voteKeys s) (results s) x (hasVotedInRound s) (guiClients s)
      (nodeRegistry s) (duplicateNodeDetected s) (resultProposed s)
      (keysSharingComplete s) (timers s) (nextTimer s) (effects s).
Definition set_hasVotedInRound (x : gmap string bool) (s : Node) : Node :=
    mkNode (nodeId s) (port s) (knownPeers s) (peers s) (activePeers s)
      (peerAddresses s) (currentRound s) (votes s) (encryptedVotes s)
      (voteKeys s) (results s) (myVoteTracking s) x (guiClients s)
      (nodeRegistry s) (duplicateNodeDetected s) (resultProposed s)
      (keysSharingComplete s) (timers s) (nextTimer s) (effects s).
Definition set_guiClients (x : JsMap.t WebSocket) (s : Node) : Node :=
    mkNode (nodeId s) (port s) (knownPeers s) (peers s) (activePeers s)
      (peerAddresses s) (currentRound s) (votes s) (encryptedVotes s)
      (voteKeys s) (results s) (myVoteTracking s) (hasVotedInRound s) x
      (nodeRegistry s) (duplicateNodeDetected s) (resultProposed s)
      (keysSharingComplete s) (timers s) (nextTimer s) (effects s).
Definition set_nodeRegistry (x : gmap string (Z * WebSocket)) (s : Node) : Node :=
    mkNode (nodeId s) (port s) (knownPeers s) (peers s) (activePeers s)
      (peerAddresses s) (currentRound s) (votes s) (encryptedVotes s)
      (voteKeys s) (results s) (myVoteTracking s) (hasVotedInRound s)
      (guiClients s) x (duplicateNodeDetected s) (resultProposed s)
      (keysSharingComplete s) (timers s) (nextTimer s) (effects s).
Definition set_duplicateNodeDetected (x : bool) (s : Node) : Node :=
    mkNode (nodeId s) (port s) (knownPeers s) (peers s) (activePeers s)
      (peerAddresses s) (currentRound s) (votes s) (encryptedVotes s)
      (voteKeys s) (results s) (myVoteTracking s) (hasVotedInRound s)
      (guiClients s) (nodeRegistry s) x (resultProposed s)
      (keysSharingComplete s) (timers s) (nextTimer s) (effects s).
Definition set_resultProposed (x : bool) (s : Node) : Node :=
    mkNode (nodeId s) (port s) (knownPeers s) (peers s) (activePeers s)
      (peerAddresses s) (currentRound s) (votes s) (encryptedVotes s)
      (voteKeys s) (results s) (myVoteTracking s) (hasVotedInRound s)
      (guiClients s) (nodeRegistry s) (duplicateNodeDetected s) x
      (keysSharingComplete s) (timers s) (nextTimer s) (effects s).
Definition set_keysSharingComplete (x : bool) (s : Node) : Node :=
    mkNode (nodeId s) (port s) (knownPeers s) (peers s) (activePeers s)
      (peerAddresses s) (currentRound s) (votes s) (encryptedVotes s)
      (voteKeys s) (results s) (myVoteTracking s) (hasVotedInRound s)
      (guiClients s) (nodeRegistry s) (duplicateNodeDetected s)
      (resultProposed s) x (timers s) (nextTimer s) (effects s).
Definition set_timers (x : list Timer) (s : Node) : Node :=
    mkNode (nodeId s) (port s) (knownPeers s) (peers s) (activePeers s)
      (peerAddresses s) (currentRound s) (votes s) (encryptedVotes s)
      (voteKeys s) (results s) (myVoteTracking s) (hasVotedInRound s)
      (guiClients s) (nodeRegistry s) (duplicateNodeDetected s)
      (resultProposed s) (keysSharingComplete s) x (nextTimer s) (effects s).
Definition set_nextTimer (x : nat) (s : Node) : Node :=
    mkNode (nodeId s) (port s) (knownPeers s) (peers s) (activePeers s)
      (peerAddresses s) (currentRound s) (votes s) (encryptedVotes s)
      (voteKeys s) (results s) (myVoteTracking s) (hasVotedInRound s)
      (guiClients s) (nodeRegistry s) (duplicateNodeDetected s)
      (resultProposed s) (keysSharingComplete s) (timers s) x (effects s).
Definition set_effects (x : list Effect) (s : Node) : Node :=
    mkNode (nodeId s) (port s) (knownPeers s) (peers s) (activePeers s)
      (peerAddresses s) (currentRound s) (votes s) (encryptedVotes s)
      (voteKeys s) (results s) (myVoteTracking s) (hasVotedInRound s)
      (guiClients s) (nodeRegistry s) (duplicateNodeDetected s)
      (resultProposed s) (keysSharingComplete s) (timers s) (nextTimer s) x.

(** [new VotingNodeWithAutoGUI(nodeId, port, knownPeers)] *)
Definition init (nodeId : string) (port : Z) (knownPeers : list (string * Z)) : Node :=
  mkNode nodeId port knownPeers [] ∅ ∅ None ∅ ∅ ∅ [] ∅ ∅ [] ∅ false false false [] 0 [].

(** ** Timers, sends and the JavaScript idioms used throughout *)

(** [setTimeout(cb, delay)]; the handle is the timer's number. *)
Definition setTimeout (cb : Callback) (delay : Q) (now : Z) (s : Node) : nat * Node :=
  (nextTimer s,
   set_nextTimer (S (nextTimer s))
     (set_timers (timers s ++ [mkTimer (nextTimer s) cb now delay]) s)).

Definition clearTimeout (handle : nat) (s : Node) : Node :=
  set_timers (filter (λ t, timer_id t ≠ handle) (timers s)) s.

(** [if (handle) clearTimeout(handle)] *)
Definition clearTimeout_if_set (handle : option nat) (s : Node) : Node :=
  match handle with
  | Some h => clearTimeout h s
  | None => s
  end.

Definition emit (e : Effect) (s : Node) : Node :=
  set_effects (effects s ++ [e]) s.

Definition getActiveNodeCount (s : Node) : Z :=
  Z.of_nat (size (activePeers s)) + 1.

(** [if (!m.has(roundId)) m.set(roundId, new Map())] *)
Definition ensure_round_map {V} (roundId : string)
    (m : gmap string (JsMap.t V)) : gmap string (JsMap.t V) :=
  match m !! roundId with
  | Some _ => m
  | None => <[roundId := []]> m
  end.

(** [m.get(roundId).set(k, v)] once the inner map is known to exist. *)
Definition round_map_set {V} (roundId k : string) (v : V)
    (m : gmap string (JsMap.t V)) : gmap string (JsMap.t V) :=
  match m !! roundId with
  | Some inner => <[roundId := JsMap.set k v inner]> m
  | None => m
  end.

(** Mutation of a field of [this.currentRound]. *)
Definition update_round (f : Round.t → Round.t) (s : Node) : Node :=
  set_currentRound (f <$> currentRound s) s.

(** Truthiness of a string and of a number. *)
Definition truthy_string (x : string) : bool := bool_decide (x ≠ "").
Definition truthy_Z (x : Z) : bool := bool_decide (x ≠ 0).

(** Messages that [broadcast] mirrors to the GUI observers. *)
Definition is_votingEvent (m : Message) : bool :=
  match m with
  | ROUND_START _ | ENCRYPTED_VOTE _ | RESULT_PROPOSAL _ _ _ _ => true
  | _ => false
  end.

(** [broadcast(message)]: one send per entry of [peers] that is in
    [activePeers].  Entries of [peers] are removed when their socket
    closes, so the sockets are taken to be open and [send] not to throw. *)
Definition broadcast (m : Message) (s : Node) : Node :=
  let to := (filter (λ p, p.1 ∈ activePeers s) (peers s)).*2 in
  let gui := if is_votingEvent m then JsMap.values (guiClients s) else [] in
  emit (Broadcast m to gui) s.

Definition notifyGUIClients (e : GuiEvent) (s : Node) : Node :=
  emit (Notify e (JsMap.values (guiClients s))) s.

(** The value of [Math.random()] for the [k]-th draw, in [0, 1). *)
Definition Math_random_value (e : Entropy) (k : nat) : Q :=
  Qmake (Z.of_N (Math_random e k) mod 2 ^ 53) (2 ^ 53).

(** [Math.floor(x)] and [Math.round(x)] on exact rationals. *)
Definition Math_floor (x : Q) : Z := Qfloor x.
Definition Math_round (x : Q) : Z := Qfloor (x + (1 # 2)).

(** *** Double precision

    A JavaScript number is an IEEE 754 double; the model holds its value
    as an exact rational.  Where the result of a multiplication is
    rounded again ([Math.round] of a product), the product is rounded to
    the nearest double first, as the machine does. *)

(** [2 ^ e], for any integer [e]. *)
Definition Qpow2 (e : Z) : Q :=
  if 0 <=? e then inject_Z (2 ^ e) else Qmake 1 (Z.to_pos (2 ^ (- e))).

(** The integer nearest to [x], the even one of two that are equally
    near. *)
Definition round_ties_even (x : Q) : Z :=
  let f := Qfloor x in
  match ((x - inject_Z f) ?= (1 # 2))%Q with
  | Lt => f
  | Gt => f + 1
  | Eq => if Z.even f then f else f + 1
  end.

(** The double nearest to [x] (round to nearest, ties to even): 53
    significant bits, exponents down to that of the subnormal numbers.
    Overflow to an infinity is not represented. *)
Definition to_double (x : Q) : Q :=
  if Qeq_bool x 0 then 0%Q
  else
    let a := Qabs x in
    let e0 := Z.log2 (Qnum a) - Z.log2 (Zpos (Qden a)) in
    let k := if Qle_bool (Qpow2 e0) a then e0 else e0 - 1 in
    let e := Z.max (k - 52) (-1074) in
    let m := round_ties_even (a / Qpow2 e) in
    Qred ((if Qle_bool 0 x then inject_Z m else inject_Z (- m)) * Qpow2 e).

(** [a * b] on doubles. *)
Definition double_mul (a b : Q) : Q := to_double (a * b).

(** [[array[i], array[j]] = [array[j], array[i]]] *)
Definition swap {A} (i j : nat) (array : list A) : list A :=
  match array !! i, array !! j with
  | Some ai, Some aj => <[j := ai]> (<[i := aj]> array)
  | _, _ => array
  end.

(** [shuffleArray]: the loop [for (i = length - 1; i > 0; i--)], whose
    iteration [i] uses one draw. *)
Fixpoint shuffle_from {A} (e : Entropy) (draw : nat) (i : nat) (array : list A) : list A :=
  match i with
  | O => array
  | S i' =>
      let j := Z.to_nat (Math_floor (Math_random_value e draw * inject_Z (Z.of_nat i + 1))) in
      shuffle_from e (S draw) i' (swap i j array)
  end.

Definition shuffleArray {A} (e : Entropy) (array : list A) : list A :=
  shuffle_from e 0 (length array - 1) array.

(** Values a caller can pass for [votingTimeSeconds].  A number is a
    finite double, held as an exact rational; [NaN] and the infinities,
    which no caller passes (the commands pass [parseInt] of a string of
    digits, or 100), are not represented. *)
Inductive JsValue :=
| JsUndefined
| JsNull
| JsBoolean (b : bool)
| JsNumber (q : Q)
| JsString (s : string).

(** ** The voting engine *)

Section Engine.
  Context `{Runtime}.

  (** [calculateResults]; [None] stands for the [TypeError] raised when
      there is no current round or [this.votes] has no map for it. *)
Definition calculateResults (s : Node) : option (list ResultEntry) :=
    r ← currentRound s;
    roundVotes ← votes s !! Round.id r;
    Some (calculateResultsOf roundVotes).

  (** The choice test of [castVote]: [allowedChoices] is set and the
      lower-cased choice is not among the lower-cased allowed ones. *)
Definition choice_refused (allowedChoices : option (list string)) (choice : string) : bool :=
    match allowedChoices with
    | Some allowed =>
        bool_decide (toLowerCase choice ∉ toLowerCase <$> allowed)
    | None => false
    end.

  (** [castVote] past its three guards, in the round [r]. *)
Definition cast_ballot (e : Entropy) (now : Z) (choice : string) (r : Round.t)
      (s : Node) : Node :=
    let id := Round.id r in
    let s := set_hasVotedInRound (<[id := true]> (hasVotedInRound s)) s in
    let encryptedVote := encryptVote e now choice id in
    let s := set_voteKeys (ensure_round_map id (voteKeys s)) s in
    let s :=
      set_voteKeys
        (round_map_set id (anonymousVoteId encryptedVote)
           (mkKeyData (key encryptedVote) (Some (nodeId s)) None)
           (voteKeys s)) s in
    let s :=
      set_myVoteTracking
        (<[id := mkVoteTracking (anonymousVoteId encryptedVote) choice now false]>
           (myVoteTracking s)) s in
    let encryptedMessage :=
      mkEncryptedVoteMessage id (anonymousVoteId encryptedVote)
        (encryptedData encryptedVote) (iv encryptedVote) now
        (signMessage (nodeId s) (id +:+ "_" +:+ encryptedData encryptedVote)) in
    let s := broadcast (ENCRYPTED_VOTE encryptedMessage) s in
    let s := set_encryptedVotes (ensure_round_map id (encryptedVotes s)) s in
    set_encryptedVotes
      (round_map_set id (anonymousVoteId encryptedVote) encryptedMessage
         (encryptedVotes s)) s.

Definition castVote (e : Entropy) (now : Z) (choice : string) (s : Node) : Node :=
    match currentRound s with
    | None => s
    | Some r =>
        if bool_decide (Round.phase r ≠ VOTING) then s
        else if default false (hasVotedInRound s !! Round.id r) then s
        else if choice_refused (Round.allowedChoices r) choice then s
        else cast_ballot e now choice r s
    end.

Definition handleEncryptedVote (message : EncryptedVoteMessage) (s : Node) : Node :=
    match currentRound s with
    | None => s
    | Some r =>
        if bool_decide (ev_roundId message ≠ Round.id r) then s
        else if bool_decide (Round.phase r ≠ VOTING) then s
        else
          let s := set_encryptedVotes (ensure_round_map (Round.id r) (encryptedVotes s)) s in
          set_encryptedVotes
            (round_map_set (Round.id r) (ev_anonymousVoteId message) message
               (encryptedVotes s)) s
    end.

  (** [shareAllKeys]: the keys of the current round are collected and
      shuffled now; the callback broadcasts that array later. *)
Definition shareAllKeys (e : Entropy) (now : Z) (s : Node) : Node :=
    match currentRound s with
    | None => s
    | Some r =>
        let allKeys :=
          match voteKeys s !! Round.id r with
          | Some roundKeys => (λ p, (p.1, kd_key p.2)) <$> roundKeys
          | None => []
          end in
        let shuffled := shuffleArray e allKeys in
        let delay :=
          (Math_random_value e (length allKeys - 1) * inject_Z 1000 + inject_Z 500)%Q in
        (setTimeout (cb_broadcastKeys shuffled) delay now s).2
    end.

Definition enterConsensusPhase (e : Entropy) (now : Z) (s : Node) : Node :=
    match currentRound s with
    | None => s
    | Some r =>
        if bool_decide (Round.phase r ≠ VOTING) then s
        else
          let s := update_round (Round.with_phase CONSENSUS) s in
          let s := set_resultProposed false s in
          let s := set_keysSharingComplete false s in
          let s := shareAllKeys e now s in
          let s := (setTimeout cb_checkIfReadyToPropose (inject_Z 10000) now s).2 in
          notifyGUIClients (GUI_PHASE_CHANGE CONSENSUS (Round.id r)) s
    end.

  (** The callback armed by [shareAllKeys]; it reads
      [this.currentRound.id] when it runs. *)
Definition broadcastKeys (allKeys : list (string * string)) (s : Node) : option Node :=
    r ← currentRound s;
    Some (broadcast (BATCH_VOTE_KEYS (Round.id r) allKeys (nodeId s)) s).

  (** Body of the loop of [decryptAndProcessVotes]. *)
Definition decrypt_entry (voteKeys : JsMap.t KeyData)
      (decryptedVotes : JsMap.t VoteRecord)
      (entry : string * EncryptedVoteMessage) : JsMap.t VoteRecord :=
    let anonymousVoteId := entry.1 in
    let encryptedVote := entry.2 in
    if JsMap.has anonymousVoteId voteKeys && negb (JsMap.has anonymousVoteId decryptedVotes)
    then
      match JsMap.get anonymousVoteId voteKeys with
      | Some keyData =>
          match decryptVote (ev_encryptedData encryptedVote) (kd_key keyData)
                  (ev_iv encryptedVote) with
          | Some decryptedData => JsMap.set anonymousVoteId decryptedData decryptedVotes
          | None => decryptedVotes
          end
      | None => decryptedVotes
      end
    else decryptedVotes.

Definition decryptAndProcessVotes (s : Node) : Node :=
    match currentRound s with
    | None => s
    | Some r =>
        let roundId := Round.id r in
        match encryptedVotes s !! roundId, voteKeys s !! roundId with
        | Some encryptedVotes, Some voteKeys =>
            let s := set_votes (ensure_round_map roundId (votes s)) s in
            let decryptedVotes := default [] (votes s !! roundId) in
            set_votes
              (<[roundId := foldl (decrypt_entry voteKeys) decryptedVotes encryptedVotes]>
                 (votes s)) s
        | _, _ => s
        end
    end.

Definition checkForConsensus (now : Z) (s : Node) : Node :=
    match currentRound s with
    | None => s
    | Some r =>
        if bool_decide (Round.phase r ≠ CONSENSUS) || Round.consensusAchieved r then s
        else
          let activeNodeCount := getActiveNodeCount s in
          let consensusCount := Z.of_nat (size (Round.consensusNodes r)) in
          if bool_decide (activeNodeCount ≤ consensusCount) then
            let s := update_round (Round.with_consensusAchieved true) s in
            let s := clearTimeout_if_set (Round.finishTimeout r) s in
            (setTimeout cb_finishRound (inject_Z 500) now s).2
          else s
    end.

Definition proposeResults (now : Z) (s : Node) : option Node :=
    match currentRound s with
    | None => Some s
    | Some r =>
        if bool_decide (Round.phase r ≠ CONSENSUS) || resultProposed s then Some s
        else
          let s := set_resultProposed true s in
          let s := decryptAndProcessVotes s in
          results ← calculateResults s;
          roundVotes ← votes s !! Round.id r;
          let s :=
            broadcast (RESULT_PROPOSAL (Round.id r) results (JsMap.size roundVotes) (nodeId s)) s in
          let s :=
            update_round
              (λ r, Round.with_consensusNodes ({[nodeId s]} ∪ Round.consensusNodes r) r) s in
          Some (checkForConsensus now s)
    end.

  (** Providers counted by [checkIfReadyToPropose]: every truthy
      [keyProvider], and ourselves when the round has any key. *)
Definition uniqueKeyProviders (nodeId : string) (voteKeys : JsMap.t KeyData) : gset string :=
    let providers :=
      foldl (λ acc (entry : string * KeyData),
               match kd_keyProvider entry.2 with
               | Some p => if truthy_string p then {[p]} ∪ acc else acc
               | None => acc
               end) (∅ : gset string) voteKeys in
    if bool_decide (0 < JsMap.size voteKeys) then {[nodeId]} ∪ providers else providers.

Definition checkIfReadyToPropose (now : Z) (s : Node) : option Node :=
    match currentRound s with
    | None => Some s
    | Some r =>
        if bool_decide (Round.phase r ≠ CONSENSUS) || resultProposed s then Some s
        else
          match encryptedVotes s !! Round.id r, voteKeys s !! Round.id r with
          | Some encryptedVotes, Some voteKeys =>
              let totalEncryptedVotes := JsMap.size encryptedVotes in
              let totalKeys := JsMap.size voteKeys in
              let activeNodes := getActiveNodeCount s in
              let providers := uniqueKeyProviders (nodeId s) voteKeys in
              let hasAllKeys := bool_decide (totalEncryptedVotes ≤ totalKeys) in
              let hasAllProviders := bool_decide (activeNodes ≤ Z.of_nat (size providers)) in
              if hasAllKeys && hasAllProviders then
                if negb (keysSharingComplete s) then
                  let s := set_keysSharingComplete true s in
                  Some (setTimeout cb_checkIfReadyToPropose (inject_Z 3000) now s).2
                else proposeResults now s
              else Some (setTimeout cb_checkIfReadyToPropose (inject_Z 3000) now s).2
          | _, _ => Some (setTimeout cb_checkIfReadyToPropose (inject_Z 3000) now s).2
          end
    end.

  (** Body of the loop over [message.keys] in [handleBatchVoteKeys]; the
      accumulator is the round's key map and [newKeysCount]. *)
Definition store_batch_key (from : string) (acc : JsMap.t KeyData * Z)
      (keyInfo : string * string) : JsMap.t KeyData * Z :=
    if negb (JsMap.has keyInfo.1 acc.1)
    then (JsMap.set keyInfo.1 (mkKeyData keyInfo.2 None (Some from)) acc.1, acc.2 + 1)
    else acc.

  (** What follows a newly stored key in both key handlers. *)
Definition after_new_keys (now : Z) (s : Node) : option Node :=
    let s := decryptAndProcessVotes s in
    if negb (resultProposed s) then checkIfReadyToPropose now s else Some s.

Definition handleBatchVoteKeys (now : Z) (roundId : string)
      (keys : list (string * string)) (from : string) (s : Node) : option Node :=
    match currentRound s with
    | None => Some s
    | Some r =>
        if bool_decide (roundId ≠ Round.id r) then Some s
        else if bool_decide (Round.phase r ≠ CONSENSUS) then Some s
        else
          let s := set_voteKeys (ensure_round_map (Round.id r) (voteKeys s)) s in
          let stored :=
            foldl (store_batch_key from) (default [] (voteKeys s !! Round.id r), 0) keys in
          let s := set_voteKeys (<[Round.id r := stored.1]> (voteKeys s)) s in
          if bool_decide (0 < stored.2) then after_new_keys now s else Some s
    end.

Definition handleVoteKey (now : Z) (roundId anonymousVoteId key from : string)
      (s : Node) : option Node :=
    match currentRound s with
    | None => Some s
    | Some r =>
        if bool_decide (roundId ≠ Round.id r) then Some s
        else if bool_decide (Round.phase r ≠ CONSENSUS) then Some s
        else
          let s := set_voteKeys (ensure_round_map (Round.id r) (voteKeys s)) s in
          let roundKeys := default [] (voteKeys s !! Round.id r) in
          if negb (JsMap.has anonymousVoteId roundKeys) then
            let s :=
              set_voteKeys
                (round_map_set (Round.id r) anonymousVoteId
                   (mkKeyData key None (Some from)) (voteKeys s)) s in
            after_new_keys now s
          else Some s
    end.

Definition handleResultProposal (now : Z) (roundId : string)
      (results : list ResultEntry) (from : string) (s : Node) : option Node :=
    match currentRound s with
    | None => Some s
    | Some r =>
        if bool_decide (roundId ≠ Round.id r) then Some s
        else
          myResults ← calculateResults s;
          if compareResults myResults results then
            let s :=
              update_round
                (λ r, Round.with_consensusNodes ({[from]} ∪ Round.consensusNodes r) r) s in
            let s :=
              update_round
                (λ r, if bool_decide (nodeId s ∈ Round.consensusNodes r) then r
                      else Round.with_consensusNodes ({[nodeId s]} ∪ Round.consensusNodes r) r)
                s in
            Some (checkForConsensus now s)
          else Some s
    end.

  (** [verifyMyVote], given the map read by its caller. *)
Definition verifyMyVote (roundId : string) (roundVotes : JsMap.t VoteRecord) (s : Node) : Node :=
    match myVoteTracking s !! roundId with
    | None => s
    | Some myVoteInfo =>
        match JsMap.get (vt_anonymousVoteId myVoteInfo) roundVotes with
        | Some recordedVote =>
            if bool_decide (toLowerCase (vr_choice recordedVote) = toLowerCase (vt_choice myVoteInfo))
            then
              set_myVoteTracking
                (<[roundId := mkVoteTracking (vt_anonymousVoteId myVoteInfo)
                                (vt_choice myVoteInfo) (vt_timestamp myVoteInfo) true]>
                   (myVoteTracking s)) s
            else s
        | None => s
        end
    end.

  (** [finishRound].  The shuffle of the votes it prints changes nothing
      but the console output and is left out. *)
Definition finishRound (s : Node) : option Node :=
    match currentRound s with
    | None => Some s
    | Some r =>
        if bool_decide (Round.phase r = FINISHED) then Some s
        else
          let s := clearTimeout_if_set (Round.consensusTimeout r) s in
          let s := clearTimeout_if_set (Round.finishTimeout r) s in
          let s := update_round (Round.with_phase FINISHED) s in
          finalResults ← calculateResults s;
          let s := update_round (Round.with_results (Some finalResults)) s in
          roundVotes ← votes s !! Round.id r;
          let s := verifyMyVote (Round.id r) roundVotes s in
          let participatedNodes :=
            match encryptedVotes s !! Round.id r with
            | Some encryptedVotes => JsMap.size encryptedVotes
            | None => 0
            end in
          let s := set_results (JsMap.set (Round.id r) finalResults (results s)) s in
          let s :=
            notifyGUIClients
              (GUI_RESULTS (Some finalResults) (Round.id r) (Round.topic r)
                 (JsMap.size roundVotes) (getActiveNodeCount s) participatedNodes) s in
          Some (notifyGUIClients (GUI_PHASE_CHANGE FINISHED (Round.id r)) s)
    end.
  (** The validation at the top of [startVotingRound].  An omitted
      argument takes the default 100 before the test. *)
Definition validate_votingTime (votingTimeSeconds : JsValue) : Q :=
    match votingTimeSeconds with
    | JsUndefined => inject_Z 100
    | JsNumber v =>
        if negb (Qle_bool (inject_Z 30) v) || negb (Qle_bool v (inject_Z 600))
        then inject_Z 100
        else v
    | JsNull | JsBoolean _ | JsString _ => inject_Z 100
    end.

  (** [Math.round(votingTimeSeconds * 0.8 * 1000)] *)
Definition consensusDelay_of (votingTimeSeconds : Q) : Z :=
    Math_round (double_mul (double_mul votingTimeSeconds (to_double (8 # 10))) (inject_Z 1000)).

  (** The stores that both ways of starting a round initialise. *)
Definition install_round (round : Round.t) (s : Node) : Node :=
    let roundId := Round.id round in
    let s := set_currentRound (Some round) s in
    let s := set_resultProposed false s in
    let s := set_keysSharingComplete false s in
    let s := set_hasVotedInRound (<[roundId := false]> (hasVotedInRound s)) s in
    let s := set_votes (<[roundId := []]> (votes s)) s in
    let s := set_encryptedVotes (<[roundId := []]> (encryptedVotes s)) s in
    set_voteKeys (<[roundId := []]> (voteKeys s)) s.

  (** The two [setTimeout] calls that end both functions. *)
Definition arm_round_timers (now : Z) (consensusDelay finishDelay : Q) (s : Node) : Node :=
    let '(consensusTimeout, s) := setTimeout cb_enterConsensusPhase consensusDelay now s in
    let '(finishTimeout, s) := setTimeout cb_finishRound finishDelay now s in
    update_round (Round.with_timeouts (Some consensusTimeout) (Some finishTimeout)) s.

Definition startVotingRound (now : Z) (topic : string)
      (allowedChoices : option (list string)) (votingTimeSeconds : JsValue)
      (s : Node) : Node :=
    if match currentRound s with
       | Some r => bool_decide (Round.phase r ≠ FINISHED)
       | None => false
       end
    then s
    else
      let votingTimeSeconds := validate_votingTime votingTimeSeconds in
      let roundId := "round_" +:+ pretty now +:+ "_" +:+ nodeId s in
      let round :=
        Round.mk roundId topic allowedChoices now
          (double_mul votingTimeSeconds (inject_Z 1000)) votingTimeSeconds VOTING None false ∅
          None None in
      let s := install_round round s in
      let s :=
        broadcast
          (ROUND_START
             (mkRoundStartMessage roundId topic allowedChoices (Some votingTimeSeconds)
                now (nodeId s))) s in
      arm_round_timers now (inject_Z (consensusDelay_of votingTimeSeconds))
        (Round.duration round) s.

  (** [Math.max] of two numbers. *)
Definition Math_max (a b : Q) : Q := if Qle_bool a b then b else a.

Definition handleRoundStart (now : Z) (message : RoundStartMessage) (s : Node) : Node :=
    if match currentRound s with
       | Some r => bool_decide (Round.startTime r < rs_startTime message)
       | None => true
       end
    then
      let votingTimeSeconds :=
        match rs_votingTimeSeconds message with
        | Some v => if Qeq_bool v 0 then inject_Z 100 else v
        | None => inject_Z 100
        end in
      let round :=
        Round.mk (rs_roundId message) (rs_topic message) (rs_allowedChoices message)
          (rs_startTime message) (double_mul votingTimeSeconds (inject_Z 1000))
          votingTimeSeconds VOTING None false ∅ None None in
      let s := install_round round s in
      let elapsed := now - rs_startTime message in
      let consensusDelay :=
        Math_max (inject_Z 100) (inject_Z (consensusDelay_of votingTimeSeconds - elapsed)) in
      let finishDelay :=
        Math_max (inject_Z 100)
          (to_double (double_mul votingTimeSeconds (inject_Z 1000) - inject_Z elapsed)) in
      arm_round_timers now consensusDelay finishDelay s
    else s.

  (** *** Mesh plane *)

Definition getKnownPeersList (s : Node) : list PeerInfo :=
    ((λ peer, mkPeerInfo None (Some peer.1) (Some peer.2)) <$> knownPeers s)
    ++ omap (λ entry : string * WebSocket,
               if bool_decide (entry.1 ∈ activePeers s) then
                 address ← peerAddresses s !! entry.1;
                 Some (mkPeerInfo (Some entry.1) (Some address.1) (Some address.2))
               else None) (peers s).

Definition sendPeerList (ws : WebSocket) (s : Node) : Node :=
    emit (Send ws (PEER_EXCHANGE_RESPONSE (nodeId s) (getKnownPeersList s))) s.

  (** The [for] loop of [processPeerExchange], with its [continue]s and
      its [break] after three scheduled attempts. *)
Fixpoint processPeerExchange_loop (now : Z) (receivedPeers : list PeerInfo)
      (newConnectionAttempts : Z) (s : Node) : Node :=
    match receivedPeers with
    | [] => s
    | peerInfo :: rest =>
        let continue := processPeerExchange_loop now rest newConnectionAttempts s in
        if bool_decide (pi_nodeId peerInfo = Some (nodeId s)) then continue
        else if match pi_nodeId peerInfo with
                | Some n => truthy_string n && JsMap.has n (peers s)
                | None => false
                end then continue
        else
          match pi_host peerInfo, pi_port peerInfo with
          | Some host, Some peerPort =>
              if negb (truthy_string host) || negb (truthy_Z peerPort) then continue
              else if bool_decide ((host, peerPort) ∈ knownPeers s) then continue
              else if bool_decide (host = "localhost") && bool_decide (peerPort = port s)
              then continue
              else
                let s := set_knownPeers (knownPeers s ++ [(host, peerPort)]) s in
                let s :=
                  (setTimeout (cb_connectToPeer host peerPort)
                     (inject_Z (newConnectionAttempts * 2000)) now s).2 in
                if bool_decide (3 ≤ newConnectionAttempts + 1) then s
                else processPeerExchange_loop now rest (newConnectionAttempts + 1) s
          | _, _ => continue
          end
    end.

Definition processPeerExchange (now : Z) (receivedPeers : list PeerInfo) (s : Node) : Node :=
    processPeerExchange_loop now receivedPeers 0 s.

  (** The address stored at a handshake: [if (message.port) ...]. *)
Definition store_peer_address (from : string) (remoteAddress : option string)
      (port : option Z) (s : Node) : Node :=
    match port with
    | Some port =>
        if truthy_Z port then
          let remoteAddress := default "localhost" remoteAddress in
          let host :=
            if bool_decide (remoteAddress = "::1") || bool_decide (remoteAddress = "127.0.0.1")
            then "localhost" else remoteAddress in
          set_peerAddresses (<[from := (host, port)]> (peerAddresses s)) s
        else s
    | None => s
    end.

Definition originalHandleMessage (now : Z) (ws : WebSocket)
      (remoteAddress : option string) (message : Message) (s : Node) : option Node :=
    match message with
    | HANDSHAKE from peerPort _ =>
        let s := set_peers (JsMap.set from ws (peers s)) s in
        let s := set_activePeers ({[from]} ∪ activePeers s) s in
        let s := store_peer_address from remoteAddress peerPort s in
        let s :=
          emit (Send ws (HANDSHAKE_ACK (nodeId s) (Some (port s)) (getKnownPeersList s))) s in
        Some (emit (Send ws (PEER_EXCHANGE_REQUEST (nodeId s))) s)
    | HANDSHAKE_ACK from peerPort knownPeers =>
        let s :=
          if negb (JsMap.has from (peers s)) then set_peers (JsMap.set from ws (peers s)) s
          else s in
        let s := set_activePeers ({[from]} ∪ activePeers s) s in
        let s := store_peer_address from remoteAddress peerPort s in
        Some (if bool_decide (0 < length knownPeers)%nat
              then processPeerExchange now knownPeers s else s)
    | PEER_EXCHANGE_REQUEST _ => Some (sendPeerList ws s)
    | PEER_EXCHANGE_RESPONSE _ peers =>
        Some (if bool_decide (0 < length peers)%nat
              then processPeerExchange now peers s else s)
    | HEARTBEAT from => Some (set_activePeers ({[from]} ∪ activePeers s) s)
    | ENCRYPTED_VOTE m =>
        let s := handleEncryptedVote m s in
        let encryptedVoteCount :=
          match encryptedVotes s !! ev_roundId m with
          | Some inner => JsMap.size inner
          | None => 0
          end in
        Some (notifyGUIClients
                (GUI_VOTE_RECEIVED (ev_roundId m) (ev_anonymousVoteId m) encryptedVoteCount) s)
    | BATCH_VOTE_KEYS roundId keys from => handleBatchVoteKeys now roundId keys from s
    | VOTE_KEY roundId anonymousVoteId key from =>
        handleVoteKey now roundId anonymousVoteId key from s
    | RESULT_PROPOSAL roundId results _ from => handleResultProposal now roundId results from s
    | ROUND_START m =>
        let s := handleRoundStart now m s in
        Some (notifyGUIClients (GUI_ROUND_START m) s)
    | DUPLICATE_NODE_REJECTION _ | OTHER _ _ => Some s
    end.

Definition is_handshake (message : Message) : bool :=
    match message with
    | HANDSHAKE _ _ _ | HANDSHAKE_ACK _ _ _ => true
    | _ => false
    end.

Definition handleMessage (now : Z) (ws : WebSocket) (remoteAddress : option string)
      (message : Message) (s : Node) : option Node :=
    if is_handshake message && bool_decide (message_from message = Some (nodeId s)) then
      let s := emit (Send ws (DUPLICATE_NODE_REJECTION (nodeId s))) s in
      Some (emit (Close ws) s)
    else
      let s :=
        match message_from message with
        | Some from =>
            if truthy_string from && bool_decide (from ≠ nodeId s)
            then set_nodeRegistry (<[from := (now, ws)]> (nodeRegistry s)) s
            else s
        | None => s
        end in
      match message with
      | DUPLICATE_NODE_REJECTION _ =>
          let s := set_duplicateNodeDetected true s in
          Some (setTimeout cb_exit (inject_Z 3000) now s).2
      | _ => originalHandleMessage now ws remoteAddress message s
      end.

  (** *** Events: one run of one callback of the event loop *)

  (** First entry of a map whose socket is [ws]
      ([for (const [id, x] of m.entries()) if (x === ws) ...]). *)
Definition find_socket (ws : WebSocket) (m : JsMap.t WebSocket) : option string :=
    fst <$> head (filter (λ entry, entry.2 = ws) m).

  (** ['close'] on an accepted connection. *)
Definition incoming_close (ws : WebSocket) (s : Node) : Node :=
    match find_socket ws (guiClients s) with
    | Some clientId => set_guiClients (JsMap.delete clientId (guiClients s)) s
    | None =>
        match find_socket ws (peers s) with
        | Some peerId =>
            let s := set_peers (JsMap.delete peerId (peers s)) s in
            set_activePeers (activePeers s ∖ {[peerId]}) s
        | None => s
        end
    end.

  (** ['close'] on a connection opened by [connectToPeer]. *)
Definition outgoing_close (ws : WebSocket) (s : Node) : Node :=
    match find_socket ws (peers s) with
    | Some peerId =>
        let s := set_peers (JsMap.delete peerId (peers s)) s in
        let s := set_activePeers (activePeers s ∖ {[peerId]}) s in
        set_nodeRegistry (base.delete peerId (nodeRegistry s)) s
    | None => s
    end.

  (** ['open'] on a connection opened by [connectToPeer]. *)
Definition outgoing_open (ws : WebSocket) (s : Node) : Node :=
    emit (Send ws (HANDSHAKE (nodeId s) (Some (port s)) (getKnownPeersList s))) s.

  (** ['message'] on a connection opened by [connectToPeer]: a
      rejection closes the socket before [handleMessage] is reached. *)
Definition outgoing_message (now : Z) (ws : WebSocket) (remoteAddress : option string)
      (message : Message) (s : Node) : option Node :=
    match message with
    | DUPLICATE_NODE_REJECTION _ => Some (emit (Close ws) s)
    | _ => handleMessage now ws remoteAddress message s
    end.

  (** The [catch] of the delayed connection attempt of
      [processPeerExchange]. *)
Definition connect_failed (host : string) (peerPort : Z) (s : Node) : Node :=
    set_knownPeers (filter (λ known, ¬ (known.1 = host ∧ known.2 = peerPort)) (knownPeers s)) s.

Definition handleGUIConnection (ws : WebSocket) (clientId : string) (s : Node) : Node :=
    let s := set_guiClients (JsMap.set clientId ws (guiClients s)) s in
    let s :=
      emit (Notify (GUI_STATUS_UPDATE (nodeId s) (Z.of_nat (size (activePeers s)))
                      (Round.phase <$> currentRound s)) [ws]) s in
    match currentRound s with
    | Some r =>
        emit (Notify (GUI_ROUND_START
                        (mkRoundStartMessage (Round.id r) (Round.topic r)
                           (Round.allowedChoices r) (Some (Round.votingTimeSeconds r))
                           (Round.startTime r) (nodeId s))) [ws]) s
    | None => s
    end.

  (** The interval callback of [startHeartbeat]. *)
Definition heartbeat (s : Node) : Node := broadcast (HEARTBEAT (nodeId s)) s.

  (** Everything the node reacts to.  Commands reach [startVotingRound]
      and [castVote] from the CLI and from GUI [COMMAND] frames alike;
      the reporting commands only read the state. *)
Inductive Input :=
  | In_message (incoming : bool) (ws : WebSocket) (remoteAddress : option string)
      (message : Message)
  | In_close (incoming : bool) (ws : WebSocket)
  | In_open (ws : WebSocket)
  | In_connect_failed (host : string) (peerPort : Z)
  | In_gui_handshake (ws : WebSocket) (clientId : string)
  | In_heartbeat
  | In_timer (handle : nat)
  | In_start (topic : string) (allowedChoices : option (list string))
      (votingTimeSeconds : JsValue)
  | In_vote (choice : string).

  (** Running the callback of a timer. *)
Definition run_callback (e : Entropy) (now : Z) (cb : Callback) (s : Node) : option Node :=
    match cb with
    | cb_enterConsensusPhase => Some (enterConsensusPhase e now s)
    | cb_finishRound => finishRound s
    | cb_checkIfReadyToPropose => checkIfReadyToPropose now s
    | cb_broadcastKeys allKeys => broadcastKeys allKeys s
    | cb_connectToPeer host peerPort => Some (emit (Connect host peerPort) s)
    | cb_exit => Some (emit (Exit 1) s)
    end.

  (** A timer is due once its delay has elapsed. *)
Definition due (now : Z) (t : Timer) : bool :=
    Qle_bool (inject_Z (armedAt t) + delay t) (inject_Z now).

  (** A pending timer that is due leaves the table and runs; a handle
      that is not pending, or not yet due, does nothing. *)
Definition fire (e : Entropy) (now : Z) (handle : nat) (s : Node) : option Node :=
    match head (filter (λ t, timer_id t = handle) (timers s)) with
    | Some t =>
        if due now t then run_callback e now (callback t) (clearTimeout handle s)
        else Some s
    | None => Some s
    end.

  (** One event at time [now] with randomness [e].  [None] is a
      [TypeError] escaping the callback. *)
Definition step (e : Entropy) (now : Z) (i : Input) (s : Node) : option Node :=
    match i with
    | In_message true ws remoteAddress message => handleMessage now ws remoteAddress message s
    | In_message false ws remoteAddress message =>
        outgoing_message now ws remoteAddress message s
    | In_close true ws => Some (incoming_close ws s)
    | In_close false ws => Some (outgoing_close ws s)
    | In_open ws => Some (outgoing_open ws s)
    | In_connect_failed host peerPort => Some (connect_failed host peerPort s)
    | In_gui_handshake ws clientId => Some (handleGUIConnection ws clientId s)
    | In_heartbeat => Some (heartbeat s)
    | In_timer handle => fire e now handle s
    | In_start topic allowedChoices votingTimeSeconds =>
        Some (startVotingRound now topic allowedChoices votingTimeSeconds s)
    | In_vote choice => Some (castVote e now choice s)
    end.

  (** A schedule: events with the clock and the randomness of each. *)
Definition Event : Type := Entropy * Z * Input.

Fixpoint run (schedule : list Event) (s : Node) : option Node :=
    match schedule with
    | [] => Some s
    | (e, now, i) :: rest => s' ← step e now i s; run rest s'
    end.
End Engine.

(** ** A reference runtime

    An executable instance of [Runtime] on which the model can be run:
    ASCII lower-casing, comparison of strings by character codes, a
    stand-in block cipher and serializer that satisfy the contracts
    assumed of AES-256-CBC and of JSON (decryption inverts encryption
    under the same key and IV and fails under another; parsing inverts
    serialization). *)

#[global] Instance byte_eq_dec : EqDecision byte := Byte.byte_eq_dec.

Module Reference.
Definition lower_char (c : Ascii.ascii) : Ascii.ascii :=
    let n := Ascii.N_of_ascii c in
    if ((65 <=? n) && (n <=? 90))%N then Ascii.ascii_of_N (n + 32) else c.

Fixpoint ascii_toLowerCase (s : string) : string :=
    match s with
    | EmptyString => EmptyString
    | String c rest => String (lower_char c) (ascii_toLowerCase rest)
    end.

Definition code_compare (a b : string) : Z :=
    match String_as_OT.compare a b with
    | Lt => -1
    | Eq => 0
    | Gt => 1
    end.

  (** The stand-in cipher prefixes the plaintext with IV and key;
      decryption checks the prefix. *)
Definition encrypt (key iv plaintext : list byte) : list byte :=
    iv ++ key ++ plaintext.

Definition decrypt (key iv ciphertext : list byte) : option (list byte) :=
    if bool_decide (take (length (iv ++ key)) ciphertext = iv ++ key)
    then Some (drop (length (iv ++ key)) ciphertext)
    else None.

Definition hex_of_string (s : string) : string :=
    Buffer_toString_hex (String.list_byte_of_string s).

Definition string_of_hex (h : string) : string :=
    String.string_of_list_byte (Buffer_from_hex h).

  (** Text up to the first ["|"], and the text after it. *)
Fixpoint split_bar (s : string) : option (string * string) :=
    match s with
    | EmptyString => None
    | String c rest =>
        if bool_decide (c = Ascii.ascii_of_N 124) then Some (EmptyString, rest)
        else p ← split_bar rest; Some (String c p.1, p.2)
    end.

Definition stringify (r : VoteRecord) : string :=
    hex_of_string (vr_choice r) +:+ "|" +:+ hex_of_string (vr_anonymousVoteId r) +:+ "|"
    +:+ hex_of_string (vr_roundId r) +:+ "|"
    +:+ DecimalString.NilEmpty.string_of_int (Z.to_int (vr_timestamp r)).

Definition parse (s : string) : option VoteRecord :=
    p1 ← split_bar s;
    p2 ← split_bar p1.2;
    p3 ← split_bar p2.2;
    timestamp ← DecimalString.NilEmpty.int_of_string p3.2;
    Some (mkVoteRecord (string_of_hex p1.1) (string_of_hex p2.1) (Z.of_int timestamp)
            (string_of_hex p3.1)).

#[export] Instance runtime : Runtime := {|
    toLowerCase := ascii_toLowerCase;
    localeCompare := code_compare;
    aes_256_cbc_encrypt := encrypt;
    aes_256_cbc_decrypt := decrypt;
    JSON_stringify := stringify;
    JSON_parse := parse;
    sha256_hex := hex_of_string
  |}.

  (** The two spellings of the letter e with an acute accent, as UTF-8:
      the single character U+00E9, and [e] followed by the combining
      accent U+0301. *)
Definition e_acute : string :=
    String (Ascii.ascii_of_nat 195) (String (Ascii.ascii_of_nat 169) EmptyString).

Definition e_combining : string :=
    String (Ascii.ascii_of_nat 101)
      (String (Ascii.ascii_of_nat 204) (String (Ascii.ascii_of_nat 129) EmptyString)).

  (** Every [e] with a combining acute accent rewritten as U+00E9. *)
Fixpoint canonical (s : string) : string :=
    match s with
    | EmptyString => EmptyString
    | String c1 rest1 =>
        match rest1 with
        | String c2 (String c3 rest3) =>
            if bool_decide (c1 = Ascii.ascii_of_nat 101)
               && bool_decide (c2 = Ascii.ascii_of_nat 204)
               && bool_decide (c3 = Ascii.ascii_of_nat 129)
            then e_acute +:+ canonical rest3
            else String c1 (canonical rest1)
        | _ => String c1 (canonical rest1)
        end
    end.

  (** A comparison that, as the collation behind [localeCompare] does,
      takes canonically equivalent strings for equal: it compares the
      character codes once both spellings of e-acute are written the
      same way. *)
Definition collation_compare (a b : string) : Z :=
    code_compare (canonical a) (canonical b).

  (** The reference runtime with that comparison for [localeCompare]. *)
Definition collating_runtime : Runtime := {|
    toLowerCase := ascii_toLowerCase;
    localeCompare := collation_compare;
    aes_256_cbc_encrypt := encrypt;
    aes_256_cbc_decrypt := decrypt;
    JSON_stringify := stringify;
    JSON_parse := parse;
    sha256_hex := hex_of_string
  |}.

  (** A node that is in a round whose decrypted votes are [m]. *)
Definition node_with_votes (roundId : string) (phase : Phase)
      (m : JsMap.t VoteRecord) : Node :=
    set_votes {[roundId := m]}
      (set_currentRound
         (Some (Round.mk roundId "topic" None 0 (inject_Z 100000) (inject_Z 100) phase
                  None false ∅ None None))
         (init "alice" 3001 [])).

Definition vote (choice : string) : VoteRecord := mkVoteRecord choice "" 0 "".

  (** A fixed source of randomness for examples. *)
Definition entropy : Entropy :=
    mkEntropy (λ call i, default Byte.x00 (Byte.of_N (N.of_nat (16 * call + i)))) (λ k, 0%N).
End Reference.

(** ** Specification vocabulary *)

Section Vocabulary.
  Context `{Runtime}.

  (** [localeCompare] is a consistent comparison: any two strings are
      comparable and the order is transitive.  It need not tell all
      strings apart: canonically equivalent strings compare as equal. *)
Definition localeCompare_consistent : Prop :=
    (∀ a b, localeCompare a b ≤ 0 ∨ localeCompare b a ≤ 0)
    ∧ (∀ a b c, localeCompare a b ≤ 0 → localeCompare b c ≤ 0 → localeCompare a c ≤ 0).

  (** [localeCompare] tells the strings of [choices] apart: two of them
      that compare as equal are the same string. *)
Definition localeCompare_separates (choices : list string) : Prop :=
    ∀ a b, a ∈ choices → b ∈ choices →
           localeCompare a b ≤ 0 → localeCompare b a ≤ 0 → a = b.

  (** Decrypting with the key and IV used to encrypt returns the
      plaintext, for keys of 32 bytes and IVs of 16 bytes. *)
Definition cipher_contract : Prop :=
    ∀ key iv plaintext,
      length key = 32%nat → length iv = 16%nat →
      aes_256_cbc_decrypt key iv (aes_256_cbc_encrypt key iv plaintext) = Some plaintext.

  (** [JSON.parse] inverts [JSON.stringify] on vote records. *)
Definition JSON_contract : Prop :=
    ∀ record, JSON_parse (JSON_stringify record) = Some record.

  (** The conditions under which [castVote] is to reject: no current
      round, a round that is not in VOTING, a vote already cast in it,
      or a choice outside a finite [allowedChoices], compared without
      regard to case. *)
Definition castVote_rejects (choice : string) (s : Node) : Prop :=
    match currentRound s with
    | None => True
    | Some r =>
        Round.phase r ≠ VOTING
        ∨ default false (hasVotedInRound s !! Round.id r) = true
        ∨ (∃ allowed, Round.allowedChoices r = Some allowed
                      ∧ toLowerCase choice ∉ toLowerCase <$> allowed)
    end.

  (** Number of votes whose lower-cased choice is [c]. *)
Definition occurrences (c : string) (votes : list VoteRecord) : Z :=
    Z.of_nat (length (filter (λ v, toLowerCase (vr_choice v) = c) votes)).

  (** Order of a tally: count descending, then choice ascending. *)
Definition tally_order (a b : ResultEntry) : Prop :=
    count b < count a ∨ (count a = count b ∧ localeCompare (choice a) (choice b) ≤ 0).
End Vocabulary.

(** *** Observations on node states used in the statements *)

(** An [ENCRYPTED_VOTE] frame for round [roundId] handed to [broadcast]. *)
Definition is_vote_broadcast (roundId : string) (e : Effect) : bool :=
  match e with
  | Broadcast (ENCRYPTED_VOTE m) _ _ => bool_decide (ev_roundId m = roundId)
  | _ => false
  end.

(** Number of [ENCRYPTED_VOTE] frames broadcast so far for [roundId]. *)
Definition vote_broadcasts (roundId : string) (s : Node) : nat :=
  length (filter (λ e, is_vote_broadcast roundId e = true) (effects s)).

(** The three stores of round [roundId]: decrypted votes, encrypted
    ballots and keys. *)
Definition stores_at (roundId : string) (s : Node) :
    option (JsMap.t VoteRecord) * option (JsMap.t EncryptedVoteMessage)
    * option (JsMap.t KeyData) :=
  (votes s !! roundId, encryptedVotes s !! roundId, voteKeys s !! roundId).

(** [this.hasVotedInRound.get(roundId)] as a truth value. *)
Definition hasVoted (roundId : string) (s : Node) : bool :=
  default false (hasVotedInRound s !! roundId).

(** The current round has its map of decrypted votes: what both ways
    of starting a round establish and [calculateResults] relies on. *)
Definition stores_installed (s : Node) : Prop :=
  ∀ r, currentRound s = Some r → is_Some (votes s !! Round.id r).

(** If [roundId] is the current round, that round is FINISHED. *)
Definition finished_if_current (roundId : string) (s : Node) : Prop :=
  ∀ r, currentRound s = Some r → Round.id r = roundId → Round.phase r = FINISHED.

(** A key entry written by [castVote] of node [nodeId]. *)
Definition own_key (nodeId : string) (entry : string * KeyData) : Prop :=
  kd_submittedBy entry.2 = Some nodeId ∧ kd_keyProvider entry.2 = None.

(** While the current round is in VOTING its key map holds nothing but
    what this node's [castVote] stored, and nothing before it voted. *)
Definition keys_are_own (s : Node) : Prop :=
  ∀ r, currentRound s = Some r → Round.phase r = VOTING →
    ∃ roundKeys,
      voteKeys s !! Round.id r = Some roundKeys
      ∧ Forall (own_key (nodeId s)) roundKeys
      ∧ (hasVoted (Round.id r) s = false → roundKeys = []).

(** The event creates a round named [roundId] when it is given to the
    node called [nodeId]: a start command mints the id from the clock,
    a [ROUND_START] frame carries it. *)
Definition starts_round (nodeId roundId : string) (ev : Event) : Prop :=
  match ev with
  | (_, now, In_start _ _ _) => "round_" +:+ pretty now +:+ "_" +:+ nodeId = roundId
  | (_, _, In_message _ _ _ (ROUND_START m)) => rs_roundId m = roundId
  | _ => False
  end.

(** The message types whose handler adds the sender to [activePeers]. *)
Definition adds_active_peer (m : Message) : bool :=
  match m with
  | HANDSHAKE _ _ _ | HANDSHAKE_ACK _ _ _ | HEARTBEAT _ => true
  | _ => false
  end.

(** The callback armed by [shareAllKeys]. *)
Definition is_broadcastKeys (cb : Callback) : bool :=
  match cb with
  | cb_broadcastKeys _ => true
  | _ => false
  end.

(** A pending key broadcast has a current round to read the id from. *)
Definition timers_ok (s : Node) : Prop :=
  currentRound s = None → ∀ t, t ∈ timers s → is_broadcastKeys (callback t) = false.

(** What holds of every state the node can reach, and keeps every
    callback from raising a [TypeError]. *)
Definition well_formed (s : Node) : Prop :=
  stores_installed s ∧ timers_ok s.

(** Identity and phase of the current round. *)
Definition round_key (s : Node) : option (string * Phase) :=
  (λ r, (Round.id r, Round.phase r)) <$> currentRound s.

(** A step that casts no vote and starts no round: it keeps the node's
    name and voting marks, broadcasts no ballot, keeps the invariants
    of the stores, and leaves the stores of every finished round as
    they are. *)
Definition calm (s s' : Node) : Prop :=
  nodeId s' = nodeId s
  ∧ hasVotedInRound s' = hasVotedInRound s
  ∧ (∀ roundId, vote_broadcasts roundId s' = vote_broadcasts roundId s)
  ∧ (stores_installed s → stores_installed s')
  ∧ (timers_ok s → timers_ok s')
  ∧ (keys_are_own s → keys_are_own s')
  ∧ (∀ roundId, finished_if_current roundId s →
       finished_if_current roundId s' ∧ stores_at roundId s' = stores_at roundId s).

(** Ballots that the node may still broadcast for [roundId], counted
    with those it has broadcast. *)
Definition ballot_budget (roundId : string) (s : Node) : nat :=
  vote_broadcasts roundId s + (if hasVoted roundId s then 0 else 1).

(** What every step that starts no round guarantees, a cast vote
    included: ballots are spent from the budget, never added to it,
    and a round that was voted in stays voted in. *)
Definition steady (s s' : Node) : Prop :=
  nodeId s' = nodeId s
  ∧ (stores_installed s → stores_installed s')
  ∧ (timers_ok s → timers_ok s')
  ∧ (keys_are_own s → keys_are_own s')
  ∧ (∀ roundId, finished_if_current roundId s →
       finished_if_current roundId s' ∧ stores_at roundId s' = stores_at roundId s)
  ∧ (∀ roundId, (ballot_budget roundId s' ≤ ballot_budget roundId s)%nat)
  ∧ (∀ roundId, hasVoted roundId s = true → hasVoted roundId s' = true).

(** The outcome of an accepted round start: the round [newId] is
    current, in VOTING, with empty stores and no vote cast; every other
    round's stores and voting mark are untouched. *)
Definition fresh_round (newId : string) (s s' : Node) : Prop :=
  nodeId s' = nodeId s
  ∧ activePeers s' = activePeers s
  ∧ (∃ r, currentRound s' = Some r ∧ Round.id r = newId ∧ Round.phase r = VOTING)
  ∧ stores_at newId s' = (Some [], Some [], Some [])
  ∧ hasVoted newId s' = false
  ∧ (∀ rid, rid ≠ newId →
       stores_at rid s' = stores_at rid s ∧ hasVoted rid s' = hasVoted rid s)
  ∧ (∀ rid, vote_broadcasts rid s' = vote_broadcasts rid s)
  ∧ (∀ t, t ∈ timers s' → is_broadcastKeys (callback t) = true → t ∈ timers s).

(** A calm step that also leaves the set of active peers and the
    registry of seen nodes alone. *)
Definition still (s s' : Node) : Prop :=
  calm s s' ∧ activePeers s' = activePeers s ∧ nodeRegistry s' = nodeRegistry s.

(** No ballot of the current round is left to decrypt: every ballot
    whose key the node holds is in the map of decrypted votes, as it is
    once the key handlers, which decrypt on arrival, have run. *)
Definition all_decrypted (s : Node) : Prop :=
  ∀ r ballots keys,
    currentRound s = Some r →
    encryptedVotes s !! Round.id r = Some ballots →
    voteKeys s !! Round.id r = Some keys →
    ∃ decrypted,
      votes s !! Round.id r = Some decrypted
      ∧ ∀ k, k ∈ JsMap.keys ballots → JsMap.has k keys = true →
             JsMap.has k decrypted = true.

(** The phases in the order in which a round passes through them. *)
Definition phase_rank (p : Phase) : nat :=
  match p with
  | VOTING => 0
  | CONSENSUS => 1
  | FINISHED => 2
  end.

(** The round [r'] is the round [r] no earlier in its life: same id,
    topic, choices, start and duration, a phase that is the same or a
    later one, [consensusAchieved] still set if it was, and every member
    of [consensusNodes] still there. *)
Definition round_advanced (r r' : Round.t) : Prop :=
  Round.id r' = Round.id r ∧ Round.topic r' = Round.topic r
  ∧ Round.allowedChoices r' = Round.allowedChoices r
  ∧ Round.startTime r' = Round.startTime r ∧ Round.duration r' = Round.duration r
  ∧ (phase_rank (Round.phase r) ≤ phase_rank (Round.phase r'))%nat
  ∧ (Round.consensusAchieved r = true → Round.consensusAchieved r' = true)
  ∧ Round.consensusNodes r ⊆ Round.consensusNodes r'.

(** The current round of [s], if any, is still current in [s'], and has
    only advanced. *)
Definition advances (s s' : Node) : Prop :=
  ∀ r, currentRound s = Some r →
    ∃ r', currentRound s' = Some r' ∧ round_advanced r r'.

(** The events that can begin a round: the start command and an inbound
    [ROUND_START] frame. *)
Definition is_round_start (i : Input) : bool :=
  match i with
  | In_start _ _ _ => true
  | In_message _ _ _ (ROUND_START _) => true
  | _ => false
  end.

(** ** Commands and status

    The [start] command of the GUI ([handleGUICommand]) and of the
    command line ([handleCommand]), and the status shown to the GUI
    ([getCurrentRoundStatus]).  Both commands receive the words that
    follow the command name. *)

(** [/^\d+$/.test(s)] *)
Definition is_digit (c : Ascii.ascii) : bool :=
  (48 <=? Ascii.N_of_ascii c)%N && (Ascii.N_of_ascii c <=? 57)%N.

Definition matches_digits (s : string) : bool :=
  match s with
  | EmptyString => false
  | _ => forallb is_digit (String.list_ascii_of_string s)
  end.

(** [parseInt(s)] for a string of digits.  JavaScript rounds the value
    to a double once it exceeds 2^53; such values are far above the 600
    that [startVotingRound] accepts either way. *)
Definition parseInt (s : string) : Z :=
  foldl (λ acc c, 10 * acc + (Z.of_N (Ascii.N_of_ascii c) - 48)) 0 (String.list_ascii_of_string s).

(** [s.includes(',')] *)
Definition includes_comma (s : string) : bool :=
  existsb (λ c, bool_decide (c = Ascii.ascii_of_N 44)) (String.list_ascii_of_string s).

(** [s.split(',')]: the pieces between the commas, empty ones included. *)
Fixpoint split_comma (s : string) : list string :=
  match s with
  | EmptyString => [EmptyString]
  | String c rest =>
      if bool_decide (c = Ascii.ascii_of_N 44) then EmptyString :: split_comma rest
      else
        match split_comma rest with
        | piece :: pieces => String c piece :: pieces
        | [] => [String c EmptyString]
        end
  end.

(** What the GUI is answered. *)
Inductive CommandResponse :=
| Usage_start
| Started (topic : string) (votingTime : Z).

Section Commands.
  (** [String.prototype.trim] *)
  Context (String_trim : string → string).

  (** The end of both [start] cases: whether the last remaining word is
      a list of choices, and the topic. *)
Definition start_arguments (args : list string) : string * option (list string) :=
    if bool_decide (1 < length args)%nat && includes_comma (default "" (last args))
    then (String.concat " " (removelast args),
          Some (String_trim <$> split_comma (default "" (last args))))
    else (String.concat " " args, None).

  (** [case 'start'] of [handleGUICommand], which works on a copy of
      [args] held in a [let]. *)
Definition handleGUICommand_start (now : Z) (args : list string) (s : Node) :
      Node * CommandResponse :=
    match last args with
    | None => (s, Usage_start)
    | Some lastArg =>
        let votingTime := if matches_digits lastArg then parseInt lastArg else 100 in
        let parsedArgs := if matches_digits lastArg then removelast args else args in
        let '(topic, allowedChoices) := start_arguments parsedArgs in
        (startVotingRound now topic allowedChoices (JsNumber (inject_Z votingTime)) s,
         Started topic votingTime)
    end.

  (** [case 'start'] of [handleCommand].  There [args] is bound by
      [const [command, ...args] = input.split(' ')], so the assignment
      [args = args.slice(0, -1)] that follows a numeric last word throws
      a [TypeError]. *)
Definition handleCommand_start (now : Z) (args : list string) (s : Node) : Except Node :=
    match last args with
    | None => Returned s
    | Some lastArg =>
        if matches_digits lastArg then Thrown "Assignment to constant variable."
        else
          let '(topic, allowedChoices) := start_arguments args in
          Returned (startVotingRound now topic allowedChoices (JsNumber (inject_Z 100)) s)
    end.
End Commands.

(** What [getCurrentRoundStatus] returns when there is a round. *)
Record RoundStatus := mkRoundStatus {
  st_topic : string;
  st_phase : Phase;
  st_timeRemaining : Z;
  st_encryptedVoteCount : Z;
  st_decryptedVoteCount : Z;
  st_activeNodes : Z
}.

(** [getCurrentRoundStatus]; [None] is the text ['No active round']. *)
Definition getCurrentRoundStatus (now : Z) (s : Node) : option RoundStatus :=
  r ← currentRound s;
  let elapsed := now - Round.startTime r in
  let remaining := Math_max (inject_Z 0) (Round.duration r - inject_Z elapsed)%Q in
  Some (mkRoundStatus (Round.topic r) (Round.phase r)
          (Math_floor (remaining / inject_Z 1000)%Q)
          (match encryptedVotes s !! Round.id r with
           | Some encryptedVotes => JsMap.size encryptedVotes
           | None => 0
           end)
          (match votes s !! Round.id r with
           | Some decryptedVotes => JsMap.size decryptedVotes
           | None => 0
           end)
          (getActiveNodeCount s)).

(** [verifySignature(signature, message, fromNode)] *)
Definition verifySignature `{Runtime} (signature message fromNode : string) : bool :=
  bool_decide (signature = sha256_hex (fromNode +:+ "_" +:+ message)).

(** ** The duplicate check

    [checkForDuplicates] only prints; what it prints is decided by the
    map [nodeIds] that it builds and by the array [duplicates] that it
    filters out of it, which are what the model returns. *)

(** Body of its loop over [this.peers]: an entry of an active peer is
    counted, under the peer's id, with the socket of the first entry. *)
Definition count_connection (activePeers : gset string)
    (nodeIds : JsMap.t (Z * WebSocket)) (entry : string * WebSocket) :
    JsMap.t (Z * WebSocket) :=
  if bool_decide (entry.1 ∈ activePeers) then
    match JsMap.get entry.1 nodeIds with
    | Some data => JsMap.set entry.1 (data.1 + 1, data.2) nodeIds
    | None => JsMap.set entry.1 (1, entry.2) nodeIds
    end
  else nodeIds.

Definition connection_counts (s : Node) : JsMap.t (Z * WebSocket) :=
  foldl (count_connection (activePeers s)) [] (peers s).

(** [Array.from(nodeIds.entries()).filter(([id, data]) => data.count > 1)] *)
Definition checkForDuplicates (s : Node) : list (string * (Z * WebSocket)) :=
  filter (λ entry, 1 < entry.2.1) (connection_counts s).

(** * Theorems *)

(** ** Insertion-ordered maps *)

Module JsMapFacts.
  Section Facts.
    Context {V : Type}.
    Implicit Types (m : list (string * V)) (k : string) (v : V).

Lemma get_set_eq k v m : JsMap.get k (JsMap.set k v m) = Some v.
    Proof.
      induction m as [|[k' v'] m IH]; simpl.
      - by rewrite decide_True.
      - destruct (decide (k' = k)) as [->|Hne]; simpl.
        + by rewrite decide_True.
        + by rewrite decide_False.
    Qed.

Lemma get_set_ne k k' v m : k ≠ k' → JsMap.get k' (JsMap.set k v m) = JsMap.get k' m.
    Proof.
      intros Hne. induction m as [|[k0 v0] m IH]; simpl.
      - by rewrite decide_False.
      - destruct (decide (k0 = k)) as [->|Hne0]; simpl.
        + by rewrite !decide_False.
        + destruct (decide (k0 = k')); [done | apply IH].
    Qed.

Lemma get_None k m : JsMap.get k m = None ↔ k ∉ JsMap.keys m.
    Proof.
      unfold JsMap.keys. induction m as [|[k' v'] m IH]; simpl.
      - split; [intros _; apply not_elem_of_nil | done].
      - rewrite not_elem_of_cons. destruct (decide (k' = k)) as [->|Hne].
        + split; [done | intros [[] _]; done].
        + rewrite IH. split; [intros ?; split; [congruence | done] | intros [_ ?]; done].
    Qed.

Lemma has_true k m : JsMap.has k m = true ↔ k ∈ JsMap.keys m.
    Proof.
      unfold JsMap.has. rewrite bool_decide_eq_true.
      destruct (JsMap.get k m) as [v|] eqn:E.
      - split; [intros _ | by eauto].
        destruct (decide (k ∈ JsMap.keys m)) as [|Hn]; [done|].
        apply get_None in Hn. congruence.
      - split; [intros [? ?]; done |]. intros Hin. by apply get_None in E.
    Qed.

Lemma has_false k m : JsMap.has k m = false ↔ JsMap.get k m = None.
    Proof.
      unfold JsMap.has. rewrite bool_decide_eq_false.
      destruct (JsMap.get k m); split; try done.
      intros Hn. destruct Hn. by eauto.
    Qed.

Lemma keys_set k v m :
      JsMap.keys (JsMap.set k v m)
      = if JsMap.has k m then JsMap.keys m else JsMap.keys m ++ [k].
    Proof.
      unfold JsMap.keys, JsMap.has. induction m as [|[k' v'] m IH]; [done|].
      cbn [JsMap.set JsMap.get]. destruct (decide (k' = k)) as [->|Hne].
      - by rewrite bool_decide_eq_true_2 by eauto.
      - rewrite !fmap_cons, IH. by destruct (bool_decide _).
    Qed.

Lemma NoDup_keys_set k v m : NoDup (JsMap.keys m) → NoDup (JsMap.keys (JsMap.set k v m)).
    Proof.
      intros Hnd. rewrite keys_set. destruct (JsMap.has k m) eqn:E; [done|].
      apply NoDup_app. split; [done|]. split; [|apply NoDup_singleton].
      intros x Hx Hx'. apply list_elem_of_singleton in Hx'. subst x.
      apply has_true in Hx. congruence.
    Qed.

Lemma elem_of_get k v m : NoDup (JsMap.keys m) → (k, v) ∈ m ↔ JsMap.get k m = Some v.
    Proof.
      unfold JsMap.keys. induction m as [|[k' v'] m IH]; simpl; intros Hnd.
      - split; [intros Hin; by apply elem_of_nil in Hin | done].
      - apply NoDup_cons in Hnd as [Hk' Hnd]. rewrite elem_of_cons.
        destruct (decide (k' = k)) as [->|Hne].
        + split; [|intros [= ->]; by left].
          intros [[= ->]|Hin]; [done|]. destruct Hk'.
          apply list_elem_of_fmap. by exists (k, v).
        + rewrite <- (IH Hnd). split; [intros [[= ? ?]|?]; [congruence | done] | by right].
    Qed.

    (** Two maps without repeated keys that answer every [get] alike
        hold the same entries, possibly in another order. *)
Lemma Permutation_of_get m1 m2 :
      NoDup (JsMap.keys m1) → NoDup (JsMap.keys m2) →
      (∀ k, JsMap.get k m1 = JsMap.get k m2) → m1 ≡ₚ m2.
    Proof.
      intros Hn1 Hn2 Hget. apply NoDup_Permutation.
      - eapply NoDup_fmap_1. exact Hn1.
      - eapply NoDup_fmap_1. exact Hn2.
      - intros [k v]. rewrite !elem_of_get by done. by rewrite Hget.
    Qed.

Lemma length_set k v m :
      length (JsMap.set k v m) = if JsMap.has k m then length m else S (length m).
    Proof.
      pose proof (keys_set k v m) as Hk. apply (f_equal length) in Hk.
      unfold JsMap.keys in Hk. rewrite length_fmap in Hk. rewrite Hk.
      destruct (JsMap.has k m); rewrite ?length_app, ?length_fmap; simpl; lia.
    Qed.
  End Facts.
End JsMapFacts.

(** ** The tally *)

Section SortFacts.
  Context (cmp : string * Z → string * Z → Z).

Lemma sort_insert_Permutation x l : sort_insert cmp x l ≡ₚ x :: l.
  Proof.
    induction l as [|y l IH]; simpl; [done|].
    destruct (decide (cmp x y ≤ 0)); [done|].
    rewrite IH. apply Permutation_swap.
  Qed.

Lemma Array_sort_Permutation l : Array_sort cmp l ≡ₚ l.
  Proof.
    induction l as [|x l IH]; simpl; [done|].
    unfold Array_sort in *. simpl. by rewrite sort_insert_Permutation, IH.
  Qed.

  Context (cmp_total : ∀ a b, cmp a b ≤ 0 ∨ cmp b a ≤ 0).

Lemma HdRel_sort_insert a x l :
    cmp a x ≤ 0 → HdRel (λ a b, cmp a b ≤ 0) a l → HdRel (λ a b, cmp a b ≤ 0) a (sort_insert cmp x l).
  Proof.
    intros Hax Hal. destruct l as [|y l]; simpl; [by constructor|].
    destruct (decide (cmp x y ≤ 0)); constructor; [done|].
    by inversion Hal.
  Qed.

Lemma Sorted_sort_insert x l :
    Sorted (λ a b, cmp a b ≤ 0) l → Sorted (λ a b, cmp a b ≤ 0) (sort_insert cmp x l).
  Proof.
    induction 1 as [|y l Hs IH Hhd]; simpl.
    - repeat constructor.
    - destruct (decide (cmp x y ≤ 0)) as [Hle|Hnle].
      + constructor; [by constructor | by constructor].
      + constructor; [done|]. apply HdRel_sort_insert; [|done].
        destruct (cmp_total x y); [done | done].
  Qed.

Lemma Sorted_Array_sort l : Sorted (λ a b, cmp a b ≤ 0) (Array_sort cmp l).
  Proof.
    induction l as [|x l IH]; [constructor|].
    unfold Array_sort in *. simpl. by apply Sorted_sort_insert.
  Qed.
End SortFacts.

Section TallyFacts.
  Context `{Runtime}.

Lemma occurrences_nonneg c votes : 0 ≤ occurrences c votes.
  Proof. unfold occurrences. lia. Qed.

Lemma occurrences_cons c v votes :
    occurrences c (v :: votes)
    = (if decide (toLowerCase (vr_choice v) = c) then 1 else 0) + occurrences c votes.
  Proof.
    unfold occurrences. rewrite filter_cons.
    destruct (decide (toLowerCase (vr_choice v) = c)); simpl; lia.
  Qed.

Lemma occurrences_choices c votes :
    occurrences c votes
    = Z.of_nat (length (filter (λ x, toLowerCase x = c) (vr_choice <$> votes))).
  Proof.
    unfold occurrences. f_equal. induction votes as [|v votes IH]; [done|].
    rewrite fmap_cons, !filter_cons.
    destruct (decide (toLowerCase (vr_choice v) = c)); simpl; by rewrite IH.
  Qed.

Lemma occurrences_Permutation c votes votes' :
    vr_choice <$> votes ≡ₚ vr_choice <$> votes' → occurrences c votes = occurrences c votes'.
  Proof. intros Hp. rewrite !occurrences_choices. by rewrite Hp. Qed.

Lemma get_tally_vote c tally v :
    JsMap.get c (tally_vote tally v)
    = if decide (toLowerCase (vr_choice v) = c)
      then Some (default 0 (JsMap.get c tally) + 1)
      else JsMap.get c tally.
  Proof.
    unfold tally_vote. destruct (decide (toLowerCase (vr_choice v) = c)) as [<-|Hne].
    - apply JsMapFacts.get_set_eq.
    - by apply JsMapFacts.get_set_ne.
  Qed.

  (** What the counting loop leaves in the map. *)
Lemma get_tally c votes tally :
    JsMap.get c (foldl tally_vote tally votes)
    = if decide (occurrences c votes = 0) then JsMap.get c tally
      else Some (default 0 (JsMap.get c tally) + occurrences c votes).
  Proof.
    revert tally. induction votes as [|v votes IH]; intros tally; [done|].
    simpl. rewrite IH, get_tally_vote, occurrences_cons.
    pose proof (occurrences_nonneg c votes).
    destruct (decide (toLowerCase (vr_choice v) = c));
      destruct (decide (occurrences c votes = 0)) as [->|];
      destruct (decide (_ = 0)); try lia; simpl; try done; f_equal; lia.
  Qed.

Lemma NoDup_keys_tally votes tally :
    NoDup (JsMap.keys tally) → NoDup (JsMap.keys (foldl tally_vote tally votes)).
  Proof.
    revert tally. induction votes as [|v votes IH]; intros tally Hnd; [done|].
    simpl. apply IH. by apply JsMapFacts.NoDup_keys_set.
  Qed.

Lemma tally_Permutation votes votes' :
    vr_choice <$> votes ≡ₚ vr_choice <$> votes' →
    foldl tally_vote [] votes ≡ₚ foldl tally_vote [] votes'.
  Proof.
    intros Hp. apply JsMapFacts.Permutation_of_get.
    - apply NoDup_keys_tally, NoDup_nil_2.
    - apply NoDup_keys_tally, NoDup_nil_2.
    - intros c. rewrite !get_tally. by rewrite (occurrences_Permutation c _ _ Hp).
  Qed.

  Context (Hord : localeCompare_consistent).

Lemma compareEntries_total a b : compareEntries a b ≤ 0 ∨ compareEntries b a ≤ 0.
  Proof.
    destruct Hord as (Htot & _). unfold compareEntries.
    destruct (decide (b.2 ≠ a.2)), (decide (a.2 ≠ b.2)); try lia. apply Htot.
  Qed.

Lemma compareEntries_trans a b c :
    compareEntries a b ≤ 0 → compareEntries b c ≤ 0 → compareEntries a c ≤ 0.
  Proof.
    destruct Hord as (_ & Htr). unfold compareEntries.
    destruct (decide (b.2 ≠ a.2)), (decide (c.2 ≠ b.2)), (decide (c.2 ≠ a.2));
      try lia. apply Htr.
  Qed.

Lemma compareEntries_antisym choices a b :
    localeCompare_separates choices → a.1 ∈ choices → b.1 ∈ choices →
    compareEntries a b ≤ 0 → compareEntries b a ≤ 0 → a = b.
  Proof.
    intros Hsep Ha Hb. unfold compareEntries.
    destruct (decide (b.2 ≠ a.2)) as [|Heq], (decide (a.2 ≠ b.2)); try lia.
    intros H1 H2. destruct a, b; simpl in *. f_equal; [by apply Hsep | lia].
  Qed.

Lemma compareEntries_tally_order a b :
    compareEntries a b ≤ 0 → tally_order (mkResult a.1 a.2) (mkResult b.1 b.2).
  Proof.
    unfold compareEntries, tally_order. simpl.
    destruct (decide (b.2 ≠ a.2)); [left; lia | right; split; [lia | done]].
  Qed.

  (** Sorting makes the order of the counted entries irrelevant when
      the comparison tells their choices apart. *)
Lemma Array_sort_unique l l' :
    localeCompare_separates l.*1 →
    l ≡ₚ l' → Array_sort compareEntries l = Array_sort compareEntries l'.
  Proof.
    intros Hsep Hp.
    assert (Transitive (λ a b, compareEntries a b ≤ 0)) as Htr
      by (intros a b c; apply compareEntries_trans).
    apply (Sorted_unique_strong (λ a b, compareEntries a b ≤ 0)).
    - intros a b Ha Hb. rewrite Array_sort_Permutation in Ha.
      rewrite Array_sort_Permutation, <- Hp in Hb.
      apply (compareEntries_antisym l.*1); [done | |];
        apply list_elem_of_fmap; by eexists.
    - apply Sorted_Array_sort, compareEntries_total.
    - apply Sorted_Array_sort, compareEntries_total.
    - by rewrite !Array_sort_Permutation.
  Qed.

Lemma elem_of_keys_tally c votes :
    c ∈ (foldl tally_vote [] votes).*1 → c ∈ toLowerCase <$> (vr_choice <$> votes).
  Proof.
    intros Hin. destruct (decide (c ∈ toLowerCase <$> (vr_choice <$> votes))) as [|Hn]; [done|].
    apply JsMapFacts.has_true in Hin. unfold JsMap.has in Hin.
    apply bool_decide_eq_true in Hin as [n Hn'].
    rewrite get_tally in Hn'. destruct (decide (occurrences c votes = 0)) as [|Hocc]; [done|].
    destruct Hocc. unfold occurrences.
    destruct (filter _ votes) as [|v l] eqn:Hf; [done|].
    assert (v ∈ filter (λ v, toLowerCase (vr_choice v) = c) votes) as Hv
      by (rewrite Hf; by left).
    apply list_elem_of_filter in Hv as [<- Hv]. destruct Hn.
    rewrite <- list_fmap_compose. apply list_elem_of_fmap. by exists v.
  Qed.

Lemma calculateResultsOf_Permuted (m m' : JsMap.t VoteRecord) :
    vr_choice <$> JsMap.values m ≡ₚ vr_choice <$> JsMap.values m' →
    calculateResultsOf m ≡ₚ calculateResultsOf m'.
  Proof.
    intros Hp. unfold calculateResultsOf. apply fmap_Permutation.
    rewrite !Array_sort_Permutation. by apply tally_Permutation.
  Qed.

Lemma calculateResultsOf_Permutation (m m' : JsMap.t VoteRecord) :
    localeCompare_separates (toLowerCase <$> (vr_choice <$> JsMap.values m)) →
    vr_choice <$> JsMap.values m ≡ₚ vr_choice <$> JsMap.values m' →
    calculateResultsOf m = calculateResultsOf m'.
  Proof.
    intros Hsep Hp. unfold calculateResultsOf. f_equal.
    apply Array_sort_unique; [|by apply tally_Permutation].
    intros a b Ha%elem_of_keys_tally Hb%elem_of_keys_tally. by apply Hsep.
  Qed.

Lemma elem_of_calculateResultsOf (m : JsMap.t VoteRecord) c n :
    mkResult c n ∈ calculateResultsOf m ↔ 0 < n ∧ n = occurrences c (JsMap.values m).
  Proof.
    unfold calculateResultsOf. rewrite list_elem_of_fmap. split.
    - intros ([c' n'] & [= <- <-] & Hin). rewrite Array_sort_Permutation in Hin.
      apply JsMapFacts.elem_of_get in Hin; [|apply NoDup_keys_tally, NoDup_nil_2].
      rewrite get_tally in Hin. pose proof (occurrences_nonneg c (JsMap.values m)).
      destruct (decide (_ = 0)); simpl in *; [done|]. injection Hin as <-. lia.
    - intros [Hpos ->]. exists (c, occurrences c (JsMap.values m)). split; [done|].
      rewrite Array_sort_Permutation.
      apply JsMapFacts.elem_of_get; [apply NoDup_keys_tally, NoDup_nil_2|].
      rewrite get_tally. destruct (decide (_ = 0)); simpl; [lia | f_equal; lia].
  Qed.

Lemma NoDup_calculateResultsOf (m : JsMap.t VoteRecord) :
    NoDup (choice <$> calculateResultsOf m).
  Proof.
    unfold calculateResultsOf. rewrite <- list_fmap_compose.
    change (NoDup (JsMap.keys (Array_sort compareEntries
                                 (foldl tally_vote [] (JsMap.values m))))).
    unfold JsMap.keys. rewrite Array_sort_Permutation.
    apply (NoDup_keys_tally _ []), NoDup_nil_2.
  Qed.

Lemma StronglySorted_calculateResultsOf (m : JsMap.t VoteRecord) :
    StronglySorted tally_order (calculateResultsOf m).
  Proof.
    unfold calculateResultsOf.
    apply StronglySorted_fmap with (R1 := λ a b, compareEntries a b ≤ 0).
    - intros a b. apply compareEntries_tally_order.
    - assert (Transitive (λ a b, compareEntries a b ≤ 0)) as Htr
        by (intros a b c; apply compareEntries_trans).
      apply Sorted_StronglySorted; [done|].
      apply Sorted_Array_sort, compareEntries_total.
  Qed.
End TallyFacts.

Lemma compareResults_loop_Forall2 `{Runtime} results1 results2 :
  length results1 = length results2 →
  compareResults_loop results1 results2 = true
  ↔ Forall2 (λ a b, choice a = choice b ∧ count a = count b) results1 results2.
Proof.
  revert results2. induction results1 as [|a r1 IH]; intros [|b r2] Hlen; try done.
  simpl in *. destruct (decide (choice a = choice b)) as [Hc|Hc];
    destruct (decide (count a = count b)) as [Hn|Hn].
  - rewrite !bool_decide_eq_false_2 by (intros ?; done). simpl.
    rewrite IH by lia. split; [by constructor | by inversion 1].
  - rewrite (bool_decide_eq_true_2 (count a ≠ count b)) by done.
    rewrite orb_true_r. split; [done | by inversion 1 as [|? ? ? ? [? ?]]].
  - rewrite (bool_decide_eq_true_2 (choice a ≠ choice b)) by done.
    split; [done | by inversion 1 as [|? ? ? ? [? ?]]].
  - rewrite (bool_decide_eq_true_2 (choice a ≠ choice b)) by done.
    split; [done | by inversion 1 as [|? ? ? ? [? ?]]].
Qed.

Lemma compareResults_Forall2 `{Runtime} results1 results2 :
  compareResults results1 results2 = true
  ↔ Forall2 (λ a b, choice a = choice b ∧ count a = count b) results1 results2.
Proof.
  unfold compareResults. case_bool_decide as Hlen.
  - split; [done|]. intros HF. apply Forall2_length in HF. done.
  - apply compareResults_loop_Forall2. destruct (decide (length results1 = length results2)); done.
Qed.

Lemma compareResults_eq `{Runtime} results1 results2 :
  compareResults results1 results2 = true ↔ results1 = results2.
Proof.
  rewrite compareResults_Forall2. split.
  - induction 1 as [|[c1 n1] [c2 n2] ? ? [Hc Hn]]; [done|]. simpl in *. by subst.
  - intros ->. induction results2; by constructor.
Qed.

(** ** The reference runtime meets the contracts *)

Module ReferenceFacts.
  Import Reference.

Lemma compare_Lt_asym a b :
    String_as_OT.compare a b = Lt → String_as_OT.compare b a = Lt → False.
  Proof.
    intros H1 H2. pose proof String_as_OT.lt_strorder as [Hirr Htr].
    apply (Hirr a). by apply (Htr a b a).
  Qed.

Lemma code_compare_le a b :
    code_compare a b ≤ 0 ↔ a = b ∨ String_as_OT.compare a b = Lt.
  Proof.
    unfold code_compare.
    destruct (String_as_OT.compare_spec a b) as [Heq|Hlt|Hgt].
    - split; [by left | lia].
    - split; [by right | lia].
    - split; [lia|]. intros [->|Hlt].
      + pose proof String_as_OT.lt_strorder as [Hirr _]. by destruct (Hirr b).
      + discriminate.
  Qed.

Lemma code_compare_total a b : code_compare a b ≤ 0 ∨ code_compare b a ≤ 0.
  Proof.
    destruct (String_as_OT.compare_spec a b) as [Heq|Hlt|Hgt].
    - left. apply code_compare_le. by left.
    - left. apply code_compare_le. by right.
    - right. apply code_compare_le. by right.
  Qed.

Lemma code_compare_trans a b c :
    code_compare a b ≤ 0 → code_compare b c ≤ 0 → code_compare a c ≤ 0.
  Proof.
    intros [->|H1]%code_compare_le [->|H2]%code_compare_le; apply code_compare_le; auto.
    right. pose proof String_as_OT.lt_strorder as [_ Htr]. by apply (Htr a b c).
  Qed.

Lemma code_compare_antisym a b : code_compare a b ≤ 0 → code_compare b a ≤ 0 → a = b.
  Proof.
    intros [->|H1]%code_compare_le [Heq|H2]%code_compare_le; try done.
    by destruct (compare_Lt_asym a b).
  Qed.

  (** Comparison by character codes is consistent and tells all strings
      apart. *)
Lemma code_compare_consistent : localeCompare_consistent (H := runtime).
  Proof. split; [apply code_compare_total | apply code_compare_trans]. Qed.

Lemma code_compare_separates choices : localeCompare_separates (H := runtime) choices.
  Proof. intros a b _ _. apply code_compare_antisym. Qed.

  (** The collating comparison is consistent as well. *)
Lemma collation_compare_consistent : localeCompare_consistent (H := collating_runtime).
  Proof.
    split.
    - intros a b. apply code_compare_total.
    - intros a b c. apply code_compare_trans.
  Qed.
End ReferenceFacts.




(** ** Hexadecimal codec and the ballot cipher *)

Lemma Buffer_from_hex_byte b rest :
  Buffer_from_hex
    (String (hex_digit (Byte.to_N b / 16)%N) (String (hex_digit (Byte.to_N b mod 16)%N) rest))
  = b :: Buffer_from_hex rest.
Proof. destruct b; reflexivity. Qed.

Lemma Buffer_hex_roundtrip buf : Buffer_from_hex (Buffer_toString_hex buf) = buf.
Proof.
  induction buf as [|b buf IH]; [done|].
  unfold Buffer_toString_hex in *. simpl foldr. by rewrite Buffer_from_hex_byte, IH.
Qed.

Lemma length_randomBytes e call n : length (randomBytes e call n) = n.
Proof. unfold randomBytes. by rewrite length_fmap, length_seq. Qed.

Section CryptoFacts.
  Context `{Runtime}.

Lemma decryptVote_encryptVote e now choice roundId :
    cipher_contract → JSON_contract →
    let ev := encryptVote e now choice roundId in
    decryptVote (encryptedData ev) (key ev) (iv ev)
    = Some (mkVoteRecord choice (anonymousVoteId ev) now roundId).
  Proof.
    intros Hcipher Hjson. unfold decryptVote, decryptVote_try, encryptVote.
    cbn [encryptedData key iv anonymousVoteId].
    rewrite !Buffer_hex_roundtrip, !length_randomBytes.
    rewrite !bool_decide_eq_false_2 by (intros Hne; by apply Hne).
    rewrite Hcipher by apply length_randomBytes.
    by rewrite String.string_of_list_byte_of_string, Hjson.
  Qed.

  (** Every way the [try] block can fail ends in [null]. *)
Lemma decryptVote_failure encryptedData keyHex ivHex :
    (length (Buffer_from_hex keyHex) ≠ 32%nat
     ∨ length (Buffer_from_hex ivHex) ≠ 16%nat
     ∨ aes_256_cbc_decrypt (Buffer_from_hex keyHex) (Buffer_from_hex ivHex)
         (Buffer_from_hex encryptedData) = None
     ∨ (∃ text,
          aes_256_cbc_decrypt (Buffer_from_hex keyHex) (Buffer_from_hex ivHex)
            (Buffer_from_hex encryptedData) = Some text
          ∧ JSON_parse (String.string_of_list_byte text) = None))
    ↔ decryptVote encryptedData keyHex ivHex = None.
  Proof.
    unfold decryptVote, decryptVote_try.
    case_bool_decide as Hk; [by split; auto|].
    case_bool_decide as Hi; [by split; auto|].
    destruct (aes_256_cbc_decrypt _ _ _) as [text|] eqn:Hd; [|by split; auto].
    destruct (JSON_parse _) eqn:Hp.
    - split; [|done]. intros [?|[?|[?|(text' & [= <-] & Hp')]]]; congruence.
    - split; [done|]. intros _. right. right. right. by exists text.
  Qed.
End CryptoFacts.

Module ReferenceCryptoFacts.
  Import Reference.

Lemma cipher_contract_holds : cipher_contract (H := runtime).
  Proof.
    intros key iv plaintext _ _. simpl. unfold decrypt, encrypt.
    rewrite (app_assoc iv key plaintext), take_app_length, drop_app_length.
    by rewrite bool_decide_eq_true_2.
  Qed.

Lemma hex_digit_not_bar b :
    hex_digit (Byte.to_N b / 16)%N ≠ Ascii.ascii_of_N 124
    ∧ hex_digit (Byte.to_N b mod 16)%N ≠ Ascii.ascii_of_N 124.
  Proof. destruct b; split; vm_compute; discriminate. Qed.

Lemma split_bar_hex buf rest :
    split_bar (Buffer_toString_hex buf +:+ String (Ascii.ascii_of_N 124) rest)
    = Some (Buffer_toString_hex buf, rest).
  Proof.
    induction buf as [|b buf IH]; [done|].
    destruct (hex_digit_not_bar b) as [H1 H2].
    unfold Buffer_toString_hex in *. cbn [foldr].
    change (String ?c ?s +:+ ?t) with (String c (s +:+ t)).
    change (String ?c ?s +:+ ?t) with (String c (s +:+ t)).
    cbn [split_bar].
    rewrite !bool_decide_eq_false_2 by done. by rewrite IH.
  Qed.

Lemma string_of_hex_of_string s : string_of_hex (hex_of_string s) = s.
  Proof.
    unfold string_of_hex, hex_of_string.
    by rewrite Buffer_hex_roundtrip, String.string_of_list_byte_of_string.
  Qed.

Lemma JSON_contract_holds : JSON_contract (H := runtime).
  Proof.
    intros [c a t r]. simpl. unfold parse, stringify, hex_of_string. simpl.
    repeat change ("|" +:+ ?x) with (String (Ascii.ascii_of_N 124) x).
    rewrite split_bar_hex. simpl. rewrite split_bar_hex. simpl.
    rewrite split_bar_hex. simpl.
    rewrite DecimalString.NilEmpty.isi. simpl.
    rewrite DecimalZ.of_to.
    pose proof (string_of_hex_of_string c) as Hc.
    pose proof (string_of_hex_of_string a) as Ha.
    pose proof (string_of_hex_of_string r) as Hr.
    unfold hex_of_string in *. by rewrite Hc, Ha, Hr.
  Qed.
End ReferenceCryptoFacts.

(** C6.  Encrypt-then-decrypt is the identity on ballots.  Provided the
    cipher decrypts what it encrypted under the same 32-byte key and
    16-byte IV, and [JSON.parse] inverts [JSON.stringify]: for every
    choice, round id, clock value and random key, IV and vote id drawn
    by [encryptVote], [decryptVote] applied to the returned ciphertext,
    key and IV returns exactly the record [{choice, anonymousVoteId,
    timestamp, roundId}] that was encrypted.  [decryptVote] itself
    never throws: whenever a step of its [try] block fails (a key that
    is not 32 bytes, an IV that is not 16 bytes, a failing [final], a
    text that does not parse) it returns [null], and in no other case. *)
Theorem encrypt_decrypt_roundtrip `{Runtime} :
  cipher_contract → JSON_contract →
  (∀ e now choice roundId,
      let ev := encryptVote e now choice roundId in
      decryptVote (encryptedData ev) (key ev) (iv ev)
      = Some (mkVoteRecord choice (anonymousVoteId ev) now roundId))
  ∧ (∀ encryptedData keyHex ivHex,
      (length (Buffer_from_hex keyHex) ≠ 32%nat
       ∨ length (Buffer_from_hex ivHex) ≠ 16%nat
       ∨ aes_256_cbc_decrypt (Buffer_from_hex keyHex) (Buffer_from_hex ivHex)
           (Buffer_from_hex encryptedData) = None
       ∨ (∃ text,
            aes_256_cbc_decrypt (Buffer_from_hex keyHex) (Buffer_from_hex ivHex)
              (Buffer_from_hex encryptedData) = Some text
            ∧ JSON_parse (String.string_of_list_byte text) = None))
      ↔ decryptVote encryptedData keyHex ivHex = None).
Proof.
  intros Hcipher Hjson. split.
  - intros e now choice roundId. by apply decryptVote_encryptVote.
  - apply decryptVote_failure.
Qed.

Lemma encrypt_decrypt_roundtrip_witness :
  let ev := encryptVote (H := Reference.runtime) Reference.entropy 2000 "Yes" "round_1000_alice" in
  cipher_contract (H := Reference.runtime)
  ∧ JSON_contract (H := Reference.runtime)
  ∧ decryptVote (H := Reference.runtime) (encryptedData ev) (key ev) (iv ev)
    = Some (mkVoteRecord "Yes" "202122232425262728292a2b2c2d2e2f" 2000 "round_1000_alice").
Proof.
  intros ev.
  split; [exact ReferenceCryptoFacts.cipher_contract_holds|].
  split; [exact ReferenceCryptoFacts.JSON_contract_holds|].
  exact (proj1 (encrypt_decrypt_roundtrip (H := Reference.runtime)
                  ReferenceCryptoFacts.cipher_contract_holds
                  ReferenceCryptoFacts.JSON_contract_holds)
           Reference.entropy 2000 "Yes" "round_1000_alice").
Defined.

(** ** Steps that cast no vote and start no round *)

Lemma round_key_Some s r :
  currentRound s = Some r → round_key s = Some (Round.id r, Round.phase r).
Proof. unfold round_key. by intros ->. Qed.

Lemma round_key_inv s s' r' :
  round_key s' = round_key s → currentRound s' = Some r' →
  ∃ r, currentRound s = Some r ∧ Round.id r = Round.id r' ∧ Round.phase r = Round.phase r'.
Proof.
  unfold round_key. intros Hk Hr'. rewrite Hr' in Hk. simpl in Hk.
  destruct (currentRound s) as [r|]; [|done]. injection Hk as Hid Hph. by exists r.
Qed.

Lemma calm_refl s : calm s s.
Proof. unfold calm. naive_solver. Qed.

Lemma calm_trans s1 s2 s3 : calm s1 s2 → calm s2 s3 → calm s1 s3.
Proof.
  intros (Hn & Hh & He & Hw & Ht & Hk & Hf) (Hn' & Hh' & He' & Hw' & Ht' & Hk' & Hf').
  unfold calm. split_and!.
  - congruence.
  - congruence.
  - intros rid. by rewrite He'.
  - auto.
  - auto.
  - auto.
  - intros rid Hfin. destruct (Hf rid Hfin) as [Hfin2 Hst].
    destruct (Hf' rid Hfin2) as [Hfin3 Hst']. split; [done | congruence].
Qed.

(** A step that keeps the round's identity and phase, the three stores,
    the voting marks and the log of ballots is calm. *)
Lemma round_key_None s s' :
  round_key s' = round_key s → currentRound s' = None → currentRound s = None.
Proof.
  unfold round_key. intros Hk Hn. rewrite Hn in Hk. by destruct (currentRound s).
Qed.

(** No key broadcast is armed by a step whose new timers carry other
    callbacks. *)
Lemma timers_ok_subset s s' :
  (currentRound s' = None → currentRound s = None) →
  (∀ t, t ∈ timers s' → is_broadcastKeys (callback t) = true → t ∈ timers s) →
  timers_ok s → timers_ok s'.
Proof.
  intros Hk Hsub Hok Hnone t Ht.
  destruct (is_broadcastKeys (callback t)) eqn:E; [|done].
  rewrite <- E. apply Hok; [by apply Hk | by apply Hsub].
Qed.

Lemma calm_frame s s' :
  nodeId s' = nodeId s → hasVotedInRound s' = hasVotedInRound s →
  round_key s' = round_key s →
  votes s' = votes s → encryptedVotes s' = encryptedVotes s → voteKeys s' = voteKeys s →
  (∀ rid, vote_broadcasts rid s' = vote_broadcasts rid s) →
  (timers_ok s → timers_ok s') →
  calm s s'.
Proof.
  intros Hn Hh Hk Hv He Hvk Hb Ht. unfold calm. split_and!; try done.
  - intros Hw r' Hr'. destruct (round_key_inv _ _ _ Hk Hr') as (r & Hr & Hid & _).
    rewrite Hv, <- Hid. by apply Hw.
  - intros Hown r' Hr' Hph. destruct (round_key_inv _ _ _ Hk Hr') as (r & Hr & Hid & Hph').
    destruct (Hown r Hr) as (l & Hl & Hall & Hnone); [congruence|].
    exists l. unfold hasVoted in *. rewrite Hvk, Hn, Hh, <- Hid. done.
  - intros rid Hfin. split.
    + intros r' Hr' Hid'. destruct (round_key_inv _ _ _ Hk Hr') as (r & Hr & Hid & Hph').
      rewrite <- Hph'. apply Hfin; [done | congruence].
    + unfold stores_at. by rewrite Hv, He, Hvk.
Qed.

(** A write to the stores of the current round, while it is live. *)
Lemma calm_store_update s s' r :
  currentRound s = Some r → Round.phase r ≠ FINISHED →
  nodeId s' = nodeId s → hasVotedInRound s' = hasVotedInRound s →
  currentRound s' = currentRound s → effects s' = effects s → timers s' = timers s →
  (∀ rid, rid ≠ Round.id r → stores_at rid s' = stores_at rid s) →
  (is_Some (votes s !! Round.id r) → is_Some (votes s' !! Round.id r)) →
  (Round.phase r = VOTING → voteKeys s' !! Round.id r = voteKeys s !! Round.id r) →
  calm s s'.
Proof.
  intros Hr Hlive Hn Hh Hc He Hti Hst Hv Hvk. unfold calm. split_and!; try done.
  - intros rid. unfold vote_broadcasts. by rewrite He.
  - intros Hw r' Hr'. rewrite Hc in Hr'. assert (r' = r) as -> by congruence.
    apply Hv. by apply Hw.
  - apply timers_ok_subset; [congruence | intros t; by rewrite Hti].
  - intros Hown r' Hr' Hph. rewrite Hc in Hr'. assert (r' = r) as -> by congruence.
    destruct (Hown r Hr Hph) as (l & Hl & Hall & Hnone).
    exists l. unfold hasVoted in *. rewrite (Hvk Hph), Hn, Hh. done.
  - intros rid Hfin. split.
    + intros r' Hr' Hid'. rewrite Hc in Hr'. by apply Hfin.
    + apply Hst. intros ->. by destruct Hlive; apply Hfin.
Qed.

(** A change to the round object that keeps its id, and its phase or
    moves it forward. *)
Lemma calm_update_round f s :
  (∀ r, Round.id (f r) = Round.id r) →
  (∀ r, currentRound s = Some r →
        Round.phase (f r) = Round.phase r
        ∨ (Round.phase r = VOTING ∧ Round.phase (f r) = CONSENSUS)
        ∨ Round.phase (f r) = FINISHED) →
  calm s (update_round f s).
Proof.
  intros Hid Hph. unfold calm, update_round. split_and!; try done.
  - intros Hw r' Hr'. simpl in Hr'. destruct (currentRound s) as [r|] eqn:Hr; [|done].
    injection Hr' as <-. simpl. rewrite Hid. by apply Hw.
  - apply timers_ok_subset; [|done]. simpl. by destruct (currentRound s).
  - intros Hown r' Hr' Hv. simpl in Hr'. destruct (currentRound s) as [r|] eqn:Hr; [|done].
    injection Hr' as <-. simpl. unfold hasVoted. simpl. rewrite Hid.
    destruct (Hph r eq_refl) as [Heq|[[_ Hc]|Hfin]]; [|congruence..].
    apply Hown; [done | congruence].
  - intros rid Hfin. split; [|done].
    intros r' Hr' Hrid. simpl in Hr'. destruct (currentRound s) as [r|] eqn:Hr; [|done].
    injection Hr' as <-. rewrite Hid in Hrid.
    destruct (Hph r eq_refl) as [Heq|[[Hv _]|Hf]]; [| |done].
    + rewrite Heq. by apply Hfin.
    + specialize (Hfin r Hr Hrid). congruence.
Qed.

Lemma still_refl s : still s s.
Proof. split; [apply calm_refl | done]. Qed.

Lemma still_trans s1 s2 s3 : still s1 s2 → still s2 s3 → still s1 s3.
Proof.
  intros (H1 & E1 & R1) (H2 & E2 & R2).
  split; [by eapply calm_trans | split; congruence].
Qed.

Lemma still_calm s s' : still s s' → calm s s'.
Proof. by intros [? _]. Qed.

Lemma vote_broadcasts_emit rid e s :
  vote_broadcasts rid (emit e s)
  = (vote_broadcasts rid s + (if is_vote_broadcast rid e then 1 else 0))%nat.
Proof.
  unfold vote_broadcasts, emit. simpl. rewrite filter_app, length_app. f_equal.
  rewrite filter_cons, filter_nil. by destruct (is_vote_broadcast rid e).
Qed.

(** Closes [still] and [calm] goals for steps that touch neither the
    round nor its stores: every compared field is the same term. *)
Ltac by_frame :=
  lazymatch goal with
  | |- still _ _ => split; [|split; reflexivity]
  | |- calm _ _ => idtac
  end;
  apply calm_frame;
    [reflexivity .. | intros ?; try reflexivity
    | apply timers_ok_subset; [intros Hnone; exact Hnone | try (intros t Ht _; exact Ht)]].

Section Primitives.
  Context `{Runtime}.

Lemma still_setTimeout cb d now s :
    is_broadcastKeys cb = false → still s (setTimeout cb d now s).2.
  Proof.
    intros Hcb. by_frame. simpl. intros t Ht Hk.
    apply elem_of_app in Ht as [Ht|Ht]; [done|].
    apply list_elem_of_singleton in Ht. subst t. simpl in Hk. congruence.
  Qed.

Lemma still_clearTimeout_if_set h s : still s (clearTimeout_if_set h s).
  Proof.
    destruct h; by_frame. simpl. intros t Ht _.
    by apply list_elem_of_filter in Ht as [_ Ht].
  Qed.

Lemma still_emit e s : (∀ rid, is_vote_broadcast rid e = false) → still s (emit e s).
  Proof. intros He. by_frame. rewrite vote_broadcasts_emit, He. lia. Qed.

Lemma still_broadcast m s : (∀ ev, m ≠ ENCRYPTED_VOTE ev) → still s (broadcast m s).
  Proof.
    intros Hm. apply still_emit. intros rid. simpl.
    destruct m; try done. by destruct (Hm m).
  Qed.

Lemma still_notifyGUIClients e s : still s (notifyGUIClients e s).
  Proof. by apply still_emit. Qed.

Lemma still_set_resultProposed b s : still s (set_resultProposed b s).
  Proof. by_frame. Qed.

Lemma still_set_keysSharingComplete b s : still s (set_keysSharingComplete b s).
  Proof. by_frame. Qed.

Lemma still_set_myVoteTracking x s : still s (set_myVoteTracking x s).
  Proof. by_frame. Qed.

Lemma still_set_results x s : still s (set_results x s).
  Proof. by_frame. Qed.

Lemma still_update_round f s :
    (∀ r, Round.id (f r) = Round.id r) →
    (∀ r, currentRound s = Some r →
          Round.phase (f r) = Round.phase r
          ∨ (Round.phase r = VOTING ∧ Round.phase (f r) = CONSENSUS)
          ∨ Round.phase (f r) = FINISHED) →
    still s (update_round f s).
  Proof. intros. split; [by apply calm_update_round | done]. Qed.

Lemma still_store_update s s' r :
    currentRound s = Some r → Round.phase r ≠ FINISHED →
    nodeId s' = nodeId s → hasVotedInRound s' = hasVotedInRound s →
    currentRound s' = currentRound s → effects s' = effects s → timers s' = timers s →
    activePeers s' = activePeers s → nodeRegistry s' = nodeRegistry s →
    (∀ rid, rid ≠ Round.id r → stores_at rid s' = stores_at rid s) →
    (is_Some (votes s !! Round.id r) → is_Some (votes s' !! Round.id r)) →
    (Round.phase r = VOTING → voteKeys s' !! Round.id r = voteKeys s !! Round.id r) →
    still s s'.
  Proof. intros. split; [by eapply calm_store_update | done]. Qed.
End Primitives.

(** Lookups in the outer maps after the two update idioms. *)
Lemma lookup_ensure_round_map {V} rid rid' (m : gmap string (list (string * V))) :
  ensure_round_map rid m !! rid'
  = if decide (rid = rid') then Some (default [] (m !! rid)) else m !! rid'.
Proof.
  unfold ensure_round_map. destruct (m !! rid) as [x|] eqn:E.
  - destruct (decide (rid = rid')) as [<-|]; [by rewrite E | done].
  - destruct (decide (rid = rid')) as [<-|].
    + by rewrite lookup_insert_eq.
    + by rewrite lookup_insert_ne.
Qed.

Lemma lookup_round_map_set {V} rid k (v : V) rid' (m : gmap string (list (string * V))) :
  round_map_set rid k v m !! rid'
  = if decide (rid = rid') then JsMap.set k v <$> m !! rid else m !! rid'.
Proof.
  unfold round_map_set. destruct (m !! rid) as [x|] eqn:E.
  - destruct (decide (rid = rid')) as [<-|].
    + by rewrite lookup_insert_eq.
    + by rewrite lookup_insert_ne.
  - destruct (decide (rid = rid')) as [<-|]; [by rewrite E | done].
Qed.

Section VotingHandlers.
  Context `{Runtime}.

Lemma handleEncryptedVote_still message s : still s (handleEncryptedVote message s).
  Proof.
    unfold handleEncryptedVote. destruct (currentRound s) as [r|] eqn:Hr; [|apply still_refl].
    case_bool_decide as Hid; [apply still_refl|].
    case_bool_decide as Hph; [apply still_refl|].
    assert (Round.phase r = VOTING) as Hv by (by destruct (Round.phase r)).
    apply still_store_update with r; try done.
    - congruence.
    - intros rid Hne. unfold stores_at. simpl.
      rewrite lookup_round_map_set.
      destruct (decide (Round.id r = rid)); [congruence|].
      rewrite lookup_ensure_round_map.
      by destruct (decide (Round.id r = rid)).
  Qed.

Lemma shareAllKeys_still e now s : still s (shareAllKeys e now s).
  Proof.
    unfold shareAllKeys. destruct (currentRound s) as [r|] eqn:Hr; [|apply still_refl].
    split; [|done]. apply calm_frame; try done.
    intros _ Hnone. simpl in Hnone. congruence.
  Qed.

Lemma enterConsensusPhase_still e now s : still s (enterConsensusPhase e now s).
  Proof.
    unfold enterConsensusPhase. destruct (currentRound s) as [r|] eqn:Hr; [|apply still_refl].
    case_bool_decide as Hph; [apply still_refl|].
    assert (Round.phase r = VOTING) as Hv by (by destruct (Round.phase r)).
    eapply still_trans; [|apply still_notifyGUIClients].
    eapply still_trans; [|by apply still_setTimeout].
    eapply still_trans; [|apply shareAllKeys_still].
    eapply still_trans; [|apply still_set_keysSharingComplete].
    eapply still_trans; [|apply still_set_resultProposed].
    apply still_update_round; [done|]. intros r' Hr'. right. left.
    split; [congruence | done].
  Qed.

Lemma broadcastKeys_still allKeys s s' : broadcastKeys allKeys s = Some s' → still s s'.
  Proof.
    unfold broadcastKeys. destruct (currentRound s); [|done]. simpl. intros [= <-].
    by apply still_broadcast.
  Qed.

Lemma decryptAndProcessVotes_still s :
    (∀ r, currentRound s = Some r → Round.phase r ≠ FINISHED) →
    still s (decryptAndProcessVotes s).
  Proof.
    intros Hlive. unfold decryptAndProcessVotes.
    destruct (currentRound s) as [r|] eqn:Hr; [|apply still_refl].
    destruct (encryptedVotes s !! Round.id r); [|apply still_refl].
    destruct (voteKeys s !! Round.id r); [|apply still_refl].
    apply still_store_update with r; try done.
    - by apply Hlive.
    - intros rid Hne. unfold stores_at. simpl.
      rewrite lookup_insert_ne by congruence. rewrite lookup_ensure_round_map.
      by rewrite decide_False by congruence.
    - intros _. simpl. by rewrite lookup_insert_eq.
  Qed.

Lemma decryptAndProcessVotes_currentRound s :
    currentRound (decryptAndProcessVotes s) = currentRound s.
  Proof.
    unfold decryptAndProcessVotes. destruct (currentRound s) as [r|] eqn:Hr; [|done].
    destruct (encryptedVotes s !! Round.id r); [|done].
    by destruct (voteKeys s !! Round.id r).
  Qed.

Lemma checkForConsensus_still now s : still s (checkForConsensus now s).
  Proof.
    unfold checkForConsensus. destruct (currentRound s) as [r|] eqn:Hr; [|apply still_refl].
    destruct (_ || _); [apply still_refl|].
    case_bool_decide; [|apply still_refl].
    eapply still_trans; [|by apply still_setTimeout].
    eapply still_trans; [|apply still_clearTimeout_if_set].
    apply still_update_round; [done|]. intros. by left.
  Qed.

Lemma proposeResults_still now s s' : proposeResults now s = Some s' → still s s'.
  Proof.
    unfold proposeResults. destruct (currentRound s) as [r|] eqn:Hr;
      [|intros [= <-]; apply still_refl].
    destruct (bool_decide (Round.phase r ≠ CONSENSUS)) eqn:Hph; simpl;
      [intros [= <-]; apply still_refl|].
    destruct (resultProposed s); [intros [= <-]; apply still_refl|].
    apply bool_decide_eq_false, dec_stable in Hph. rename Hph into Hc.
    destruct (calculateResults _) as [res|]; [|done]. simpl.
    destruct (votes _ !! _) as [roundVotes|]; [|done]. simpl. intros [= <-].
    eapply still_trans; [|apply checkForConsensus_still].
    eapply still_trans; [|apply still_update_round; [done | intros; by left]].
    eapply still_trans; [|apply still_broadcast; intros ev; discriminate].
    eapply still_trans; [apply still_set_resultProposed|].
    apply decryptAndProcessVotes_still. simpl. intros r' Hr'. congruence.
  Qed.

Lemma checkIfReadyToPropose_still now s s' :
    checkIfReadyToPropose now s = Some s' → still s s'.
  Proof.
    unfold checkIfReadyToPropose. destruct (currentRound s) as [r|] eqn:Hr;
      [|intros [= <-]; apply still_refl].
    destruct (_ || _); [intros [= <-]; apply still_refl|].
    destruct (encryptedVotes s !! Round.id r);
      [|intros [= <-]; by apply still_setTimeout].
    destruct (voteKeys s !! Round.id r);
      [|intros [= <-]; by apply still_setTimeout].
    destruct (_ && _); [|intros [= <-]; by apply still_setTimeout].
    destruct (keysSharingComplete s); cbn [negb].
    - apply proposeResults_still.
    - intros <-%(inj Some).
      eapply still_trans; [apply (still_set_keysSharingComplete true)|].
      by apply still_setTimeout.
  Qed.

Lemma after_new_keys_still now s s' :
    (∀ r, currentRound s = Some r → Round.phase r ≠ FINISHED) →
    after_new_keys now s = Some s' → still s s'.
  Proof.
    intros Hlive. unfold after_new_keys.
    pose proof (decryptAndProcessVotes_still s Hlive) as Hd.
    destruct (resultProposed _); cbn [negb].
    - by intros [= <-].
    - intros Hc. eapply still_trans; [exact Hd|]. by eapply checkIfReadyToPropose_still.
  Qed.

Lemma handleBatchVoteKeys_still now roundId keys from s s' :
    handleBatchVoteKeys now roundId keys from s = Some s' → still s s'.
  Proof.
    unfold handleBatchVoteKeys. destruct (currentRound s) as [r|] eqn:Hr;
      [|intros [= <-]; apply still_refl].
    case_bool_decide as Hid; [intros [= <-]; apply still_refl|].
    case_bool_decide as Hph; [intros [= <-]; apply still_refl|].
    cbv zeta.
    set (s1 := set_voteKeys _ (set_voteKeys _ s)).
    assert (still s s1) as Hs1.
    { apply still_store_update with r; try done.
      - congruence.
      - intros rid Hne. unfold stores_at, s1. simpl.
        rewrite lookup_insert_ne by congruence. rewrite lookup_ensure_round_map.
        by destruct (decide (Round.id r = rid)).
      - congruence. }
    case_bool_decide; [|by intros [= <-]].
    intros Ha. eapply still_trans; [exact Hs1|].
    eapply after_new_keys_still; [|exact Ha].
    unfold s1. simpl. intros r' Hr'. congruence.
  Qed.

Lemma handleVoteKey_still now roundId anonymousVoteId key from s s' :
    handleVoteKey now roundId anonymousVoteId key from s = Some s' → still s s'.
  Proof.
    unfold handleVoteKey. destruct (currentRound s) as [r|] eqn:Hr;
      [|intros [= <-]; apply still_refl].
    case_bool_decide as Hid; [intros [= <-]; apply still_refl|].
    case_bool_decide as Hph; [intros [= <-]; apply still_refl|].
    cbv zeta.
    set (s0 := set_voteKeys (ensure_round_map _ _) s).
    assert (still s s0) as Hs0.
    { apply still_store_update with r; try done.
      - congruence.
      - intros rid Hne. unfold stores_at, s0. simpl. rewrite lookup_ensure_round_map.
        by destruct (decide (Round.id r = rid)).
      - congruence. }
    destruct (JsMap.has _ _); cbn [negb]; [by intros [= <-]|].
    set (s1 := set_voteKeys _ s0).
    assert (still s0 s1) as Hs1.
    { apply still_store_update with r; try done.
      - congruence.
      - intros rid Hne. unfold stores_at, s1. simpl. rewrite lookup_round_map_set.
        by destruct (decide (Round.id r = rid)).
      - congruence. }
    intros Ha. eapply still_trans; [exact Hs0|]. eapply still_trans; [exact Hs1|].
    eapply after_new_keys_still; [|exact Ha].
    unfold s1, s0. simpl. intros r' Hr'. congruence.
  Qed.

Lemma handleResultProposal_still now roundId results from s s' :
    handleResultProposal now roundId results from s = Some s' → still s s'.
  Proof.
    unfold handleResultProposal. destruct (currentRound s) as [r|] eqn:Hr;
      [|intros [= <-]; apply still_refl].
    case_bool_decide as Hid; [intros [= <-]; apply still_refl|].
    destruct (calculateResults s) as [myResults|]; [|done]. simpl.
    destruct (compareResults _ _); [|intros [= <-]; apply still_refl].
    intros [= <-].
    eapply still_trans; [|apply checkForConsensus_still].
    eapply still_trans;
      [|apply still_update_round; intros; [by case_bool_decide | left; by case_bool_decide]].
    apply still_update_round; [done | intros; by left].
  Qed.

Lemma verifyMyVote_still roundId roundVotes s : still s (verifyMyVote roundId roundVotes s).
  Proof.
    unfold verifyMyVote. destruct (myVoteTracking s !! roundId); [|apply still_refl].
    destruct (JsMap.get _ _); [|apply still_refl].
    case_bool_decide; [by_frame | apply still_refl].
  Qed.

Lemma finishRound_still s s' : finishRound s = Some s' → still s s'.
  Proof.
    unfold finishRound. destruct (currentRound s) as [r|] eqn:Hr;
      [|intros [= <-]; apply still_refl].
    case_bool_decide as Hph; [intros [= <-]; apply still_refl|].
    destruct (calculateResults _) as [finalResults|]; [|done]. simpl.
    destruct (votes _ !! _) as [roundVotes|]; [|done]. simpl. intros [= <-].
    eapply still_trans; [|apply still_notifyGUIClients].
    eapply still_trans; [|apply still_notifyGUIClients].
    eapply still_trans; [|apply still_set_results].
    eapply still_trans; [|apply verifyMyVote_still].
    eapply still_trans; [|apply still_update_round; [done | intros; by left]].
    eapply still_trans; [|apply still_update_round; [done | intros; by right; right]].
    eapply still_trans; [apply still_clearTimeout_if_set|].
    apply still_clearTimeout_if_set.
  Qed.
End VotingHandlers.

Section MeshHandlers.
  Context `{Runtime}.

Lemma still_set_peers x s : still s (set_peers x s).
  Proof. by_frame. Qed.

Lemma still_set_knownPeers x s : still s (set_knownPeers x s).
  Proof. by_frame. Qed.

Lemma still_set_peerAddresses x s : still s (set_peerAddresses x s).
  Proof. by_frame. Qed.

Lemma still_set_guiClients x s : still s (set_guiClients x s).
  Proof. by_frame. Qed.

Lemma calm_set_nodeRegistry x s : calm s (set_nodeRegistry x s).
  Proof. by_frame. Qed.

Lemma still_set_duplicateNodeDetected x s : still s (set_duplicateNodeDetected x s).
  Proof. by_frame. Qed.

Lemma calm_set_activePeers x s : calm s (set_activePeers x s).
  Proof. by_frame. Qed.

Lemma sendPeerList_still ws s : still s (sendPeerList ws s).
  Proof. by apply still_emit. Qed.

Lemma processPeerExchange_loop_still now receivedPeers attempts s :
    still s (processPeerExchange_loop now receivedPeers attempts s).
  Proof.
    revert attempts s. induction receivedPeers as [|peerInfo rest IH]; intros attempts s;
      [apply still_refl|].
    cbn [processPeerExchange_loop]. cbv zeta.
    case_bool_decide; [apply IH|].
    destruct (match pi_nodeId peerInfo with Some _ => _ | None => _ end); [apply IH|].
    destruct (pi_host peerInfo) as [host|]; [|apply IH].
    destruct (pi_port peerInfo) as [peerPort|]; [|apply IH].
    destruct (_ || _); [apply IH|].
    case_bool_decide; [apply IH|].
    destruct (_ && _); [apply IH|].
    assert (still s (setTimeout (cb_connectToPeer host peerPort)
                       (inject_Z (attempts * 2000)) now
                       (set_knownPeers (knownPeers s ++ [(host, peerPort)]) s)).2) as Hs.
    { eapply still_trans; [apply still_set_knownPeers | by apply still_setTimeout]. }
    case_bool_decide; [exact Hs|].
    eapply still_trans; [exact Hs | apply IH].
  Qed.

Lemma processPeerExchange_still now receivedPeers s :
    still s (processPeerExchange now receivedPeers s).
  Proof. apply processPeerExchange_loop_still. Qed.

Lemma store_peer_address_still from remoteAddress peerPort s :
    still s (store_peer_address from remoteAddress peerPort s).
  Proof.
    unfold store_peer_address. destruct peerPort; [|apply still_refl].
    destruct (truthy_Z _); [apply still_set_peerAddresses | apply still_refl].
  Qed.
End MeshHandlers.

(** ** Casting a vote and starting a round *)

Lemma calm_steady s s' : calm s s' → steady s s'.
Proof.
  intros (Hn & Hh & He & Hw & Ht & Hk & Hf). unfold steady. split_and!; try done.
  - intros rid. unfold ballot_budget, hasVoted. by rewrite He, Hh.
  - intros rid. unfold hasVoted. by rewrite Hh.
Qed.

Section CastVote.
  Context `{Runtime}.

Lemma castVote_rejected e now choice s :
    castVote_rejects choice s → castVote e now choice s = s.
  Proof.
    unfold castVote_rejects, castVote. destruct (currentRound s) as [r|]; [|done].
    intros [Hph|[Hv|(allowed & Ha & Hnot)]].
    - by rewrite bool_decide_eq_true_2.
    - case_bool_decide; [done|]. by rewrite Hv.
    - case_bool_decide; [done|]. destruct (default false _); [done|].
      unfold choice_refused. rewrite Ha. by rewrite bool_decide_eq_true_2.
  Qed.

Lemma castVote_accepted e now choice s :
    ¬ castVote_rejects choice s →
    ∃ r, currentRound s = Some r ∧ Round.phase r = VOTING
         ∧ hasVoted (Round.id r) s = false
         ∧ castVote e now choice s = cast_ballot e now choice r s.
  Proof.
    unfold castVote_rejects, castVote, hasVoted.
    destruct (currentRound s) as [r|]; [|by intros []].
    intros Hrej. exists r.
    case_bool_decide as Hph; [destruct Hrej; by left|].
    destruct (default false _) eqn:Hv; [destruct Hrej; right; by left|].
    destruct (choice_refused _ _) eqn:Hc.
    - destruct Hrej. right. right. unfold choice_refused in Hc.
      destruct (Round.allowedChoices r) as [allowed|]; [|done].
      exists allowed. split; [done|]. by apply bool_decide_eq_true in Hc.
    - by split_and!.
  Qed.

Lemma cast_ballot_steady e now choice r s :
    currentRound s = Some r → Round.phase r = VOTING → hasVoted (Round.id r) s = false →
    steady s (cast_ballot e now choice r s).
  Proof.
    intros Hr Hph Hv. unfold steady. split_and!.
    - done.
    - intros Hw r' Hr'. simpl in *. by apply Hw.
    - intros Hok Hnone. simpl in Hnone. congruence.
    - intros Hown r' Hr' _. simpl in Hr'. assert (r' = r) as -> by congruence.
      destruct (Hown r Hr Hph) as (l & Hl & _ & Hnil). rewrite (Hnil Hv) in Hl.
      eexists. split; [|split].
      + unfold cast_ballot. simpl. rewrite lookup_round_map_set, decide_True by done.
        rewrite lookup_ensure_round_map, decide_True by done. rewrite Hl. reflexivity.
      + by repeat constructor.
      + unfold hasVoted, cast_ballot. simpl. by rewrite lookup_insert_eq.
    - intros rid Hfin. split; [intros r' Hr' Hid; by apply Hfin|].
      assert (rid ≠ Round.id r) as Hne by (intros ->; specialize (Hfin r Hr eq_refl); congruence).
      unfold stores_at, cast_ballot. simpl.
      rewrite !lookup_round_map_set. destruct (decide (Round.id r = rid)); [congruence|].
      rewrite !lookup_ensure_round_map. by destruct (decide (Round.id r = rid)).
    - intros rid. unfold ballot_budget, hasVoted, cast_ballot.
      unfold vote_broadcasts. simpl. rewrite filter_app, length_app, filter_cons, filter_nil.
      simpl. destruct (decide (Round.id r = rid)) as [<-|Hne].
      + rewrite lookup_insert_eq. unfold hasVoted in Hv. rewrite Hv. simpl.
        rewrite bool_decide_eq_true_2 by done. rewrite decide_True by done. simpl. lia.
      + rewrite lookup_insert_ne by done. rewrite bool_decide_eq_false_2 by done.
        rewrite decide_False by done. simpl. lia.
    - intros rid. unfold hasVoted, cast_ballot. simpl.
      destruct (decide (Round.id r = rid)) as [<-|Hne].
      + by rewrite lookup_insert_eq.
      + by rewrite lookup_insert_ne.
  Qed.

Lemma castVote_steady e now choice s : steady s (castVote e now choice s).
  Proof.
    unfold castVote. destruct (currentRound s) as [r|] eqn:Hr;
      [|apply calm_steady, calm_refl].
    case_bool_decide as Hph; [apply calm_steady, calm_refl|].
    destruct (default false _) eqn:Hv; [apply calm_steady, calm_refl|].
    destruct (choice_refused _ _); [apply calm_steady, calm_refl|].
    by apply cast_ballot_steady.
  Qed.
End CastVote.

Section RoundStart.
  Context `{Runtime}.

Lemma fresh_round_intro newId r s s' :
    nodeId s' = nodeId s → activePeers s' = activePeers s →
    currentRound s' = Some r → Round.id r = newId → Round.phase r = VOTING →
    votes s' = <[newId := []]> (votes s) →
    encryptedVotes s' = <[newId := []]> (encryptedVotes s) →
    voteKeys s' = <[newId := []]> (voteKeys s) →
    hasVotedInRound s' = <[newId := false]> (hasVotedInRound s) →
    (∀ rid, vote_broadcasts rid s' = vote_broadcasts rid s) →
    (∀ t, t ∈ timers s' → is_broadcastKeys (callback t) = true → t ∈ timers s) →
    fresh_round newId s s'.
  Proof.
    intros Hn Ha Hr Hid Hph Hv He Hk Hh Hb Ht. unfold fresh_round.
    split_and!; try done.
    - by exists r.
    - unfold stores_at. by rewrite Hv, He, Hk, !lookup_insert_eq.
    - unfold hasVoted. by rewrite Hh, lookup_insert_eq.
    - intros rid Hne. unfold stores_at, hasVoted.
      by rewrite Hv, He, Hk, Hh, !lookup_insert_ne.
  Qed.

  (** Timers armed at a round start carry no key broadcast. *)
Lemma arm_round_timers_keys now cd fd s t :
    t ∈ timers (arm_round_timers now cd fd s) → is_broadcastKeys (callback t) = true →
    t ∈ timers s.
  Proof.
    unfold arm_round_timers. simpl. intros Ht Hk.
    apply elem_of_app in Ht as [Ht|Ht].
    - apply elem_of_app in Ht as [Ht|Ht]; [done|].
      apply list_elem_of_singleton in Ht. subst t. done.
    - apply list_elem_of_singleton in Ht. subst t. done.
  Qed.

Lemma install_arm_fresh now cd fd round msgs s :
    Round.phase round = VOTING →
    (∀ rid, filter (λ e, is_vote_broadcast rid e = true) msgs = []) →
    let s1 := install_round round s in
    fresh_round (Round.id round) s
      (arm_round_timers now cd fd (set_effects (effects s1 ++ msgs) s1)).
  Proof.
    intros Hph Hm s1.
    eapply fresh_round_intro with
      (r := Round.with_timeouts (Some (nextTimer s)) (Some (S (nextTimer s))) round);
      try reflexivity.
    - done.
    - intros rid. unfold arm_round_timers, vote_broadcasts. simpl.
      rewrite filter_app, length_app, Hm. simpl. lia.
    - intros t Ht Hk. by apply arm_round_timers_keys in Ht.
  Qed.

Lemma startVotingRound_cases now topic allowedChoices votingTimeSeconds s :
    let s' := startVotingRound now topic allowedChoices votingTimeSeconds s in
    s' = s ∨ fresh_round ("round_" +:+ pretty now +:+ "_" +:+ nodeId s) s s'.
  Proof.
    unfold startVotingRound. cbv zeta.
    destruct (match currentRound s with Some _ => _ | None => _ end); [by left|]. right.
    unfold broadcast, emit. cbv zeta.
    generalize ("round_" +:+ pretty now +:+ "_" +:+ nodeId s). intros roundId.
    match goal with
    | |- fresh_round _ _ (arm_round_timers _ ?cd ?fd (set_effects (_ ++ ?msgs) (install_round ?r _))) =>
        apply (install_arm_fresh now cd fd r msgs s)
    end; [done|].
    intros rid. done.
  Qed.

Lemma handleRoundStart_cases now message s :
    let s' := handleRoundStart now message s in
    s' = s ∨ fresh_round (rs_roundId message) s s'.
  Proof.
    unfold handleRoundStart. cbv zeta.
    destruct (match currentRound s with Some _ => _ | None => _ end); [|by left]. right.
    match goal with
    | |- fresh_round _ _ (arm_round_timers _ ?cd ?fd (install_round ?r _)) =>
        pose proof (install_arm_fresh now cd fd r [] s eq_refl (λ _, eq_refl)) as Hf
    end.
    cbv zeta in Hf. by rewrite app_nil_r in Hf; destruct s.
  Qed.

Lemma fresh_round_notify newId e s s' :
    fresh_round newId s s' → fresh_round newId s (notifyGUIClients e s').
  Proof.
    intros (Hn & Ha & Hr & Hst & Hv & Hother & Hb & Ht). unfold fresh_round.
    split_and!; try done.
    intros rid. rewrite <- Hb. unfold notifyGUIClients.
    rewrite vote_broadcasts_emit. simpl. lia.
  Qed.
End RoundStart.

(** ** No callback raises a [TypeError] *)

Section Totality.
  Context `{Runtime}.

Lemma calculateResults_Some s r :
    currentRound s = Some r → is_Some (votes s !! Round.id r) →
    ∃ roundVotes, votes s !! Round.id r = Some roundVotes
                  ∧ calculateResults s = Some (calculateResultsOf roundVotes).
  Proof.
    intros Hr [m Hm]. exists m. split; [done|]. unfold calculateResults.
    rewrite Hr. simpl. by rewrite Hm.
  Qed.

Lemma proposeResults_total now s : stores_installed s → is_Some (proposeResults now s).
  Proof.
    intros Hw. unfold proposeResults. destruct (currentRound s) as [r|] eqn:Hr; [|by eauto].
    destruct (bool_decide (Round.phase r ≠ CONSENSUS)) eqn:Hph; simpl; [by eauto|].
    destruct (resultProposed s); [by eauto|].
    apply bool_decide_eq_false, dec_stable in Hph.
    set (s1 := decryptAndProcessVotes (set_resultProposed true s)).
    assert (currentRound s1 = Some r) as Hr1
      by (unfold s1; by rewrite decryptAndProcessVotes_currentRound).
    assert (stores_installed s1) as Hw1.
    { assert (still s s1) as [Hc _].
      { eapply still_trans; [apply (still_set_resultProposed true)|].
        apply decryptAndProcessVotes_still. simpl. intros r' Hr'. congruence. }
      destruct Hc as (_ & _ & _ & Hc & _). by apply Hc. }
    destruct (calculateResults_Some s1 r Hr1 (Hw1 r Hr1)) as (m & Hm & Hc).
    rewrite Hc. simpl. rewrite Hm. simpl. by eauto.
  Qed.

Lemma checkIfReadyToPropose_total now s :
    stores_installed s → is_Some (checkIfReadyToPropose now s).
  Proof.
    intros Hw. unfold checkIfReadyToPropose. destruct (currentRound s) as [r|]; [|by eauto].
    destruct (_ || _); [by eauto|].
    destruct (encryptedVotes s !! Round.id r); [|by eauto].
    destruct (voteKeys s !! Round.id r); [|by eauto].
    destruct (_ && _); [|by eauto].
    destruct (negb _); [by eauto|]. by apply proposeResults_total.
  Qed.

Lemma after_new_keys_total now s :
    (∀ r, currentRound s = Some r → Round.phase r ≠ FINISHED) →
    stores_installed s → is_Some (after_new_keys now s).
  Proof.
    intros Hlive Hw. unfold after_new_keys. destruct (negb _); [|by eauto].
    apply checkIfReadyToPropose_total.
    destruct (decryptAndProcessVotes_still s Hlive) as [(_ & _ & _ & Hc & _) _]. by apply Hc.
  Qed.

Lemma handleBatchVoteKeys_total now roundId keys from s :
    stores_installed s → is_Some (handleBatchVoteKeys now roundId keys from s).
  Proof.
    intros Hw. unfold handleBatchVoteKeys. destruct (currentRound s) as [r|] eqn:Hr; [|by eauto].
    case_bool_decide; [by eauto|]. case_bool_decide as Hph; [by eauto|].
    cbv zeta. case_bool_decide; [|by eauto].
    apply after_new_keys_total.
    - simpl. intros r' Hr'. congruence.
    - intros r' Hr'. simpl in *. by apply Hw.
  Qed.

Lemma handleVoteKey_total now roundId anonymousVoteId key from s :
    stores_installed s → is_Some (handleVoteKey now roundId anonymousVoteId key from s).
  Proof.
    intros Hw. unfold handleVoteKey. destruct (currentRound s) as [r|] eqn:Hr; [|by eauto].
    case_bool_decide; [by eauto|]. case_bool_decide as Hph; [by eauto|].
    cbv zeta. destruct (negb _); [|by eauto].
    apply after_new_keys_total.
    - simpl. intros r' Hr'. congruence.
    - intros r' Hr'. simpl in *. by apply Hw.
  Qed.

Lemma handleResultProposal_total now roundId results from s :
    stores_installed s → is_Some (handleResultProposal now roundId results from s).
  Proof.
    intros Hw. unfold handleResultProposal.
    destruct (currentRound s) as [r|] eqn:Hr; [|by eauto].
    case_bool_decide; [by eauto|].
    destruct (calculateResults_Some s r Hr (Hw r Hr)) as (m & Hm & ->). simpl.
    destruct (compareResults _ _); by eauto.
  Qed.

Lemma finishRound_total s : stores_installed s → is_Some (finishRound s).
  Proof.
    intros Hw. unfold finishRound. destruct (currentRound s) as [r|] eqn:Hr; [|by eauto].
    case_bool_decide; [by eauto|].
    destruct (Hw r Hr) as [m Hm].
    set (s1 := update_round _ _).
    assert (calculateResults s1 = Some (calculateResultsOf m)) as ->.
    { unfold calculateResults, s1, update_round. simpl.
      destruct (Round.consensusTimeout r), (Round.finishTimeout r); simpl;
        rewrite Hr; simpl; by rewrite Hm. }
    simpl.
    assert (votes (clearTimeout_if_set (Round.finishTimeout r)
                     (clearTimeout_if_set (Round.consensusTimeout r) s))
              !! Round.id r = Some m) as ->.
    { by destruct (Round.consensusTimeout r), (Round.finishTimeout r). }
    simpl. by eauto.
  Qed.
End Totality.

(** ** Events *)

Section Events.
  Context `{Runtime}.

Lemma originalHandleMessage_cases now ws remoteAddress message s s' :
    originalHandleMessage now ws remoteAddress message s = Some s' →
    calm s s' ∨ ∃ m, message = ROUND_START m ∧ fresh_round (rs_roundId m) s s'.
  Proof.
    destruct message; cbn [originalHandleMessage]; cbv zeta.
    - intros <-%(inj Some). left.
      eapply calm_trans; [|apply still_calm, still_emit; by intros].
      eapply calm_trans; [|apply still_calm, still_emit; by intros].
      eapply calm_trans; [|apply still_calm, store_peer_address_still].
      eapply calm_trans; [|apply calm_set_activePeers].
      apply still_calm, still_set_peers.
    - intros <-%(inj Some). left.
      eapply calm_trans;
        [|case_bool_decide; [apply still_calm, processPeerExchange_still | apply calm_refl]].
      eapply calm_trans; [|apply still_calm, store_peer_address_still].
      eapply calm_trans; [|apply calm_set_activePeers].
      destruct (negb _); [apply still_calm, still_set_peers | apply calm_refl].
    - intros <-%(inj Some). left. apply still_calm, sendPeerList_still.
    - intros <-%(inj Some). left.
      case_bool_decide; [apply still_calm, processPeerExchange_still | apply calm_refl].
    - intros <-%(inj Some). left. apply calm_set_activePeers.
    - intros <-%(inj Some). left. apply calm_refl.
    - intros <-%(inj Some).
      destruct (handleRoundStart_cases now m s) as [Heq|Hfresh].
      + left. rewrite Heq. apply still_calm, still_notifyGUIClients.
      + right. exists m. split; [done|]. by apply fresh_round_notify.
    - intros <-%(inj Some). left.
      eapply calm_trans; [|apply still_calm, still_notifyGUIClients].
      apply still_calm, handleEncryptedVote_still.
    - intros Hs. left. by eapply still_calm, handleBatchVoteKeys_still.
    - intros Hs. left. by eapply still_calm, handleVoteKey_still.
    - intros Hs. left. by eapply still_calm, handleResultProposal_still.
    - intros <-%(inj Some). left. apply calm_refl.
  Qed.

Lemma originalHandleMessage_total now ws remoteAddress message s :
    stores_installed s → is_Some (originalHandleMessage now ws remoteAddress message s).
  Proof.
    intros Hw. destruct message; cbn [originalHandleMessage]; cbv zeta; try by eauto.
    - by apply handleBatchVoteKeys_total.
    - by apply handleVoteKey_total.
    - by apply handleResultProposal_total.
  Qed.

  (** The registry entry written by [handleMessage]. *)
Lemma registry_step_calm now ws message s :
    calm s
      match message_from message with
      | Some from =>
          if truthy_string from && bool_decide (from ≠ nodeId s)
          then set_nodeRegistry (<[from := (now, ws)]> (nodeRegistry s)) s
          else s
      | None => s
      end.
  Proof.
    destruct (message_from message); [|apply calm_refl].
    destruct (_ && _); [apply calm_set_nodeRegistry | apply calm_refl].
  Qed.

Lemma handleMessage_cases now ws remoteAddress message s s' :
    handleMessage now ws remoteAddress message s = Some s' →
    calm s s' ∨ ∃ m, message = ROUND_START m ∧ fresh_round (rs_roundId m) s s'.
  Proof.
    unfold handleMessage. destruct (_ && _).
    { intros <-%(inj Some). left.
      eapply calm_trans; apply still_calm, still_emit; by intros. }
    cbv zeta. pose proof (registry_step_calm now ws message s) as Hreg.
    set (s1 := match message_from message with Some _ => _ | None => _ end) in *.
    assert (nodeId s1 = nodeId s) as Hn by (by destruct Hreg).
    intros Hs.
    assert (calm s1 s' ∨ ∃ m, message = ROUND_START m ∧ fresh_round (rs_roundId m) s1 s')
      as [Hc|(m & -> & Hf)].
    { destruct message; try (by eapply originalHandleMessage_cases).
      apply (inj Some) in Hs. subst s'. left.
      eapply calm_trans; [apply still_calm, (still_set_duplicateNodeDetected true)|].
      by apply still_calm, still_setTimeout. }
    - left. by eapply calm_trans.
    - right. exists m. split; [done|]. simpl in s1.
      unfold s1 in *. by destruct (_ && _).
  Qed.

Lemma handleMessage_total now ws remoteAddress message s :
    stores_installed s → is_Some (handleMessage now ws remoteAddress message s).
  Proof.
    intros Hw. unfold handleMessage. destruct (_ && _); [by eauto|]. cbv zeta.
    pose proof (registry_step_calm now ws message s) as (_ & _ & _ & Hreg & _).
    destruct message; try (by eauto); by apply originalHandleMessage_total, Hreg.
  Qed.

Lemma incoming_close_calm ws s : calm s (incoming_close ws s).
  Proof.
    unfold incoming_close. destruct (find_socket ws (guiClients s));
      [apply still_calm, still_set_guiClients|].
    destruct (find_socket ws (peers s)); [|apply calm_refl].
    eapply calm_trans; [apply still_calm, still_set_peers | apply calm_set_activePeers].
  Qed.

Lemma outgoing_close_calm ws s : calm s (outgoing_close ws s).
  Proof.
    unfold outgoing_close. destruct (find_socket ws (peers s)); [|apply calm_refl].
    eapply calm_trans; [|apply calm_set_nodeRegistry].
    eapply calm_trans; [apply still_calm, still_set_peers | apply calm_set_activePeers].
  Qed.

Lemma handleGUIConnection_calm ws clientId s : calm s (handleGUIConnection ws clientId s).
  Proof.
    unfold handleGUIConnection. cbv zeta.
    set (s1 := emit _ (set_guiClients _ s)).
    assert (calm s s1) as Hs1.
    { eapply calm_trans; [apply still_calm, still_set_guiClients|].
      apply still_calm, still_emit. by intros. }
    destruct (currentRound s1); [|done].
    eapply calm_trans; [exact Hs1|]. apply still_calm, still_emit. by intros.
  Qed.

Lemma head_filter_elem_of (handle : nat) (ts : list Timer) t :
    head (filter (λ t, timer_id t = handle) ts) = Some t → t ∈ ts.
  Proof.
    intros Hh. assert (t ∈ filter (λ t, timer_id t = handle) ts) as Hin.
    { destruct (filter _ ts); [done|]. injection Hh as ->. by left. }
    by apply list_elem_of_filter in Hin as [_ ?].
  Qed.

Lemma run_callback_still e now cb s s' : run_callback e now cb s = Some s' → still s s'.
  Proof.
    destruct cb; simpl.
    - intros <-%(inj Some). apply enterConsensusPhase_still.
    - apply finishRound_still.
    - apply checkIfReadyToPropose_still.
    - apply broadcastKeys_still.
    - intros <-%(inj Some). apply still_emit. by intros.
    - intros <-%(inj Some). apply still_emit. by intros.
  Qed.

Lemma fire_still e now handle s s' : fire e now handle s = Some s' → still s s'.
  Proof.
    unfold fire. destruct (head _) as [t|]; [|intros <-%(inj Some); apply still_refl].
    destruct (due now t); [|intros <-%(inj Some); apply still_refl].
    intros Hs. eapply still_trans; [apply (still_clearTimeout_if_set (Some handle))|].
    by eapply run_callback_still.
  Qed.

Lemma fire_total e now handle s : well_formed s → is_Some (fire e now handle s).
  Proof.
    intros [Hw Hok]. unfold fire. destruct (head _) as [t|] eqn:Hh; [|by eauto].
    destruct (due now t); [|by eauto].
    assert (stores_installed (clearTimeout handle s)) as Hw' by done.
    destruct (callback t) eqn:Hcb; simpl; try by eauto.
    - by apply finishRound_total.
    - by apply checkIfReadyToPropose_total.
    - unfold broadcastKeys. simpl. destruct (currentRound s) eqn:Hr; [by eauto|].
      apply head_filter_elem_of in Hh. specialize (Hok Hr t Hh). by rewrite Hcb in Hok.
  Qed.

  (** Every event either starts the round it names, or is steady. *)
Lemma step_cases e now i s s' :
    step e now i s = Some s' →
    steady s s'
    ∨ ∃ newId, starts_round (nodeId s) newId (e, now, i) ∧ fresh_round newId s s'.
  Proof.
    destruct i as [[] ws ra m|[] ws|ws|host p|ws c| |handle|topic ac v|choice]; simpl.
    - intros [Hc|(rs & -> & Hf)]%handleMessage_cases;
        [left; by apply calm_steady | right; by exists (rs_roundId rs)].
    - unfold outgoing_message. destruct m;
        try (intros [Hc|(rs & Heq & Hf)]%handleMessage_cases;
             [left; by apply calm_steady | try done]).
      + intros <-%(inj Some). left. apply calm_steady, still_calm, still_emit. by intros.
      + right. injection Heq as <-. by eexists.
    - intros <-%(inj Some). left. apply calm_steady, incoming_close_calm.
    - intros <-%(inj Some). left. apply calm_steady, outgoing_close_calm.
    - intros <-%(inj Some). left. apply calm_steady, still_calm, still_emit. by intros.
    - intros <-%(inj Some). left. apply calm_steady, still_calm, still_set_knownPeers.
    - intros <-%(inj Some). left. apply calm_steady, handleGUIConnection_calm.
    - intros <-%(inj Some). left. apply calm_steady, still_calm, still_broadcast. by intros.
    - intros Hs. left. by eapply calm_steady, still_calm, fire_still.
    - intros <-%(inj Some).
      destruct (startVotingRound_cases now topic ac v s) as [->|Hf].
      + left. apply calm_steady, calm_refl.
      + right. by eexists.
    - intros <-%(inj Some). left. apply castVote_steady.
  Qed.

Lemma step_total e now i s : well_formed s → is_Some (step e now i s).
  Proof.
    intros Hwf. pose proof Hwf as [Hw Hok].
    destruct i as [[] ws ra m|[] ws|ws|host p|ws c| |handle|topic ac v|choice]; simpl;
      try by eauto.
    - by apply handleMessage_total.
    - unfold outgoing_message. destruct m; try (by apply handleMessage_total). by eauto.
    - by apply fire_total.
  Qed.
End Events.

(** ** Schedules *)

Section Schedules.
  Context `{Runtime}.

Lemma fresh_round_well_formed newId s s' : fresh_round newId s s' → well_formed s'.
  Proof.
    intros (_ & _ & (r & Hr & Hid & _) & Hst & _). split.
    - intros r' Hr'. assert (r' = r) as -> by congruence. rewrite Hid.
      unfold stores_at in Hst. injection Hst as -> _ _. by eauto.
    - intros Hnone. congruence.
  Qed.

Lemma fresh_round_keys_are_own newId s s' : fresh_round newId s s' → keys_are_own s'.
  Proof.
    intros (_ & _ & (r & Hr & Hid & _) & Hst & _). intros r' Hr' _.
    assert (r' = r) as -> by congruence. rewrite Hid.
    unfold stores_at in Hst. injection Hst as _ _ ->. by exists [].
  Qed.

Lemma step_well_formed e now i s s' :
    well_formed s → step e now i s = Some s' → well_formed s' ∧ nodeId s' = nodeId s.
  Proof.
    intros [Hw Hok] [Hst|(newId & _ & Hf)]%step_cases.
    - destruct Hst as (Hn & Hw' & Hok' & _). split; [split; auto | done].
    - split; [by eapply fresh_round_well_formed | by destruct Hf].
  Qed.

Lemma step_keys_are_own e now i s s' :
    keys_are_own s → step e now i s = Some s' → keys_are_own s'.
  Proof.
    intros Hown [Hst|(newId & _ & Hf)]%step_cases.
    - destruct Hst as (_ & _ & _ & Hk & _). auto.
    - by eapply fresh_round_keys_are_own.
  Qed.

  (** From a well-formed state every schedule runs to its end. *)
Lemma run_well_formed schedule s :
    well_formed s →
    ∃ s', run schedule s = Some s' ∧ well_formed s' ∧ nodeId s' = nodeId s.
  Proof.
    revert s. induction schedule as [|[[e now] i] rest IH]; intros s Hwf; [by exists s|].
    destruct (step_total e now i s Hwf) as [s1 Hs1].
    destruct (step_well_formed e now i s s1 Hwf Hs1) as [Hwf1 Hn1].
    destruct (IH s1 Hwf1) as (s' & Hrun & Hwf' & Hn').
    exists s'. simpl. rewrite Hs1. simpl. split_and!; [done | done | congruence].
  Qed.

Lemma run_keys_are_own schedule s s' :
    keys_are_own s → run schedule s = Some s' → keys_are_own s'.
  Proof.
    revert s. induction schedule as [|[[e now] i] rest IH]; intros s Hown; simpl.
    - by intros [= <-].
    - destruct (step e now i s) as [s1|] eqn:Hs1; [|done]. simpl.
      apply IH. by eapply step_keys_are_own.
  Qed.

Lemma init_well_formed nodeId port knownPeers : well_formed (init nodeId port knownPeers).
  Proof. split; [by intros r Hr | intros _ t Ht; by apply elem_of_nil in Ht]. Qed.

Lemma init_keys_are_own nodeId port knownPeers : keys_are_own (init nodeId port knownPeers).
  Proof. by intros r Hr. Qed.

  (** The stores of a finished round survive every event that does not
      start a round under the same id. *)
Lemma step_finished rid e now i s s' :
    finished_if_current rid s → ¬ starts_round (nodeId s) rid (e, now, i) →
    step e now i s = Some s' →
    finished_if_current rid s' ∧ stores_at rid s' = stores_at rid s.
  Proof.
    intros Hfin Hns [Hst|(newId & Hstart & Hf)]%step_cases.
    - destruct Hst as (_ & _ & _ & _ & Hf & _). by apply Hf.
    - assert (rid ≠ newId) as Hne by (intros ->; done).
      destruct Hf as (_ & _ & (r & Hr & Hid & _) & _ & _ & Hother & _).
      split; [|by apply Hother].
      intros r' Hr' Hid'. assert (r' = r) as -> by congruence. congruence.
  Qed.

Lemma run_finished rid schedule s :
    well_formed s → finished_if_current rid s →
    Forall (λ ev, ¬ starts_round (nodeId s) rid ev) schedule →
    ∃ s', run schedule s = Some s'
          ∧ finished_if_current rid s' ∧ stores_at rid s' = stores_at rid s.
  Proof.
    revert s. induction schedule as [|[[e now] i] rest IH]; intros s Hwf Hfin Hns;
      [by exists s|].
    apply Forall_cons in Hns as [Hns Hrest].
    destruct (step_total e now i s Hwf) as [s1 Hs1].
    destruct (step_well_formed e now i s s1 Hwf Hs1) as [Hwf1 Hn1].
    destruct (step_finished rid e now i s s1 Hfin Hns Hs1) as [Hfin1 Hst1].
    rewrite <- Hn1 in Hrest.
    destruct (IH s1 Hwf1 Hfin1 Hrest) as (s' & Hrun & Hfin' & Hst').
    exists s'. simpl. rewrite Hs1. simpl. split_and!; [done | done | congruence].
  Qed.

  (** The ballot budget of a round never grows while the round is not
      started anew. *)
Lemma step_budget rid e now i s s' :
    ¬ starts_round (nodeId s) rid (e, now, i) → step e now i s = Some s' →
    (ballot_budget rid s' ≤ ballot_budget rid s)%nat
    ∧ (hasVoted rid s = true → hasVoted rid s' = true).
  Proof.
    intros Hns [Hst|(newId & Hstart & Hf)]%step_cases.
    - destruct Hst as (_ & _ & _ & _ & _ & Hb & Hv). split; [apply Hb | apply Hv].
    - assert (rid ≠ newId) as Hne by (intros ->; done).
      destruct Hf as (_ & _ & _ & _ & _ & Hother & Hvb & _).
      destruct (Hother rid Hne) as [_ Hv]. unfold ballot_budget.
      rewrite Hvb, Hv. split; [lia | done].
  Qed.

Lemma run_budget rid schedule s s' :
    well_formed s →
    Forall (λ ev, ¬ starts_round (nodeId s) rid ev) schedule →
    run schedule s = Some s' →
    (ballot_budget rid s' ≤ ballot_budget rid s)%nat
    ∧ (hasVoted rid s = true → hasVoted rid s' = true).
  Proof.
    revert s. induction schedule as [|[[e now] i] rest IH]; intros s Hwf Hns; simpl.
    - intros [= <-]. split; [lia | done].
    - apply Forall_cons in Hns as [Hns Hrest].
      destruct (step e now i s) as [s1|] eqn:Hs1; [|done]. simpl. intros Hrun.
      destruct (step_well_formed e now i s s1 Hwf Hs1) as [Hwf1 Hn1].
      destruct (step_budget rid e now i s s1 Hns Hs1) as [Hb1 Hv1].
      rewrite <- Hn1 in Hrest.
      destruct (IH s1 Hwf1 Hrest Hrun) as [Hb' Hv'].
      split; [lia | auto].
  Qed.
End Schedules.

(** ** The claims about the round engine *)

(** C10. A BATCH_VOTE_KEYS or VOTE_KEY message is discarded with the
    node left exactly as it was unless there is a current round, the
    message names it, and its phase is CONSENSUS: both handlers, and
    the dispatch of [originalHandleMessage] that calls them, return the
    state they were given.  In particular nothing is merged into the key
    map while the round is still in VOTING. *)
Theorem keys_ignored_outside_consensus `{Runtime} now ws remoteAddress roundId s :
  ¬ (∃ r, currentRound s = Some r ∧ roundId = Round.id r ∧ Round.phase r = CONSENSUS) →
  (∀ keys from,
     handleBatchVoteKeys now roundId keys from s = Some s
     ∧ originalHandleMessage now ws remoteAddress (BATCH_VOTE_KEYS roundId keys from) s
       = Some s)
  ∧ (∀ anonymousVoteId key from,
       handleVoteKey now roundId anonymousVoteId key from s = Some s
       ∧ originalHandleMessage now ws remoteAddress
           (VOTE_KEY roundId anonymousVoteId key from) s = Some s).
Proof.
  intros Hno.
  assert (∀ keys from, handleBatchVoteKeys now roundId keys from s = Some s) as Hb.
  { intros keys from. unfold handleBatchVoteKeys.
    destruct (currentRound s) as [r|] eqn:Hr; [|done].
    destruct (decide (roundId = Round.id r)) as [Hid|Hid];
      [|by rewrite bool_decide_eq_true_2].
    destruct (decide (Round.phase r = CONSENSUS)) as [Hph|Hph];
      [|rewrite (bool_decide_eq_true_2 (Round.phase r ≠ CONSENSUS)) by done;
        by destruct (bool_decide _)].
    destruct Hno. by exists r. }
  assert (∀ a k from, handleVoteKey now roundId a k from s = Some s) as Hk.
  { intros a k from. unfold handleVoteKey.
    destruct (currentRound s) as [r|] eqn:Hr; [|done].
    destruct (decide (roundId = Round.id r)) as [Hid|Hid];
      [|by rewrite bool_decide_eq_true_2].
    destruct (decide (Round.phase r = CONSENSUS)) as [Hph|Hph];
      [|rewrite (bool_decide_eq_true_2 (Round.phase r ≠ CONSENSUS)) by done;
        by destruct (bool_decide _)].
    destruct Hno. by exists r. }
  split; intros; (split; [|cbn [originalHandleMessage]]); auto.
Qed.

Lemma keys_ignored_outside_consensus_witness :
  let s := Reference.node_with_votes "r1" VOTING [] in
  handleBatchVoteKeys (H := Reference.runtime) 5 "r1" [("id1", "k1")] "bob" s = Some s
  ∧ handleVoteKey (H := Reference.runtime) 5 "r1" "id1" "k1" "bob" s = Some s.
Proof.
  intros s.
  assert (¬ (∃ r, currentRound s = Some r ∧ "r1" = Round.id r ∧ Round.phase r = CONSENSUS))
    as Hno by (intros (r & [= <-] & _ & Hph); discriminate Hph).
  destruct (keys_ignored_outside_consensus (H := Reference.runtime) 5 0%nat None "r1" s Hno)
    as [Hb Hk].
  split; [apply Hb | apply Hk].
Defined.

Lemma update_round_update_round f g s :
  update_round g (update_round f s) = update_round (g ∘ f) s.
Proof. unfold update_round. simpl. by destruct (currentRound s). Qed.

Lemma update_round_ext f g s r :
  currentRound s = Some r → f r = g r → update_round f s = update_round g s.
Proof. intros Hr Hfg. unfold update_round. rewrite Hr. simpl. by rewrite Hfg. Qed.

Lemma elem_of_clearTimeout t handle s :
  t ∈ timers (clearTimeout handle s) ↔ t ∈ timers s ∧ timer_id t ≠ handle.
Proof. unfold clearTimeout. cbn [timers set_timers]. by rewrite list_elem_of_filter, (comm and). Qed.

(** C2. While the current round is in CONSENSUS and [consensusAchieved]
    is not yet set: the active node count is [activePeers.size + 1];
    [checkForConsensus] sets [consensusAchieved] exactly when the size
    of [consensusNodes] has reached that count, and then cancels the
    FINISH timer and schedules [finishRound] 500 ms later: the pending
    timers afterwards are those that were pending under another handle
    than the round's [finishTimeout], followed by the new one, so that
    no timer with the FINISH handle is pending any more (handles are
    issued in increasing order, and the round's is an earlier one) and
    every other pending timer still is.  Otherwise the check changes
    nothing.  A RESULT_PROPOSAL for the round whose tally differs from
    ours leaves the node, and so [consensusNodes], as it was, while one
    whose tally equals ours adds its sender (and ourselves) and then
    runs the check. *)
Theorem consensus_threshold `{Runtime} now s r :
  currentRound s = Some r → Round.phase r = CONSENSUS →
  Round.consensusAchieved r = false →
  getActiveNodeCount s = Z.of_nat (size (activePeers s)) + 1
  ∧ (getActiveNodeCount s ≤ Z.of_nat (size (Round.consensusNodes r)) →
     currentRound (checkForConsensus now s) = Some (Round.with_consensusAchieved true r)
     ∧ timers (checkForConsensus now s)
       = timers (clearTimeout_if_set (Round.finishTimeout r) s)
         ++ [mkTimer (nextTimer s) cb_finishRound now (inject_Z 500)]
     ∧ (∀ h, Round.finishTimeout r = Some h →
             timers (checkForConsensus now s)
             = filter (λ t, timer_id t ≠ h) (timers s)
               ++ [mkTimer (nextTimer s) cb_finishRound now (inject_Z 500)]
             ∧ ((h < nextTimer s)%nat →
                ∀ t, t ∈ timers (checkForConsensus now s) → timer_id t ≠ h)
             ∧ (∀ t, t ∈ timers s → timer_id t ≠ h →
                     t ∈ timers (checkForConsensus now s))))
  ∧ (Z.of_nat (size (Round.consensusNodes r)) < getActiveNodeCount s →
     checkForConsensus now s = s)
  ∧ (∀ results voteCount from myResults,
       calculateResults s = Some myResults →
       (results ≠ myResults →
        originalHandleMessage now 0%nat None
          (RESULT_PROPOSAL (Round.id r) results voteCount from) s = Some s)
       ∧ (results = myResults →
          originalHandleMessage now 0%nat None
            (RESULT_PROPOSAL (Round.id r) results voteCount from) s
          = Some (checkForConsensus now
                    (update_round
                       (Round.with_consensusNodes
                          ({[nodeId s]} ∪ ({[from]} ∪ Round.consensusNodes r))) s)))).
Proof.
  intros Hr Hph Hach. split; [done|]. split_and!.
  - intros Hle. unfold checkForConsensus. rewrite Hr, Hach.
    rewrite (bool_decide_eq_false_2 (Round.phase r ≠ CONSENSUS)) by (by intros []).
    cbn [orb]. rewrite bool_decide_eq_true_2 by done. cbv zeta.
    assert (timers
              (setTimeout cb_finishRound (inject_Z 500) now
                 (clearTimeout_if_set (Round.finishTimeout r)
                    (update_round (Round.with_consensusAchieved true) s))).2
            = timers (clearTimeout_if_set (Round.finishTimeout r) s)
              ++ [mkTimer (nextTimer s) cb_finishRound now (inject_Z 500)]) as Ht
      by (by destruct (Round.finishTimeout r)).
    split_and!.
    + unfold update_round. rewrite Hr. by destruct (Round.finishTimeout r).
    + exact Ht.
    + intros h Hh. rewrite Ht, Hh. cbn [clearTimeout_if_set]. split_and!.
      * done.
      * intros Hlt t [[_ Hne]%elem_of_clearTimeout| ->%list_elem_of_singleton]%elem_of_app;
          [done | cbn; lia].
      * intros t Hin Hne. apply elem_of_app. left. by apply elem_of_clearTimeout.
  - intros Hlt. unfold checkForConsensus. rewrite Hr, Hach.
    rewrite (bool_decide_eq_false_2 (Round.phase r ≠ CONSENSUS)) by (by intros []).
    cbn [orb]. by rewrite bool_decide_eq_false_2 by lia.
  - intros results voteCount from myResults Hmy. cbn [originalHandleMessage].
    unfold handleResultProposal. rewrite Hr.
    rewrite bool_decide_eq_false_2 by (by intros []). rewrite Hmy. cbn [mbind option_bind].
    split.
    + intros Hne. destruct (compareResults myResults results) eqn:Hc; [|done].
      apply compareResults_eq in Hc. by destruct Hne.
    + intros ->. rewrite (proj2 (compareResults_eq myResults myResults)) by done.
      cbv zeta. do 2 f_equal. rewrite update_round_update_round.
      apply (update_round_ext _ _ s r Hr). cbn.
      case_bool_decide as Hin; [|done].
      rewrite (subseteq_union_1_L {[nodeId s]}); [done|].
      by apply singleton_subseteq_l.
Qed.

Lemma consensus_threshold_witness :
  let s :=
    update_round (Round.with_consensusNodes {["alice"]})
      (enterConsensusPhase Reference.entropy 49000
         (startVotingRound 1000 "topic" None (JsNumber (inject_Z 60))
            (init "alice" 3001 []))) in
  mkTimer 1 cb_finishRound 1000 (inject_Z 60000) ∈ timers s
  ∧ Round.finishTimeout <$> currentRound s = Some (Some 1%nat)
  ∧ Round.consensusAchieved <$> currentRound (checkForConsensus 50000 s) = Some true
  ∧ timer_id <$> timers (checkForConsensus 50000 s) = [0; 2; 3; 4]%nat
  ∧ (∀ t, t ∈ timers (checkForConsensus 50000 s) → timer_id t ≠ 1%nat)
  ∧ mkTimer 4 cb_finishRound 50000 (inject_Z 500) ∈ timers (checkForConsensus 50000 s)
  ∧ originalHandleMessage (H := Reference.runtime) 50000 0%nat None
      (RESULT_PROPOSAL "round_1000_alice" [mkResult "yes" 1] 1 "bob") s = Some s.
Proof.
  intros s.
  destruct (currentRound s) as [r|] eqn:Hcur; [|vm_compute in Hcur; discriminate Hcur].
  assert (Round.phase r = CONSENSUS ∧ Round.consensusAchieved r = false
          ∧ Round.finishTimeout r = Some 1%nat ∧ Round.id r = "round_1000_alice") as Hr.
  { vm_compute in Hcur. injection Hcur as <-. by repeat split. }
  destruct Hr as (Hph & Hach & Hfin & Hid).
  destruct (consensus_threshold (H := Reference.runtime) 50000 s r Hcur Hph Hach)
    as (_ & Hyes & _ & Hprop).
  destruct Hyes as (Hr & Ht & Hcancel).
  { vm_compute in Hcur. injection Hcur as <-. vm_compute. discriminate. }
  destruct (Hcancel 1%nat Hfin) as (Hfilter & Habsent & _).
  split_and!.
  - vm_compute. repeat constructor.
  - cbn. by rewrite Hfin.
  - by rewrite Hr.
  - rewrite Hfilter. vm_compute. reflexivity.
  - apply Habsent. vm_compute. lia.
  - rewrite Hfilter. vm_compute. repeat constructor.
  - rewrite <- Hid.
    assert (calculateResults (H := Reference.runtime) s = Some []) as Hmy
      by (vm_compute; reflexivity).
    destruct (Hprop [mkResult "yes" 1] 1 "bob" [] Hmy) as [Hdiff _].
    assert ([mkResult "yes" 1] ≠ []) as Hne by discriminate.
    exact (Hdiff Hne).
Defined.

(** C4. [castVote] is rejected, leaving the node exactly as it was (no
    round state changed, nothing broadcast), iff there is no current
    round, or its phase is not VOTING, or the node has already voted in
    it, or [allowedChoices] is set and the choice is not in it under
    case-insensitive comparison.  An accepted vote broadcasts exactly
    one ENCRYPTED_VOTE frame for the round and marks the round as voted,
    so that every later [castVote] in that state is rejected; and over
    any sequence of events that does not start the round anew, at most
    one ENCRYPTED_VOTE frame is ever broadcast for the round, and none
    once the node has voted. *)
Theorem castVote_policy `{Runtime} :
  (∀ e now choice s, castVote e now choice s = s ↔ castVote_rejects choice s)
  ∧ (∀ e now choice s,
       ¬ castVote_rejects choice s →
       ∃ r m to gui,
         currentRound s = Some r ∧ ev_roundId m = Round.id r
         ∧ effects (castVote e now choice s)
           = effects s ++ [Broadcast (ENCRYPTED_VOTE m) to gui]
         ∧ hasVoted (Round.id r) (castVote e now choice s) = true
         ∧ ∀ choice', castVote_rejects choice' (castVote e now choice s))
  ∧ (∀ roundId schedule s,
       well_formed s →
       Forall (λ ev, ¬ starts_round (nodeId s) roundId ev) schedule →
       ∃ s', run schedule s = Some s'
             ∧ (vote_broadcasts roundId s'
                ≤ vote_broadcasts roundId s + (if hasVoted roundId s then 0 else 1))%nat
             ∧ (hasVoted roundId s = true → hasVoted roundId s' = true)).
Proof.
  split_and!.
  - intros e now choice s. split; [|apply castVote_rejected].
    unfold castVote, castVote_rejects. destruct (currentRound s) as [r|]; [|done].
    case_bool_decide as Hph; [by left|].
    destruct (default false _) eqn:Hv; [right; by left|].
    destruct (choice_refused _ _) eqn:Hc.
    + intros _. right. right. unfold choice_refused in Hc.
      destruct (Round.allowedChoices r) as [allowed|]; [|done].
      exists allowed. split; [done|]. by apply bool_decide_eq_true in Hc.
    + intros Heq. apply (f_equal (λ x, length (effects x))) in Heq.
      unfold cast_ballot in Heq. simpl in Heq. rewrite length_app in Heq. simpl in Heq. lia.
  - intros e now choice s Hacc.
    destruct (castVote_accepted e now choice s Hacc) as (r & Hr & Hph & Hv & ->).
    eexists r, _, _, _. split_and!; [done | | reflexivity | |].
    + reflexivity.
    + unfold hasVoted, cast_ballot. simpl. by rewrite lookup_insert_eq.
    + intros choice'. unfold castVote_rejects, cast_ballot. simpl. rewrite Hr.
      right. left. by rewrite lookup_insert_eq.
  - intros roundId schedule s Hwf Hns.
    destruct (run_well_formed schedule s Hwf) as (s' & Hrun & _).
    exists s'. split; [done|].
    destruct (run_budget roundId schedule s s' Hwf Hns Hrun) as [Hb Hv].
    split; [|done]. unfold ballot_budget in Hb. destruct (hasVoted roundId s'); lia.
Qed.

Lemma castVote_policy_witness :
  let s := Reference.node_with_votes "r1" VOTING [] in
  let s1 := castVote (H := Reference.runtime) Reference.entropy 5 "yes" s in
  vote_broadcasts "r1" s1 = 1%nat
  ∧ castVote (H := Reference.runtime) Reference.entropy 6 "no" s1 = s1
  ∧ ∃ s', run (H := Reference.runtime)
            [(Reference.entropy, 6, In_vote "no"); (Reference.entropy, 7, In_vote "yes")] s1
          = Some s'
          ∧ (vote_broadcasts "r1" s' ≤ 1)%nat.
Proof.
  intros s s1.
  destruct (castVote_policy (H := Reference.runtime)) as (Hiff & Hacc & Hrun).
  assert (¬ castVote_rejects (H := Reference.runtime) "yes" s) as Hok.
  { unfold castVote_rejects. simpl.
    intros [Hph|[Hv|(allowed & Ha & _)]];
      [by destruct Hph | discriminate Hv | discriminate Ha]. }
  destruct (Hacc Reference.entropy 5 "yes" s Hok) as (r & m & to & gui & _ & _ & _ & _ & Hrej).
  split; [reflexivity|]. split; [apply Hiff, Hrej|].
  destruct (Hrun "r1" [(Reference.entropy, 6, In_vote "no"); (Reference.entropy, 7, In_vote "yes")]
              s1) as (s' & Hs' & Hb & _).
  - split; [intros r' [= <-]; by eexists | intros Hnone; discriminate Hnone].
  - repeat constructor; by intros [].
  - exists s'. split; [exact Hs' | exact Hb].
Defined.
Lemma verifyMyVote_currentRound `{Runtime} roundId roundVotes s :
  currentRound (verifyMyVote roundId roundVotes s) = currentRound s.
Proof.
  unfold verifyMyVote. destruct (myVoteTracking s !! _); [|done].
  destruct (JsMap.get _ _); [|done]. by destruct (bool_decide _).
Qed.

Lemma finishRound_finished `{Runtime} s s1 r :
  finishRound s = Some s1 → currentRound s = Some r →
  ∃ r1, currentRound s1 = Some r1 ∧ Round.phase r1 = FINISHED ∧ Round.id r1 = Round.id r.
Proof.
  unfold finishRound. intros Hs Hr. rewrite Hr in Hs.
  case_bool_decide as Hph; [apply (inj Some) in Hs; subst s1; by exists r|].
  destruct (calculateResults _) as [finalResults|]; [|done]. cbn [mbind option_bind] in Hs.
  destruct (votes _ !! Round.id r) as [roundVotes|]; [|done]. cbn [mbind option_bind] in Hs.
  apply (inj Some) in Hs. subst s1.
  exists (Round.with_results (Some finalResults) (Round.with_phase FINISHED r)).
  split; [|by destruct r].
  unfold notifyGUIClients, emit, set_effects, set_results. cbn [currentRound].
  rewrite verifyMyVote_currentRound. unfold update_round. cbn.
  by destruct (Round.consensusTimeout r), (Round.finishTimeout r); cbn; rewrite Hr.
Qed.

(** C5. Once the current round is FINISHED, the decrypted-vote map, the
    encrypted-ballot map and the key map of that round stay as they are
    through every sequence of inbound messages, timer callbacks, socket
    events and commands that starts no round under the finished round's
    own id (round ids are minted from the clock and the node's name, one
    per round); no such sequence raises an error.  [finishRound] called
    a second time returns the state the first call produced, and it
    always returns in a node whose current round has a vote map. *)
Theorem finished_round_frozen `{Runtime} :
  (∀ schedule s r,
     well_formed s → currentRound s = Some r → Round.phase r = FINISHED →
     Forall (λ ev, ¬ starts_round (nodeId s) (Round.id r) ev) schedule →
     ∃ s', run schedule s = Some s'
           ∧ stores_at (Round.id r) s' = stores_at (Round.id r) s)
  ∧ (∀ s s1, finishRound s = Some s1 → finishRound s1 = Some s1)
  ∧ (∀ s, stores_installed s → is_Some (finishRound s)).
Proof.
  split_and!.
  - intros schedule s r Hwf Hr Hph Hns.
    destruct (run_finished (Round.id r) schedule s Hwf) as (s' & Hrun & _ & Hst);
      [intros r' Hr' _; congruence | done |].
    by exists s'.
  - intros s s1 Hs. destruct (currentRound s) as [r|] eqn:Hr.
    + destruct (finishRound_finished s s1 r Hs Hr) as (r1 & Hr1 & Hph1 & _).
      unfold finishRound. rewrite Hr1. by rewrite bool_decide_eq_true_2.
    + unfold finishRound in Hs. rewrite Hr in Hs. apply (inj Some) in Hs. subst s1.
      unfold finishRound. by rewrite Hr.
  - apply finishRound_total.
Qed.

Lemma finished_round_frozen_witness :
  let s := Reference.node_with_votes "r1" FINISHED [("id1", Reference.vote "yes")] in
  ∃ s', run (H := Reference.runtime)
          [(Reference.entropy, 5,
            In_message true 1%nat None
              (ENCRYPTED_VOTE (mkEncryptedVoteMessage "r1" "id2" "data" "iv" 5 "sig")));
           (Reference.entropy, 6,
            In_message true 1%nat None (BATCH_VOTE_KEYS "r1" [("id2", "key")] "bob"));
           (Reference.entropy, 7, In_vote "no");
           (Reference.entropy, 8, In_timer 0)] s = Some s'
        ∧ stores_at "r1" s' = stores_at "r1" s.
Proof.
  intros s.
  apply (proj1 (finished_round_frozen (H := Reference.runtime)) _ s
           (Round.mk "r1" "topic" None 0 (inject_Z 100000) (inject_Z 100) FINISHED
              None false ∅ None None)).
  - split; [intros r' [= <-]; by eexists | intros Hnone; discriminate Hnone].
  - reflexivity.
  - reflexivity.
  - repeat constructor; by intros [].
Defined.
Lemma validate_votingTime_kept q :
  (inject_Z 30 <= q)%Q → (q <= inject_Z 600)%Q → validate_votingTime (JsNumber q) = q.
Proof.
  intros H30 H600. unfold validate_votingTime.
  apply Qle_bool_iff in H30, H600. by rewrite H30, H600.
Qed.

Lemma validate_votingTime_out_of_range q :
  (q < inject_Z 30)%Q ∨ (inject_Z 600 < q)%Q →
  validate_votingTime (JsNumber q) = inject_Z 100.
Proof.
  intros Hq. unfold validate_votingTime.
  destruct (Qle_bool (inject_Z 30) q) eqn:H30; [|done].
  destruct (Qle_bool q (inject_Z 600)) eqn:H600; [|done].
  apply Qle_bool_iff in H30, H600. destruct Hq as [Hq|Hq].
  - by apply Qlt_not_le in Hq.
  - by apply Qlt_not_le in Hq.
Qed.

(** On a whole number of seconds in the accepted range the products
    computed in double precision are exact: [Math.round(n * 0.8 * 1000)]
    is [800 * n] and [n * 1000] is itself. *)
Lemma whole_seconds_exact n :
  30 ≤ n ≤ 600 →
  consensusDelay_of (inject_Z n) = 800 * n
  ∧ double_mul (inject_Z n) (inject_Z 1000) = (inject_Z n * inject_Z 1000)%Q.
Proof.
  intros Hn.
  assert (forallb
            (λ k, let n := 30 + Z.of_nat k in
                  (consensusDelay_of (inject_Z n) =? 800 * n)
                  && (Qnum (double_mul (inject_Z n) (inject_Z 1000)) =? n * 1000)
                  && (Qden (double_mul (inject_Z n) (inject_Z 1000)) =? 1)%positive)
            (seq 0 571) = true) as Hall by (vm_compute; reflexivity).
  rewrite forallb_forall in Hall.
  assert (In (Z.to_nat (n - 30)) (seq 0 571)) as Hin by (apply in_seq; lia).
  specialize (Hall _ Hin).
  assert (30 + Z.of_nat (Z.to_nat (n - 30)) = n) as Heq by lia.
  cbv zeta in Hall. rewrite Heq in Hall.
  apply andb_true_iff in Hall as [Hall Hden]. apply andb_true_iff in Hall as [Hc Hnum].
  apply Z.eqb_eq in Hc, Hnum. apply Pos.eqb_eq in Hden. split; [done|].
  destruct (double_mul (inject_Z n) (inject_Z 1000)) as [num den]. cbn in Hnum, Hden.
  subst num den. unfold Qmult, inject_Z. cbn. by rewrite Z.mul_comm.
Qed.

Lemma validate_examples :
  validate_votingTime (JsNumber (inject_Z 29)) = inject_Z 100
     ∧ validate_votingTime (JsNumber (inject_Z 30)) = inject_Z 30
     ∧ validate_votingTime (JsNumber (inject_Z 600)) = inject_Z 600
     ∧ validate_votingTime (JsNumber (inject_Z 601)) = inject_Z 100
     ∧ validate_votingTime (JsString "60") = inject_Z 100
     ∧ validate_votingTime (JsString "45.5") = inject_Z 100
     ∧ validate_votingTime JsNull = inject_Z 100
     ∧ validate_votingTime JsUndefined = inject_Z 100.
Proof. split_and!; reflexivity. Qed.

Lemma arm_round_timers_timers now cd fd s :
  timers (arm_round_timers now cd fd s)
  = timers s ++ [mkTimer (nextTimer s) cb_enterConsensusPhase now cd;
                 mkTimer (S (nextTimer s)) cb_finishRound now fd].
Proof. unfold arm_round_timers. cbn. by rewrite <- app_assoc. Qed.

Lemma arm_round_timers_currentRound now cd fd s :
  currentRound (arm_round_timers now cd fd s)
  = Round.with_timeouts (Some (nextTimer s)) (Some (S (nextTimer s))) <$> currentRound s.
Proof. reflexivity. Qed.

Lemma startVotingRound_arms now topic allowedChoices v s :
  (∀ r, currentRound s = Some r → Round.phase r = FINISHED) →
       let s' := startVotingRound now topic allowedChoices v s in
       let seconds := validate_votingTime v in
       (∃ r, currentRound s' = Some r
             ∧ Round.phase r = VOTING
             ∧ Round.votingTimeSeconds r = seconds
             ∧ Round.duration r = double_mul seconds (inject_Z 1000))
       ∧ timers s'
         = timers s
           ++ [mkTimer (nextTimer s) cb_enterConsensusPhase now
                 (inject_Z (consensusDelay_of seconds));
               mkTimer (S (nextTimer s)) cb_finishRound now
                 (double_mul seconds (inject_Z 1000))].
Proof.
  intros Hfin s' seconds. unfold s', startVotingRound.
  assert (match currentRound s with
          | Some r => bool_decide (Round.phase r ≠ FINISHED)
          | None => false
          end = false) as ->.
  { destruct (currentRound s) as [r|]; [|done].
    apply bool_decide_eq_false_2. intros Hne. by apply Hne, Hfin. }
  cbv zeta. fold seconds. split.
  - rewrite arm_round_timers_currentRound. eexists. split; [reflexivity|]. done.
  - by rewrite arm_round_timers_timers.
Qed.

(** C8.  [startVotingRound] replaces [votingTimeSeconds] by 100 when it
    is not of type number, or is below 30, or is above 600: 29 gives
    100, 30 stays 30, 600 stays 600, 601 gives 100, and a value that is
    not a number (the strings ['60'] and ['45.5'], [null]) gives 100,
    as an omitted argument does.  Its callers pass whole numbers: the
    commands pass [parseInt] of a last word made of digits and 100 for
    any other last word, so that the words [Q 45.5] start a round of
    100 seconds.  For the whole number of seconds [n] that is accepted,
    the round's [votingTimeSeconds] is [n], its duration is [n * 1000]
    ms, the CONSENSUS timer is armed with [Math.round(n * 0.8 * 1000)],
    which is [800 * n] ms, and the FINISH timer with the duration. *)
Theorem votingTime_validation :
  (∀ n, 30 ≤ n ≤ 600 → validate_votingTime (JsNumber (inject_Z n)) = inject_Z n)
  ∧ (∀ q, (q < inject_Z 30)%Q ∨ (inject_Z 600 < q)%Q →
          validate_votingTime (JsNumber q) = inject_Z 100)
  ∧ (∀ v, (∀ q, v ≠ JsNumber q) → validate_votingTime v = inject_Z 100)
  ∧ (validate_votingTime (JsNumber (inject_Z 29)) = inject_Z 100
     ∧ validate_votingTime (JsNumber (inject_Z 30)) = inject_Z 30
     ∧ validate_votingTime (JsNumber (inject_Z 600)) = inject_Z 600
     ∧ validate_votingTime (JsNumber (inject_Z 601)) = inject_Z 100
     ∧ validate_votingTime (JsString "60") = inject_Z 100
     ∧ validate_votingTime (JsString "45.5") = inject_Z 100
     ∧ validate_votingTime JsNull = inject_Z 100
     ∧ validate_votingTime JsUndefined = inject_Z 100)
  ∧ (∀ now topic allowedChoices v s,
       (∀ r, currentRound s = Some r → Round.phase r = FINISHED) →
       (∀ q, v = JsNumber q → ∃ n, q = inject_Z n) →
       let s' := startVotingRound now topic allowedChoices v s in
       ∃ n r,
         validate_votingTime v = inject_Z n ∧ 30 ≤ n ≤ 600
         ∧ currentRound s' = Some r ∧ Round.phase r = VOTING
         ∧ Round.votingTimeSeconds r = inject_Z n
         ∧ Round.duration r = (inject_Z n * inject_Z 1000)%Q
         ∧ timers s'
           = timers s
             ++ [mkTimer (nextTimer s) cb_enterConsensusPhase now (inject_Z (800 * n));
                 mkTimer (S (nextTimer s)) cb_finishRound now
                   (inject_Z n * inject_Z 1000)%Q])
  ∧ (∀ String_trim now args lastArg s,
       last args = Some lastArg → matches_digits lastArg = false →
       (∀ r, currentRound s = Some r → Round.phase r = FINISHED) →
       (∃ r, currentRound (handleGUICommand_start String_trim now args s).1 = Some r
             ∧ Round.votingTimeSeconds r = inject_Z 100)
       ∧ (∃ s' r, handleCommand_start String_trim now args s = Returned s'
                  ∧ currentRound s' = Some r
                  ∧ Round.votingTimeSeconds r = inject_Z 100))
  ∧ matches_digits "45.5" = false.
Proof.
  refine (conj _ (conj _ (conj _ (conj _ (conj _ (conj _ _)))))).
  - intros n Hn. apply validate_votingTime_kept; rewrite <- Zle_Qle; lia.
  - apply validate_votingTime_out_of_range.
  - intros v Hv. destruct v; try done. by destruct (Hv q).
  - apply validate_examples.
  - intros now topic allowedChoices v s Hfin Hwhole s'.
    assert (∃ n, validate_votingTime v = inject_Z n ∧ 30 ≤ n ≤ 600) as (n & Hv & Hn).
    { destruct v as [| | |q|]; try (exists 100; split; [reflexivity | lia]).
      destruct (Hwhole q eq_refl) as [m ->].
      destruct (decide (30 ≤ m ≤ 600)) as [Hm|Hm].
      - exists m. split; [|done]. apply validate_votingTime_kept; rewrite <- Zle_Qle; lia.
      - exists 100. split; [|lia]. apply validate_votingTime_out_of_range.
        destruct (decide (m < 30)); [left | right]; rewrite <- Zlt_Qlt; lia. }
    destruct (startVotingRound_arms now topic allowedChoices v s Hfin)
      as [(r & Hr & Hph & Hsec & Hdur) Ht].
    cbv zeta in Hsec, Hdur, Ht. rewrite Hv in Hsec, Hdur, Ht.
    destruct (whole_seconds_exact n Hn) as [Hcd Hmul]. rewrite Hcd, Hmul in Ht.
    rewrite Hmul in Hdur. exists n, r.
    split_and!; [exact Hv | lia | lia | exact Hr | exact Hph | exact Hsec | exact Hdur
                | exact Ht].
  - intros String_trim now args lastArg s Hlast Hd Hfin. split.
    + unfold handleGUICommand_start. rewrite Hlast, Hd. cbv zeta.
      destruct (start_arguments String_trim _) as [topic allowedChoices]. cbn [fst].
      destruct (startVotingRound_arms now topic allowedChoices (JsNumber (inject_Z 100)) s Hfin)
        as [(r & Hr & _ & Hsec & _) _].
      exists r. split; [exact Hr|]. rewrite Hsec. reflexivity.
    + unfold handleCommand_start. rewrite Hlast, Hd. cbv zeta.
      destruct (start_arguments String_trim args) as [topic allowedChoices].
      destruct (startVotingRound_arms now topic allowedChoices (JsNumber (inject_Z 100)) s Hfin)
        as [(r & Hr & _ & Hsec & _) _].
      eexists _, r. split; [reflexivity|]. split; [exact Hr|]. rewrite Hsec. reflexivity.
  - reflexivity.
Qed.

Lemma votingTime_validation_witness :
  validate_votingTime (JsNumber (inject_Z 45)) = inject_Z 45
  ∧ validate_votingTime (JsNumber (inject_Z 700)) = inject_Z 100
  ∧ timers (startVotingRound 1000 "topic" None
              (JsNumber (inject_Z 45)) (init "alice" 3001 []))
    = [mkTimer 0 cb_enterConsensusPhase 1000 (inject_Z 36000);
       mkTimer 1 cb_finishRound 1000 (inject_Z 45 * inject_Z 1000)%Q]
  ∧ Round.votingTimeSeconds
      <$> currentRound
            (handleGUICommand_start (λ x, x) 1000 ["Q"; "45.5"] (init "alice" 3001 [])).1
    = Some (inject_Z 100).
Proof.
  destruct (votingTime_validation)
    as (Hin & Hout & _ & _ & Hstart & Hwords & _).
  split_and!.
  - apply Hin; lia.
  - apply Hout. by right.
  - destruct (Hstart 1000 "topic" None (JsNumber (inject_Z 45)) (init "alice" 3001 []))
      as (n & r & Hv & _ & _ & _ & _ & _ & Ht).
    + intros r Hr; discriminate Hr.
    + intros q [= <-]. by exists 45.
    + rewrite (Hin 45) in Hv by lia.
      assert (n = 45) as -> by (by injection Hv).
      exact Ht.
  - destruct (Hwords (λ x, x) 1000 ["Q"; "45.5"] "45.5" (init "alice" 3001 [])
                eq_refl eq_refl) as [(r & Hr & Hsec) _].
    + intros r Hr; discriminate Hr.
    + rewrite Hr. cbn. by rewrite Hsec.
Defined.
Lemma handleRoundStart_frame `{Runtime} now m s :
  activePeers (handleRoundStart now m s) = activePeers s
  ∧ nodeRegistry (handleRoundStart now m s) = nodeRegistry s.
Proof.
  unfold handleRoundStart.
  by destruct (match currentRound s with Some _ => _ | None => _ end).
Qed.

(** What [originalHandleMessage] does to the peer set and to the
    registry. *)
Lemma originalHandleMessage_peers `{Runtime} now ws remoteAddress message from s s' :
  message_from message = Some from →
  originalHandleMessage now ws remoteAddress message s = Some s' →
  nodeRegistry s' = nodeRegistry s
  ∧ (adds_active_peer message = true → from ∈ activePeers s')
  ∧ (adds_active_peer message = false → activePeers s' = activePeers s).
Proof.
  intros Hfrom.
  destruct message as [f p kp|f p kp|f|f ps|f|x|m|m|rid ks f|rid a k f|rid rs vc f|ty f];
    cbn [originalHandleMessage adds_active_peer]; cbv zeta;
    simpl in Hfrom; try (apply (inj Some) in Hfrom; subst).
  - intros <-%(inj Some). unfold emit. cbn [nodeRegistry activePeers set_effects].
    match goal with
    | |- context [store_peer_address ?f ?a ?p ?s1] =>
        destruct (store_peer_address_still f a p s1) as (_ & -> & ->)
    end.
    cbn. split_and!; [done | intros _; by apply elem_of_union_l, elem_of_singleton | done].
  - intros <-%(inj Some).
    match goal with
    | |- context [store_peer_address ?f ?a ?p ?s1] =>
        assert (still (store_peer_address f a p s1)
                  (if bool_decide (0 < length kp)%nat
                   then processPeerExchange now kp (store_peer_address f a p s1)
                   else store_peer_address f a p s1)) as (_ & -> & ->)
          by (case_bool_decide; [apply processPeerExchange_still | apply still_refl]);
        destruct (store_peer_address_still f a p s1) as (_ & -> & ->)
    end.
    cbn. split_and!; [by destruct (negb _) | | done].
    intros _. by apply elem_of_union_l, elem_of_singleton.
  - intros <-%(inj Some). destruct (sendPeerList_still ws s) as (_ & -> & ->). done.
  - intros <-%(inj Some).
    assert (still s (if bool_decide (0 < length ps)%nat
                     then processPeerExchange now ps s else s)) as (_ & -> & ->)
      by (case_bool_decide; [apply processPeerExchange_still | apply still_refl]).
    done.
  - intros <-%(inj Some). cbn.
    split_and!; [done | intros _; by apply elem_of_union_l, elem_of_singleton | done].
  - done.
  - intros <-%(inj Some). unfold notifyGUIClients, emit.
    cbn [nodeRegistry activePeers set_effects].
    destruct (handleRoundStart_frame now m s) as [-> ->]. done.
  - done.
  - intros (_ & -> & ->)%handleBatchVoteKeys_still. done.
  - intros (_ & -> & ->)%handleVoteKey_still. done.
  - intros (_ & -> & ->)%handleResultProposal_still. done.
  - intros <-%(inj Some). done.
Qed.

(** C9, as the code has it.  For every inbound message whose [from]
    names a node other than ourselves, [handleMessage] records the
    sender in [nodeRegistry] with the time of receipt and the socket.
    The sender is a member of [activePeers] afterwards when the message
    is a HANDSHAKE, a HANDSHAKE_ACK or a HEARTBEAT; a message of any
    other type leaves [activePeers] exactly as it was. *)
Theorem sender_refresh `{Runtime} now ws remoteAddress message from s :
  message_from message = Some from → from ≠ "" → from ≠ nodeId s →
  stores_installed s →
  ∃ s', handleMessage now ws remoteAddress message s = Some s'
        ∧ nodeRegistry s' !! from = Some (now, ws)
        ∧ (adds_active_peer message = true → from ∈ activePeers s')
        ∧ (adds_active_peer message = false → activePeers s' = activePeers s).
Proof.
  intros Hfrom Hne Hself Hw. unfold handleMessage. rewrite Hfrom.
  rewrite (bool_decide_eq_false_2 (Some from = Some (nodeId s))) by congruence.
  rewrite andb_false_r. unfold truthy_string.
  rewrite !bool_decide_eq_true_2 by done. cbn [andb]. cbv zeta.
  set (s1 := set_nodeRegistry _ s).
  assert (stores_installed s1) as Hw1 by done.
  destruct (originalHandleMessage_total now ws remoteAddress message s1 Hw1) as [s' Hs'].
  destruct (originalHandleMessage_peers now ws remoteAddress message from s1 s' Hfrom Hs')
    as (Hreg & Hin & Hout).
  exists s'. split; [by destruct message|]. rewrite Hreg. split_and!; [|done|done].
  unfold s1. cbn. by rewrite lookup_insert_eq.
Qed.

(** C9, as the spec states it, fails: a PEER_EXCHANGE_REQUEST from a
    node that has not shaken hands is answered, and its sender is not in
    [activePeers] afterwards. *)
Lemma sender_not_refreshed :
  ∃ s', handleMessage (H := Reference.runtime) 5 1%nat None (PEER_EXCHANGE_REQUEST "bob")
          (init "alice" 3001 []) = Some s'
        ∧ message_from (PEER_EXCHANGE_REQUEST "bob") = Some "bob"
        ∧ "bob" ≠ nodeId (init "alice" 3001 [])
        ∧ "bob" ∉ activePeers s'.
Proof.
  eexists. split; [reflexivity|]. split_and!; [done | done |].
  cbn. apply not_elem_of_empty.
Qed.

Lemma sender_refresh_witness :
  ∃ s', handleMessage (H := Reference.runtime) 5 1%nat None (HEARTBEAT "bob")
          (init "alice" 3001 []) = Some s'
        ∧ nodeRegistry s' !! "bob" = Some (5, 1%nat)
        ∧ "bob" ∈ activePeers s'.
Proof.
  destruct (sender_refresh (H := Reference.runtime) 5 1%nat None (HEARTBEAT "bob") "bob"
              (init "alice" 3001 []))
    as (s' & Hs' & Hreg & Hin & _); [done | done | done | by intros r Hr |].
  exists s'. split_and!; [done | done | by apply Hin].
Defined.
(** ** The key batch *)

Lemma swap_Permutation {A} (i j : nat) (array : list A) : swap i j array ≡ₚ array.
Proof.
  unfold swap. destruct (array !! i) as [ai|] eqn:Hi; [|done].
  destruct (array !! j) as [aj|] eqn:Hj; [|done].
  by apply Permutation_insert_swap.
Qed.

Lemma shuffle_from_Permutation {A} e draw i (array : list A) :
  shuffle_from e draw i array ≡ₚ array.
Proof.
  revert draw array. induction i as [|i IH]; intros draw array; [done|].
  cbn [shuffle_from]. cbv zeta. rewrite IH. apply swap_Permutation.
Qed.

(** [shuffleArray] rearranges its argument: nothing is added, dropped
    or repeated. *)
Lemma shuffleArray_Permutation {A} e (array : list A) : shuffleArray e array ≡ₚ array.
Proof. apply shuffle_from_Permutation. Qed.

(** [Math.random()] is in [0, 1). *)
Lemma Math_random_value_range e k :
  (0 <= Math_random_value e k)%Q ∧ (Math_random_value e k < 1)%Q.
Proof.
  unfold Math_random_value.
  pose proof (Z.mod_pos_bound (Z.of_N (Math_random e k)) (2 ^ 53) eq_refl) as [H0 H1].
  split; unfold Qle, Qlt; simpl; lia.
Qed.

Lemma shareAllKeys_delay_range e k :
  (inject_Z 500 <= Math_random_value e k * inject_Z 1000 + inject_Z 500)%Q
  ∧ (Math_random_value e k * inject_Z 1000 + inject_Z 500 < inject_Z 1500)%Q.
Proof.
  unfold Math_random_value.
  pose proof (Z.mod_pos_bound (Z.of_N (Math_random e k)) (2 ^ 53) eq_refl) as [H0 H1].
  split; unfold Qle, Qlt, Qplus, Qmult, inject_Z; simpl; lia.
Qed.

Lemma enterConsensusPhase_timers `{Runtime} e now s r roundKeys :
  currentRound s = Some r → Round.phase r = VOTING →
  voteKeys s !! Round.id r = Some roundKeys →
  let allKeys := (λ p : string * KeyData, (p.1, kd_key p.2)) <$> roundKeys in
  timers (enterConsensusPhase e now s)
  = timers s
    ++ [mkTimer (nextTimer s) (cb_broadcastKeys (shuffleArray e allKeys)) now
          (Math_random_value e (length allKeys - 1) * inject_Z 1000 + inject_Z 500)%Q;
        mkTimer (S (nextTimer s)) cb_checkIfReadyToPropose now (inject_Z 10000)]
  ∧ effects (enterConsensusPhase e now s)
    = effects s ++ [Notify (GUI_PHASE_CHANGE CONSENSUS (Round.id r)) (JsMap.values (guiClients s))].
Proof.
  intros Hr Hph Hk allKeys. unfold enterConsensusPhase. rewrite Hr.
  rewrite bool_decide_eq_false_2 by (by intros []). cbv zeta.
  unfold shareAllKeys, update_round. cbn. rewrite Hr. cbn.
  rewrite Hk. cbn. by rewrite <- app_assoc.
Qed.

(** C3. In every state that the node reaches from its start, while the
    current round is in VOTING its key map holds only entries written by
    this node's own [castVote] (each accepted vote stores the pair for
    the ballot it encrypts).  Entering CONSENSUS then arms one callback
    that carries the Fisher-Yates shuffle of all those
    (anonymousVoteId, key) pairs, a permutation of them, with a delay of
    at least 500 ms and less than 1500 ms, and broadcasts nothing yet;
    when it runs, the callback broadcasts a single BATCH_VOTE_KEYS frame
    with that list under the node's own name. *)
Theorem key_batch_is_own `{Runtime} nodeId0 port0 knownPeers0 schedule :
  ∃ s, run schedule (init nodeId0 port0 knownPeers0) = Some s
       ∧ ∀ r, currentRound s = Some r → Round.phase r = VOTING →
           ∃ roundKeys,
             voteKeys s !! Round.id r = Some roundKeys
             ∧ Forall (own_key nodeId0) roundKeys
             ∧ (∀ e now choice,
                  ¬ castVote_rejects choice s →
                  let ev := encryptVote e now choice (Round.id r) in
                  voteKeys (castVote e now choice s) !! Round.id r
                  = Some [(anonymousVoteId ev, mkKeyData (key ev) (Some nodeId0) None)])
             ∧ ∀ e now,
                 ∃ keys d,
                   keys = shuffleArray e ((λ p, (p.1, kd_key p.2)) <$> roundKeys)
                   ∧ keys ≡ₚ (λ p, (p.1, kd_key p.2)) <$> roundKeys
                   ∧ (inject_Z 500 <= d)%Q ∧ (d < inject_Z 1500)%Q
                   ∧ timers (enterConsensusPhase e now s)
                     = timers s
                       ++ [mkTimer (nextTimer s) (cb_broadcastKeys keys) now d;
                           mkTimer (S (nextTimer s)) cb_checkIfReadyToPropose now
                             (inject_Z 10000)]
                   ∧ effects (enterConsensusPhase e now s)
                     = effects s
                       ++ [Notify (GUI_PHASE_CHANGE CONSENSUS (Round.id r))
                             (JsMap.values (guiClients s))]
                   ∧ ∀ e' now' s2 r2,
                       currentRound s2 = Some r2 →
                       run_callback e' now' (cb_broadcastKeys keys) s2
                       = Some (broadcast (BATCH_VOTE_KEYS (Round.id r2) keys (nodeId s2)) s2).
Proof.
  destruct (run_well_formed schedule (init nodeId0 port0 knownPeers0))
    as (s & Hrun & Hwf & Hn); [apply init_well_formed|].
  pose proof (run_keys_are_own schedule _ s (init_keys_are_own nodeId0 port0 knownPeers0) Hrun)
    as Hown.
  cbn in Hn. exists s. split; [done|]. intros r Hr Hph.
  destruct (Hown r Hr Hph) as (roundKeys & Hk & Hall & Hnil). rewrite Hn in Hall.
  exists roundKeys. split_and!; [done | done | |].
  - intros e now choice Hacc ev.
    destruct (castVote_accepted e now choice s Hacc) as (r' & Hr' & _ & Hv & ->).
    assert (r' = r) as -> by congruence.
    rewrite (Hnil Hv) in Hk. unfold cast_ballot. cbn.
    rewrite lookup_round_map_set, decide_True by done.
    rewrite lookup_ensure_round_map, decide_True by done.
    rewrite Hk. cbn. by rewrite Hn.
  - intros e now.
    destruct (enterConsensusPhase_timers e now s r roundKeys Hr Hph Hk) as [Ht He].
    eexists _, _. split_and!; [reflexivity | apply shuffleArray_Permutation | | | exact Ht | exact He |].
    + apply shareAllKeys_delay_range.
    + apply shareAllKeys_delay_range.
    + intros e' now' s2 r2 Hr2. cbn. unfold broadcastKeys. by rewrite Hr2.
Qed.

Lemma key_batch_is_own_witness :
  ∃ s, run (H := Reference.runtime)
         [(Reference.entropy, 1000, In_start "topic" None (JsNumber (inject_Z 60)));
          (Reference.entropy, 2000, In_vote "yes")] (init "alice" 3001 []) = Some s
       ∧ ∃ r roundKeys,
           currentRound s = Some r
           ∧ voteKeys s !! Round.id r = Some roundKeys
           ∧ Forall (own_key "alice") roundKeys.
Proof.
  destruct (key_batch_is_own (H := Reference.runtime) "alice" 3001 []
              [(Reference.entropy, 1000, In_start "topic" None (JsNumber (inject_Z 60)));
               (Reference.entropy, 2000, In_vote "yes")]) as (s & Hrun & Hs).
  exists s. split; [exact Hrun|].
  assert (∃ r, currentRound s = Some r ∧ Round.phase r = VOTING) as (r & Hr & Hph).
  { vm_compute in Hrun. apply (inj Some) in Hrun. subst s. eexists. split; reflexivity. }
  destruct (Hs r Hr Hph) as (roundKeys & Hk & Hall & _).
  by exists r, roundKeys.
Defined.
(** ** Joining a round announced by a peer *)

Lemma handleRoundStart_accepted now message s :
  (currentRound s = None
   ∨ ∃ r, currentRound s = Some r ∧ Round.startTime r < rs_startTime message) →
  let seconds :=
    match rs_votingTimeSeconds message with
    | Some v => if Qeq_bool v 0 then inject_Z 100 else v
    | None => inject_Z 100
    end in
  let elapsed := now - rs_startTime message in
  let s' := handleRoundStart now message s in
  currentRound s'
  = Some (Round.mk (rs_roundId message) (rs_topic message) (rs_allowedChoices message)
            (rs_startTime message) (double_mul seconds (inject_Z 1000)) seconds VOTING
            None false ∅ (Some (nextTimer s)) (Some (S (nextTimer s))))
  ∧ timers s'
    = timers s
      ++ [mkTimer (nextTimer s) cb_enterConsensusPhase now
            (Math_max (inject_Z 100) (inject_Z (consensusDelay_of seconds - elapsed)));
          mkTimer (S (nextTimer s)) cb_finishRound now
            (Math_max (inject_Z 100)
               (to_double (double_mul seconds (inject_Z 1000) - inject_Z elapsed)))].
Proof.
  intros Hacc seconds elapsed s'. unfold s', handleRoundStart.
  assert (match currentRound s with
          | Some r => bool_decide (Round.startTime r < rs_startTime message)
          | None => true
          end = true) as ->.
  { destruct Hacc as [->|(r & -> & Hlt)]; [done | by apply bool_decide_eq_true_2]. }
  cbv zeta. fold seconds. fold elapsed. split.
  - by rewrite arm_round_timers_currentRound.
  - by rewrite arm_round_timers_timers.
Qed.

Lemma handleRoundStart_ignored now message s r :
  currentRound s = Some r → rs_startTime message ≤ Round.startTime r →
  handleRoundStart now message s = s.
Proof.
  intros Hr Hle. unfold handleRoundStart. rewrite Hr.
  by rewrite bool_decide_eq_false_2 by lia.
Qed.

(** C7.  What [handleRoundStart] does.  A ROUND_START is accepted iff
    there is no current round or its [startTime] is later than the
    current round's; otherwise the node is left as it was.  On
    acceptance the current round is a fresh VOTING round and two timers
    are armed for it, with the remaining time and at least 100 ms each.
    But every timer that was pending stays pending, those of the
    replaced round included, and their callbacks act on whatever round
    is current.  In the run below the node starts a round of 100 s at
    time 1000 and joins a peer's round of 100 s, started at 50000, at
    time 50005: the first round's CONSENSUS timer, due at 81000, moves
    the new round to CONSENSUS then (its own timer is due at 130000),
    and the first round's FINISH timer finishes it at 101000. *)
Theorem replaced_round_timers_still_fire :
  (∀ now message s,
     (currentRound s = None
      ∨ ∃ r, currentRound s = Some r ∧ Round.startTime r < rs_startTime message) →
     ∃ r', currentRound (handleRoundStart now message s) = Some r'
           ∧ Round.id r' = rs_roundId message ∧ Round.phase r' = VOTING
           ∧ ∃ consensusDelay finishDelay,
               timers (handleRoundStart now message s)
               = timers s
                 ++ [mkTimer (nextTimer s) cb_enterConsensusPhase now consensusDelay;
                     mkTimer (S (nextTimer s)) cb_finishRound now finishDelay]
               ∧ (inject_Z 100 <= consensusDelay)%Q ∧ (inject_Z 100 <= finishDelay)%Q)
  ∧ (∀ now message s r,
       currentRound s = Some r → rs_startTime message ≤ Round.startTime r →
       handleRoundStart now message s = s)
  ∧ (let announcement :=
       mkRoundStartMessage "round_50000_bob" "topic" None (Some (inject_Z 100)) 50000 "bob" in
     let joined :=
       run (H := Reference.runtime)
         [(Reference.entropy, 1000, In_start "topic" None (JsNumber (inject_Z 100)));
          (Reference.entropy, 50005, In_message true 1%nat None (ROUND_START announcement))]
         (init "alice" 3001 []) in
     (round_key <$> joined = Some (Some ("round_50000_bob", VOTING))
      ∧ timers <$> joined
        = Some [mkTimer 0 cb_enterConsensusPhase 1000 (inject_Z 80000);
                mkTimer 1 cb_finishRound 1000 (inject_Z 100000);
                mkTimer 2 cb_enterConsensusPhase 50005 (inject_Z 79995);
                mkTimer 3 cb_finishRound 50005 (inject_Z 99995)])
     ∧ round_key
         <$> (joined ≫= step (H := Reference.runtime) Reference.entropy 81000 (In_timer 0))
       = Some (Some ("round_50000_bob", CONSENSUS))
     ∧ round_key
         <$> (joined ≫= step (H := Reference.runtime) Reference.entropy 101000 (In_timer 1))
       = Some (Some ("round_50000_bob", FINISHED))).
Proof.
  refine (conj _ (conj _ (conj (conj _ _) (conj _ _)))).
  - intros now message s Hacc.
    destruct (handleRoundStart_accepted now message s Hacc) as [Hr Ht].
    eexists. split; [exact Hr|]. split; [done|]. split; [done|].
    eexists _, _. split; [exact Ht|].
    unfold Math_max. split.
    + destruct (Qle_bool _ _) eqn:Hle; [by apply Qle_bool_iff in Hle | apply Qle_refl].
    + destruct (Qle_bool _ _) eqn:Hle; [by apply Qle_bool_iff in Hle | apply Qle_refl].
  - apply handleRoundStart_ignored.
  - vm_compute. reflexivity.
  - vm_compute. reflexivity.
  - vm_compute. reflexivity.
  - vm_compute. reflexivity.
Qed.
(** * Further properties of the node *)

(** Storing a ballot.  [handleEncryptedVote] leaves the node as it was
    unless the ballot names the current round and that round is in
    VOTING.  Otherwise the round's ballot map answers the ballot's
    [anonymousVoteId] with this ballot, whatever its signature: a ballot
    whose id is already stored replaces the stored one and the map keeps
    its size, a new id makes the map one larger; every other id, every
    other round, the decrypted votes and the keys stay as they were, and
    nothing is sent. *)
Theorem encrypted_vote_stored `{Runtime} message s :
  (¬ (∃ r, currentRound s = Some r ∧ ev_roundId message = Round.id r
           ∧ Round.phase r = VOTING) →
   handleEncryptedVote message s = s)
  ∧ (∀ r, currentRound s = Some r → ev_roundId message = Round.id r →
          Round.phase r = VOTING →
          let s' := handleEncryptedVote message s in
          let before := default [] (encryptedVotes s !! Round.id r) in
          ∃ after,
            encryptedVotes s' !! Round.id r = Some after
            ∧ JsMap.get (ev_anonymousVoteId message) after = Some message
            ∧ (∀ k, k ≠ ev_anonymousVoteId message → JsMap.get k after = JsMap.get k before)
            ∧ JsMap.size after
              = (if JsMap.has (ev_anonymousVoteId message) before
                 then JsMap.size before else JsMap.size before + 1)
            ∧ (∀ roundId, roundId ≠ Round.id r →
                          encryptedVotes s' !! roundId = encryptedVotes s !! roundId)
            ∧ votes s' = votes s ∧ voteKeys s' = voteKeys s
            ∧ currentRound s' = currentRound s ∧ effects s' = effects s).
Proof.
  split.
  - intros Hno. unfold handleEncryptedVote.
    destruct (currentRound s) as [r|] eqn:Hr; [|done].
    destruct (decide (ev_roundId message = Round.id r)) as [Hid|Hid];
      [|by rewrite bool_decide_eq_true_2].
    rewrite bool_decide_eq_false_2 by (by intros []).
    destruct (decide (Round.phase r = VOTING)) as [Hph|Hph];
      [|by rewrite bool_decide_eq_true_2].
    destruct Hno. by exists r.
  - intros r Hr Hid Hph s' before. unfold s', handleEncryptedVote. rewrite Hr.
    rewrite bool_decide_eq_false_2 by (by intros []).
    rewrite bool_decide_eq_false_2 by (by intros []).
    cbn. exists (JsMap.set (ev_anonymousVoteId message) message before).
    split_and!; try done.
    + rewrite lookup_round_map_set, decide_True by done.
      by rewrite lookup_ensure_round_map, decide_True by done.
    + apply JsMapFacts.get_set_eq.
    + intros k Hk. by apply JsMapFacts.get_set_ne.
    + unfold JsMap.size. rewrite JsMapFacts.length_set.
      destruct (JsMap.has _ before); lia.
    + intros roundId Hne. rewrite lookup_round_map_set, decide_False by done.
      by rewrite lookup_ensure_round_map, decide_False by done.
Qed.
(** ** Keys *)

Section KeyFrame.
  Context `{Runtime}.

Lemma decryptAndProcessVotes_voteKeys s :
    voteKeys (decryptAndProcessVotes s) = voteKeys s.
  Proof.
    unfold decryptAndProcessVotes. destruct (currentRound s) as [r|]; [|done].
    cbv zeta. by destruct (encryptedVotes s !! Round.id r), (voteKeys s !! Round.id r).
  Qed.

Lemma checkForConsensus_voteKeys now s : voteKeys (checkForConsensus now s) = voteKeys s.
  Proof.
    unfold checkForConsensus. destruct (currentRound s) as [r|]; [|done].
    destruct (_ || _); [done|]. case_bool_decide; [|done].
    by destruct (Round.finishTimeout r).
  Qed.

Lemma proposeResults_voteKeys now s s' :
    proposeResults now s = Some s' → voteKeys s' = voteKeys s.
  Proof.
    unfold proposeResults. destruct (currentRound s) as [r|]; [|by intros [= <-]].
    destruct (_ || _); [by intros [= <-]|]. cbv zeta.
    destruct (calculateResults _); [|done]. cbn [mbind option_bind].
    destruct (votes _ !! _); [|done]. cbn [mbind option_bind].
    intros [= <-]. rewrite checkForConsensus_voteKeys.
    unfold update_round, broadcast, emit. cbn [voteKeys set_currentRound set_effects].
    by rewrite decryptAndProcessVotes_voteKeys.
  Qed.

Lemma checkIfReadyToPropose_voteKeys now s s' :
    checkIfReadyToPropose now s = Some s' → voteKeys s' = voteKeys s.
  Proof.
    unfold checkIfReadyToPropose. destruct (currentRound s) as [r|]; [|by intros [= <-]].
    destruct (_ || _); [by intros [= <-]|].
    destruct (encryptedVotes s !! Round.id r); [|by intros [= <-]].
    destruct (voteKeys s !! Round.id r); [|by intros [= <-]]. cbv zeta.
    destruct (_ && _); [|by intros [= <-]].
    destruct (negb _); [by intros [= <-]|]. apply proposeResults_voteKeys.
  Qed.

Lemma after_new_keys_voteKeys now s s' :
    after_new_keys now s = Some s' → voteKeys s' = voteKeys s.
  Proof.
    unfold after_new_keys. cbv zeta. destruct (negb _).
    - intros Hs. apply checkIfReadyToPropose_voteKeys in Hs.
      by rewrite Hs, decryptAndProcessVotes_voteKeys.
    - intros [= <-]. apply decryptAndProcessVotes_voteKeys.
  Qed.

  (** The loop over a key batch keeps what was stored and stores, for
      an id that was not, the first key the batch gives for it. *)
Lemma store_batch_key_fold from keys m n :
    (∀ k kd, JsMap.get k m = Some kd →
             JsMap.get k (foldl (store_batch_key from) (m, n) keys).1 = Some kd)
    ∧ (∀ k, JsMap.get k m = None →
            JsMap.get k (foldl (store_batch_key from) (m, n) keys).1
            = (λ key, mkKeyData key None (Some from)) <$> JsMap.get k keys).
  Proof.
    revert m n. induction keys as [|[id key] keys IH]; intros m n; cbn [foldl].
    - by split.
    - unfold store_batch_key at 2 4. cbn [fst snd].
      destruct (JsMap.has id m) eqn:Hhas; cbn [negb].
      + destruct (IH m n) as (Hkeep & Hnew). split; [done|].
        intros k Hk. rewrite (Hnew k Hk). cbn [JsMap.get].
        destruct (decide (id = k)) as [->|]; [|done].
        apply JsMapFacts.has_true in Hhas. by apply JsMapFacts.get_None in Hk.
      + apply JsMapFacts.has_false in Hhas.
        destruct (IH (JsMap.set id (mkKeyData key None (Some from)) m) (n + 1))
          as (Hkeep & Hnew).
        split.
        * intros k kd Hk. apply Hkeep. rewrite JsMapFacts.get_set_ne; [done|].
          intros ->. congruence.
        * intros k Hk. cbn [JsMap.get]. destruct (decide (id = k)) as [->|Hne].
          -- cbn. apply Hkeep, JsMapFacts.get_set_eq.
          -- apply Hnew. by rewrite JsMapFacts.get_set_ne.
  Qed.
End KeyFrame.

(** The first key wins.  In CONSENSUS, a BATCH_VOTE_KEYS or VOTE_KEY
    message for the current round never replaces a key the node already
    holds: every id that had a key keeps its entry (the node's own keys
    included), and an id that had none gets the first key the message
    gives for it, recorded with the sender as [keyProvider]. *)
Theorem first_key_wins `{Runtime} now keys anonymousVoteId key from s r :
  currentRound s = Some r → Round.phase r = CONSENSUS →
  let before := default [] (voteKeys s !! Round.id r) in
  (∀ s', handleBatchVoteKeys now (Round.id r) keys from s = Some s' →
         ∃ after,
           voteKeys s' !! Round.id r = Some after
           ∧ (∀ k kd, JsMap.get k before = Some kd → JsMap.get k after = Some kd)
           ∧ (∀ k, JsMap.get k before = None →
                   JsMap.get k after
                   = (λ key, mkKeyData key None (Some from)) <$> JsMap.get k keys))
  ∧ (∀ s', handleVoteKey now (Round.id r) anonymousVoteId key from s = Some s' →
           ∃ after,
             voteKeys s' !! Round.id r = Some after
             ∧ (∀ k kd, JsMap.get k before = Some kd → JsMap.get k after = Some kd)
             ∧ (JsMap.get anonymousVoteId before = None →
                JsMap.get anonymousVoteId after = Some (mkKeyData key None (Some from)))
             ∧ (∀ k, k ≠ anonymousVoteId → JsMap.get k after = JsMap.get k before)).
Proof.
  intros Hr Hph before. split.
  - intros s'. unfold handleBatchVoteKeys. rewrite Hr.
    rewrite bool_decide_eq_false_2 by (by intros []).
    rewrite bool_decide_eq_false_2 by (by intros []). cbv zeta.
    cbn [voteKeys set_voteKeys]. rewrite lookup_ensure_round_map, decide_True by done.
    cbn [default from_option id]. fold before.
    destruct (store_batch_key_fold from keys before 0) as [Hkeep Hnew].
    set (stored := foldl (store_batch_key from) (before, 0) keys) in *.
    intros Hs'.
    assert (voteKeys s' !! Round.id r = Some stored.1) as Hk.
    { case_bool_decide.
      - apply after_new_keys_voteKeys in Hs'. rewrite Hs'. cbn.
        by rewrite lookup_insert_eq.
      - apply (inj Some) in Hs'. subst s'. cbn. by rewrite lookup_insert_eq. }
    by exists stored.1.
  - intros s'. unfold handleVoteKey. rewrite Hr.
    rewrite bool_decide_eq_false_2 by (by intros []).
    rewrite bool_decide_eq_false_2 by (by intros []). cbv zeta.
    cbn [voteKeys set_voteKeys]. rewrite lookup_ensure_round_map, decide_True by done.
    cbn [default from_option id]. fold before.
    destruct (JsMap.has anonymousVoteId before) eqn:Hhas; cbn [negb].
    + intros [= <-]. exists before. cbn.
      rewrite lookup_ensure_round_map, decide_True by done. split_and!; try done.
      apply JsMapFacts.has_true in Hhas. intros Hnone.
      by apply JsMapFacts.get_None in Hnone.
    + intros Hs'. apply after_new_keys_voteKeys in Hs'.
      exists (JsMap.set anonymousVoteId (mkKeyData key None (Some from)) before).
      split_and!.
      * rewrite Hs'. cbn. rewrite lookup_round_map_set, decide_True by done.
        by rewrite lookup_ensure_round_map, decide_True by done.
      * intros k kd Hk. rewrite JsMapFacts.get_set_ne; [done|].
        intros ->. apply JsMapFacts.has_false in Hhas. congruence.
      * intros _. apply JsMapFacts.get_set_eq.
      * intros k Hne. by apply JsMapFacts.get_set_ne.
Qed.

Lemma first_key_wins_witness :
  let s :=
    set_voteKeys {["r1" := [("id1", mkKeyData "mine" (Some "alice") None)]]}
      (Reference.node_with_votes "r1" CONSENSUS []) in
  ∃ s' after,
    handleBatchVoteKeys (H := Reference.runtime) 5 "r1" [("id1", "other"); ("id2", "k2")]
      "bob" s = Some s'
    ∧ voteKeys s' !! "r1" = Some after
    ∧ JsMap.get "id1" after = Some (mkKeyData "mine" (Some "alice") None)
    ∧ JsMap.get "id2" after = Some (mkKeyData "k2" None (Some "bob")).
Proof.
  intros s.
  destruct (first_key_wins (H := Reference.runtime) 5 [("id1", "other"); ("id2", "k2")]
              "" "" "bob" s
              (Round.mk "r1" "topic" None 0 (inject_Z 100000) (inject_Z 100) CONSENSUS
                 None false ∅ None None) eq_refl eq_refl) as [Hbatch _].
  destruct (handleBatchVoteKeys (H := Reference.runtime) 5 "r1"
              [("id1", "other"); ("id2", "k2")] "bob" s) as [s'|] eqn:Hs'; [|by vm_compute in Hs'].
  destruct (Hbatch s' Hs') as (after & Hk & Hkeep & Hnew).
  exists s', after. split_and!; [done | done | by apply Hkeep | by apply Hnew].
Defined.
(** ** Decrypting the ballots *)

Section Decrypting.
  Context `{Runtime}.
  Implicit Types (keys : list (string * KeyData)) (acc : list (string * VoteRecord)).

Lemma decrypt_entry_keeps keys acc entry k v :
    JsMap.get k acc = Some v → JsMap.get k (decrypt_entry keys acc entry) = Some v.
  Proof.
    intros Hk. unfold decrypt_entry. cbv zeta. destruct (JsMap.has entry.1 keys); [|done].
    destruct (JsMap.has entry.1 acc) eqn:Hhas; [done|]. cbn [negb andb].
    destruct (JsMap.get entry.1 keys); [|done]. destruct (decryptVote _ _ _); [|done].
    rewrite JsMapFacts.get_set_ne; [done|].
    intros Heq. apply JsMapFacts.has_false in Hhas. congruence.
  Qed.

Lemma decrypt_fold_keeps keys ballots acc k v :
    JsMap.get k acc = Some v →
    JsMap.get k (foldl (decrypt_entry keys) acc ballots) = Some v.
  Proof.
    revert acc. induction ballots as [|entry ballots IH]; intros acc Hk; [done|].
    cbn [foldl]. by apply IH, decrypt_entry_keeps.
  Qed.

  (** What one pass adds was decrypted from a ballot with its key. *)
Lemma decrypt_fold_sound keys ballots acc k v :
    JsMap.get k (foldl (decrypt_entry keys) acc ballots) = Some v →
    JsMap.get k acc = Some v
    ∨ ∃ ballot kd,
        (k, ballot) ∈ ballots ∧ JsMap.get k keys = Some kd
        ∧ decryptVote (ev_encryptedData ballot) (kd_key kd) (ev_iv ballot) = Some v.
  Proof.
    revert acc. induction ballots as [|[id ballot] ballots IH]; intros acc; [by left|].
    cbn [foldl]. intros [Hacc|(b & kd & Hin & Hkd & Hd)]%IH.
    - unfold decrypt_entry in Hacc. cbv zeta in Hacc. cbn [fst snd] in Hacc.
      destruct (JsMap.has id keys); [|by left].
      destruct (JsMap.has id acc); [by left|]. cbn [negb andb] in Hacc.
      destruct (JsMap.get id keys) as [kd|] eqn:Hkd; [|by left].
      destruct (decryptVote _ _ _) as [record|] eqn:Hd; [|by left].
      destruct (decide (id = k)) as [->|Hne].
      + rewrite JsMapFacts.get_set_eq in Hacc. injection Hacc as ->.
        right. exists ballot, kd. split_and!; [by left | done | done].
      + rewrite JsMapFacts.get_set_ne in Hacc by done. by left.
    - right. exists b, kd. split_and!; [by right | done | done].
  Qed.

  (** After one pass every ballot that has a key under which it
      decrypts has a decrypted vote. *)
Lemma decrypt_fold_complete keys ballots acc k ballot kd v :
    (k, ballot) ∈ ballots → JsMap.get k keys = Some kd →
    decryptVote (ev_encryptedData ballot) (kd_key kd) (ev_iv ballot) = Some v →
    is_Some (JsMap.get k (foldl (decrypt_entry keys) acc ballots)).
  Proof.
    intros Hin Hkd Hd. revert acc.
    induction ballots as [|[id b] ballots IH]; intros acc; [by apply elem_of_nil in Hin|].
    cbn [foldl]. apply elem_of_cons in Hin as [[= <- <-]|Hin]; [|by apply IH].
    assert (is_Some (JsMap.get k (decrypt_entry keys acc (k, ballot)))) as [v' Hv'].
    { unfold decrypt_entry. cbv zeta. cbn [fst snd].
      assert (JsMap.has k keys = true) as ->.
      { apply bool_decide_eq_true_2. by eauto. }
      destruct (JsMap.has k acc) eqn:Hhas; cbn [negb andb].
      - by apply bool_decide_eq_true in Hhas.
      - rewrite Hkd, Hd. rewrite JsMapFacts.get_set_eq. by eauto. }
    exists v'. by apply decrypt_fold_keeps.
  Qed.

  (** A pass over ballots that are all decrypted already changes
      nothing. *)
Lemma decrypt_fold_fixed keys ballots acc :
    (∀ k ballot kd v,
       (k, ballot) ∈ ballots → JsMap.get k keys = Some kd →
       decryptVote (ev_encryptedData ballot) (kd_key kd) (ev_iv ballot) = Some v →
       is_Some (JsMap.get k acc)) →
    foldl (decrypt_entry keys) acc ballots = acc.
  Proof.
    induction ballots as [|[id b] ballots IH]; intros Hall; [done|].
    cbn [foldl].
    assert (decrypt_entry keys acc (id, b) = acc) as ->.
    { unfold decrypt_entry. cbv zeta. cbn [fst snd]. destruct (JsMap.has id keys); [|done].
      destruct (JsMap.has id acc) eqn:Hhas; [done|]. cbn [negb andb].
      destruct (JsMap.get id keys) as [kd|] eqn:Hkd; [|done].
      destruct (decryptVote _ _ _) as [v|] eqn:Hd; [|done].
      apply JsMapFacts.has_false in Hhas.
      destruct (Hall id b kd v) as [? ?]; [by left | done | done | congruence]. }
    apply IH. intros k ballot kd v Hin. apply Hall. by right.
  Qed.
End Decrypting.

(** Decrypting settles.  [decryptAndProcessVotes] run a second time
    changes nothing.  Where the current round has a ballot map and a key
    map, one run keeps every vote that was already decrypted, adds only
    votes decrypted from a stored ballot with the key held for its id,
    and leaves no ballot undecrypted that has a key under which it
    decrypts. *)
Theorem decryptAndProcessVotes_settles `{Runtime} :
  (∀ s, decryptAndProcessVotes (decryptAndProcessVotes s) = decryptAndProcessVotes s)
  ∧ (∀ s r ballots keys,
       currentRound s = Some r →
       encryptedVotes s !! Round.id r = Some ballots →
       voteKeys s !! Round.id r = Some keys →
       let before := default [] (votes s !! Round.id r) in
       ∃ after,
         votes (decryptAndProcessVotes s) !! Round.id r = Some after
         ∧ (∀ k v, JsMap.get k before = Some v → JsMap.get k after = Some v)
         ∧ (∀ k v, JsMap.get k after = Some v →
                   JsMap.get k before = Some v
                   ∨ ∃ ballot kd,
                       (k, ballot) ∈ ballots ∧ JsMap.get k keys = Some kd
                       ∧ decryptVote (ev_encryptedData ballot) (kd_key kd) (ev_iv ballot)
                         = Some v)
         ∧ (∀ k ballot kd v,
              (k, ballot) ∈ ballots → JsMap.get k keys = Some kd →
              decryptVote (ev_encryptedData ballot) (kd_key kd) (ev_iv ballot) = Some v →
              is_Some (JsMap.get k after))).
Proof.
  split.
  - intros s. unfold decryptAndProcessVotes at 2.
    destruct (currentRound s) as [r|] eqn:Hr; [|unfold decryptAndProcessVotes; by rewrite Hr].
    cbv zeta.
    destruct (encryptedVotes s !! Round.id r) as [ballots|] eqn:Hb;
      [|unfold decryptAndProcessVotes; by rewrite Hr, Hb].
    destruct (voteKeys s !! Round.id r) as [keys|] eqn:Hk;
      [|unfold decryptAndProcessVotes; by rewrite Hr, Hb, Hk].
    cbn [votes set_votes]. rewrite lookup_ensure_round_map, decide_True by done.
    cbn [default from_option id].
    set (before := default [] (votes s !! Round.id r)).
    set (after := foldl (decrypt_entry keys) before ballots).
    unfold decryptAndProcessVotes. cbn [currentRound encryptedVotes voteKeys set_votes].
    rewrite Hr. cbv zeta. rewrite Hb, Hk. cbn [votes set_votes].
    assert (ensure_round_map (Round.id r)
              (<[Round.id r := after]> (ensure_round_map (Round.id r) (votes s)))
            = <[Round.id r := after]> (ensure_round_map (Round.id r) (votes s))) as ->.
    { unfold ensure_round_map at 1. by rewrite lookup_insert_eq. }
    rewrite lookup_insert_eq. cbn [default from_option id].
    rewrite (decrypt_fold_fixed keys ballots after).
    + rewrite insert_insert_eq.
      rewrite lookup_ensure_round_map, decide_True by done. reflexivity.
    + intros k ballot kd v Hin Hkd Hd. by eapply decrypt_fold_complete.
  - intros s r ballots keys Hr Hb Hk before. unfold decryptAndProcessVotes.
    rewrite Hr. cbv zeta. rewrite Hb, Hk. cbn [votes set_votes].
    rewrite lookup_insert_eq, lookup_ensure_round_map, decide_True by done.
    cbn [default from_option id]. fold before.
    exists (foldl (decrypt_entry keys) before ballots). split_and!; [done| | |].
    + intros k v. apply decrypt_fold_keeps.
    + intros k v. apply decrypt_fold_sound.
    + intros k ballot kd v. apply decrypt_fold_complete.
Qed.
(** ** Proposing the tally *)

Section Proposing.
  Context `{Runtime}.

Lemma decryptAndProcessVotes_frame s :
    let s' := decryptAndProcessVotes s in
    effects s' = effects s ∧ resultProposed s' = resultProposed s
    ∧ nodeId s' = nodeId s ∧ peers s' = peers s ∧ activePeers s' = activePeers s
    ∧ guiClients s' = guiClients s.
  Proof.
    unfold decryptAndProcessVotes. destruct (currentRound s) as [r|]; [|done]. cbv zeta.
    by destruct (encryptedVotes s !! Round.id r), (voteKeys s !! Round.id r).
  Qed.

Lemma decryptAndProcessVotes_votes s r :
    currentRound s = Some r → is_Some (votes s !! Round.id r) →
    is_Some (votes (decryptAndProcessVotes s) !! Round.id r).
  Proof.
    intros Hr Hv. unfold decryptAndProcessVotes. rewrite Hr. cbv zeta.
    destruct (encryptedVotes s !! Round.id r); [|done].
    destruct (voteKeys s !! Round.id r); [|done].
    cbn. rewrite lookup_insert_eq. by eauto.
  Qed.

Lemma checkForConsensus_frame now s :
    effects (checkForConsensus now s) = effects s
    ∧ resultProposed (checkForConsensus now s) = resultProposed s
    ∧ (∀ r, currentRound s = Some r →
            ∃ r', currentRound (checkForConsensus now s) = Some r'
                  ∧ Round.phase r' = Round.phase r
                  ∧ Round.id r' = Round.id r
                  ∧ Round.consensusNodes r' = Round.consensusNodes r).
  Proof.
    unfold checkForConsensus. destruct (currentRound s) as [r|] eqn:Hr; [|by split_and!].
    destruct (_ || _);
      [split_and!; [done | done | intros r' [= <-]; exists r; by split_and!]|].
    case_bool_decide;
      [|split_and!; [done | done | intros r' [= <-]; exists r; by split_and!]].
    cbv zeta. split_and!.
    - by destruct (Round.finishTimeout r).
    - by destruct (Round.finishTimeout r).
    - intros r' [= <-]. exists (Round.with_consensusAchieved true r).
      split; [|by destruct r]. unfold update_round. rewrite Hr.
      by destruct (Round.finishTimeout r).
  Qed.
End Proposing.

(** ** Peer exchange *)

Section PeerExchange.
  Context `{Runtime}.

Lemma processPeerExchange_loop_spec now receivedPeers n s :
    0 ≤ n < 3 →
    let s' := processPeerExchange_loop now receivedPeers n s in
    ∃ added new,
      knownPeers s' = knownPeers s ++ added
      ∧ timers s' = timers s ++ new
      ∧ (Z.of_nat (length added) ≤ 3 - n)
      ∧ callback <$> new = (λ hp, cb_connectToPeer hp.1 hp.2) <$> added
      ∧ delay <$> new
        = (λ i, inject_Z ((n + Z.of_nat i) * 2000)) <$> seq 0 (length added)
      ∧ Forall (λ hp : string * Z,
                  (hp ∉ knownPeers s) ∧ (hp ≠ ("localhost", port s))
                  ∧ (hp.1 ≠ "") ∧ (hp.2 ≠ 0)) added
      ∧ NoDup added
      ∧ nodeId s' = nodeId s ∧ port s' = port s ∧ peers s' = peers s
      ∧ activePeers s' = activePeers s ∧ currentRound s' = currentRound s
      ∧ effects s' = effects s.
  Proof.
    revert n s. induction receivedPeers as [|peerInfo rest IH]; intros n s Hn; cbn zeta.
    { exists [], []. rewrite !app_nil_r. split_and!; try done; [cbn; lia | constructor]. }
    cbn [processPeerExchange_loop]. cbv zeta.
    specialize (IH n s Hn) as Hskip. cbv zeta in Hskip.
    case_bool_decide as Hself; [exact Hskip|].
    destruct (match pi_nodeId peerInfo with Some _ => _ | None => _ end); [exact Hskip|].
    destruct (pi_host peerInfo) as [host|]; [|exact Hskip].
    destruct (pi_port peerInfo) as [peerPort|]; [|exact Hskip].
    destruct (negb (truthy_string host) || negb (truthy_Z peerPort)) eqn:Htruthy;
      [exact Hskip|].
    case_bool_decide as Hknown; [exact Hskip|].
    destruct (bool_decide (host = "localhost") && bool_decide (peerPort = port s)) eqn:Hown;
      [exact Hskip|].
    apply orb_false_iff in Htruthy as [Hh Hp].
    apply negb_false_iff, bool_decide_eq_true in Hh.
    apply negb_false_iff, bool_decide_eq_true in Hp.
    assert ((host, peerPort) ≠ ("localhost", port s)) as Hown'.
    { intros [= -> ->]. by rewrite !bool_decide_eq_true_2 in Hown. }
    set (s1 := (setTimeout _ _ now (set_knownPeers _ s)).2).
    destruct (bool_decide (3 ≤ n + 1)) eqn:Hlimit;
      [apply bool_decide_eq_true in Hlimit | apply bool_decide_eq_false in Hlimit].
    - exists [(host, peerPort)],
        [mkTimer (nextTimer s) (cb_connectToPeer host peerPort) now (inject_Z (n * 2000))].
      split_and!; try done.
      + cbn. lia.
      + cbn. do 3 f_equal. lia.
      + by repeat constructor.
      + apply NoDup_singleton.
    - destruct (IH (n + 1) s1) as
        (added & new & Hk & Ht & Hlen & Hcb & Hd & Hall & Hnd & Hrest); [lia|].
      exists ((host, peerPort) :: added),
        (mkTimer (nextTimer s) (cb_connectToPeer host peerPort) now (inject_Z (n * 2000))
         :: new).
      split_and!.
      + rewrite Hk. unfold s1. cbn. by rewrite <- app_assoc.
      + rewrite Ht. unfold s1. cbn. by rewrite <- app_assoc.
      + cbn [length]. lia.
      + cbn. by rewrite Hcb.
      + cbn [length]. rewrite <- cons_seq, <- fmap_S_seq. cbn. rewrite Hd.
        rewrite <- list_fmap_compose. f_equal; [do 2 f_equal; lia|].
        apply list_fmap_ext. intros i x _. cbn. do 2 f_equal. lia.
      + constructor; [done|]. eapply Forall_impl; [exact Hall|].
        intros hp (Hnot & Hne & Hh' & Hp'). unfold s1 in Hnot, Hne. cbn in Hnot, Hne.
        split_and!; try done. intros Hin. apply Hnot. apply elem_of_app. by left.
      + constructor; [|done]. intros Hin.
        rewrite Forall_forall in Hall. destruct (Hall _ Hin) as [Hnot _].
        apply Hnot. unfold s1. cbn. apply elem_of_app. right. by left.
      + by destruct Hrest as (-> & _).
      + by destruct Hrest as (_ & -> & _).
      + by destruct Hrest as (_ & _ & -> & _).
      + by destruct Hrest as (_ & _ & _ & -> & _).
      + by destruct Hrest as (_ & _ & _ & _ & -> & _).
      + by destruct Hrest as (_ & _ & _ & _ & _ & ->).
  Qed.
End PeerExchange.

(** Peer exchange is bounded.  Whatever list of peers a message
    carries, [processPeerExchange] appends at most three addresses to
    [knownPeers] and arms one connection attempt for each, 0, 2000 and
    4000 ms later.  An address it adds has a host and a port, was not
    known before, is not the node's own [localhost] address and is added
    once; so a list of known peers without repetition stays without
    repetition.  Peers, active peers, the round and what was sent are
    untouched. *)
Theorem processPeerExchange_bounded `{Runtime} now receivedPeers s :
  let s' := processPeerExchange now receivedPeers s in
  ∃ added new,
    knownPeers s' = knownPeers s ++ added
    ∧ timers s' = timers s ++ new
    ∧ (length added ≤ 3)%nat
    ∧ callback <$> new = (λ hp, cb_connectToPeer hp.1 hp.2) <$> added
    ∧ delay <$> new = (λ i, inject_Z (Z.of_nat i * 2000)) <$> seq 0 (length added)
    ∧ Forall (λ hp : string * Z,
                (hp ∉ knownPeers s) ∧ (hp ≠ ("localhost", port s))
                ∧ (hp.1 ≠ "") ∧ (hp.2 ≠ 0)) added
    ∧ (NoDup (knownPeers s) → NoDup (knownPeers s'))
    ∧ peers s' = peers s ∧ activePeers s' = activePeers s
    ∧ currentRound s' = currentRound s ∧ effects s' = effects s.
Proof.
  intros s'.
  destruct (processPeerExchange_loop_spec now receivedPeers 0 s)
    as (added & new & Hk & Ht & Hlen & Hcb & Hd & Hall & Hnd & _ & _ & Hp & Ha & Hr & He);
    [lia|].
  exists added, new.
  split_and!; [done | done | lia | done | | done | | done | done | done | done].
  - rewrite Hd. apply list_fmap_ext. intros i x _. cbn. do 2 f_equal.
  - intros Hnd0. unfold s', processPeerExchange. rewrite Hk. apply NoDup_app. split_and!; [done | | done].
    intros hp Hin Hin'. rewrite Forall_forall in Hall. by destruct (Hall hp Hin').
Qed.
(** ** Every vote is counted once *)

Section Counting.
  Context `{Runtime}.

Lemma sum_values_set k (v : Z) (m : list (string * Z)) :
    foldr Z.add 0 (JsMap.set k v m).*2
    = foldr Z.add 0 m.*2 - default 0 (JsMap.get k m) + v.
  Proof.
    induction m as [|[k' v'] m IH]; cbn; [lia|].
    destruct (decide (k' = k)); cbn; [lia|]. rewrite IH. lia.
  Qed.

Lemma sum_tally votes tally :
    foldr Z.add 0 (foldl tally_vote tally votes).*2
    = foldr Z.add 0 tally.*2 + Z.of_nat (length votes).
  Proof.
    revert tally. induction votes as [|v votes IH]; intros tally; cbn [foldl length]; [lia|].
    rewrite IH. unfold tally_vote. rewrite sum_values_set. lia.
  Qed.
End Counting.

(** No vote is lost and none is counted twice: the counts of the tally
    that [calculateResults] returns add up to the number of decrypted
    votes, every entry of the tally has at least one vote, and the tally
    of an empty map is empty. *)
Theorem tally_counts_every_vote `{Runtime} (roundVotes : list (string * VoteRecord)) :
  foldr Z.add 0 (count <$> calculateResultsOf roundVotes) = JsMap.size roundVotes
  ∧ Forall (λ entry, 1 ≤ count entry) (calculateResultsOf roundVotes)
  ∧ (calculateResultsOf roundVotes = [] ↔ roundVotes = []).
Proof.
  assert (foldr Z.add 0 (count <$> calculateResultsOf roundVotes) = JsMap.size roundVotes)
    as Hsum.
  { unfold calculateResultsOf. rewrite <- list_fmap_compose.
    change (foldr Z.add 0 (Array_sort compareEntries
                             (foldl tally_vote [] (JsMap.values roundVotes))).*2
            = JsMap.size roundVotes).
    assert (∀ l l' : list Z, l ≡ₚ l' → foldr Z.add 0 l = foldr Z.add 0 l') as Hperm.
    { induction 1; cbn; lia. }
    rewrite (Hperm _ (foldl tally_vote [] (JsMap.values roundVotes)).*2)
      by (by rewrite Array_sort_Permutation).
    rewrite sum_tally. unfold JsMap.values, JsMap.size. rewrite length_fmap. cbn. lia. }
  split_and!; [done | |].
  - apply Forall_forall. intros [c n] Hin.
    apply elem_of_calculateResultsOf in Hin as [Hpos _]. cbn. lia.
  - split.
    + intros Hnil. rewrite Hnil in Hsum. cbn in Hsum. unfold JsMap.size in Hsum.
      destruct roundVotes; [done|]. cbn in Hsum. lia.
    + by intros ->.
Qed.
(** ** A node's own vote *)

Section OwnVote.
  Context `{Runtime}.

Lemma get_elem_of {V} k (v : V) (m : list (string * V)) :
    JsMap.get k m = Some v → (k, v) ∈ m.
  Proof.
    induction m as [|[k' v'] m IH]; cbn; [done|].
    destruct (decide (k' = k)) as [->|]; [intros [= ->]; by left | intros Hm; right; auto].
  Qed.

  (** The pass decrypts the first ballot stored under an id. *)
Lemma decrypt_fold_first keys ballots acc k ballot kd v :
    JsMap.get k ballots = Some ballot → JsMap.get k acc = None →
    JsMap.get k keys = Some kd →
    decryptVote (ev_encryptedData ballot) (kd_key kd) (ev_iv ballot) = Some v →
    JsMap.get k (foldl (decrypt_entry keys) acc ballots) = Some v.
  Proof.
    intros Hb Hacc Hkd Hd. revert acc Hacc.
    induction ballots as [|[id b] ballots IH]; intros acc Hacc; [done|].
    cbn [foldl]. cbn in Hb. destruct (decide (id = k)) as [->|Hne].
    - injection Hb as ->. apply decrypt_fold_keeps.
      unfold decrypt_entry. cbv zeta. cbn [fst snd].
      assert (JsMap.has k keys = true) as -> by (apply bool_decide_eq_true_2; by eauto).
      assert (JsMap.has k acc = false) as -> by (by apply JsMapFacts.has_false).
      cbn [negb andb]. rewrite Hkd, Hd. apply JsMapFacts.get_set_eq.
    - apply IH; [done|].
      unfold decrypt_entry. cbv zeta. cbn [fst snd].
      destruct (_ && _); [|done]. destruct (JsMap.get id keys) as [kd'|]; [|done].
      destruct (decryptVote (ev_encryptedData b) (kd_key kd') (ev_iv b)); [|done].
      by rewrite JsMapFacts.get_set_ne.
  Qed.

Lemma enterConsensusPhase_frame e now s r :
    currentRound s = Some r → Round.phase r = VOTING →
    let s' := enterConsensusPhase e now s in
    currentRound s' = Some (Round.with_phase CONSENSUS r)
    ∧ votes s' = votes s ∧ encryptedVotes s' = encryptedVotes s
    ∧ voteKeys s' = voteKeys s ∧ myVoteTracking s' = myVoteTracking s.
  Proof.
    intros Hr Hph. unfold enterConsensusPhase. rewrite Hr.
    rewrite bool_decide_eq_false_2 by (by intros []). cbv zeta.
    unfold shareAllKeys, update_round. cbn. rewrite Hr. cbn. done.
  Qed.
End OwnVote.

(** A node's own vote is counted.  Provided the cipher decrypts what it
    encrypted and [JSON.parse] inverts [JSON.stringify]: when [castVote]
    accepts a choice in a round whose decrypted-vote map does not hold
    the new ballot's id, then once the node has entered CONSENSUS,
    [decryptAndProcessVotes] records exactly the vote that was cast
    under that id, the tally has an entry for the lower-cased choice
    with at least one vote, and [verifyMyVote] marks the vote as
    verified. *)
Theorem own_vote_is_counted `{Runtime} e now choice e2 now2 s r decrypted :
  cipher_contract → JSON_contract →
  currentRound s = Some r → ¬ castVote_rejects choice s →
  votes s !! Round.id r = Some decrypted →
  let ev := encryptVote e now choice (Round.id r) in
  JsMap.get (anonymousVoteId ev) decrypted = None →
  let s2 := decryptAndProcessVotes (enterConsensusPhase e2 now2 (castVote e now choice s)) in
  ∃ roundVotes n,
    votes s2 !! Round.id r = Some roundVotes
    ∧ JsMap.get (anonymousVoteId ev) roundVotes
      = Some (mkVoteRecord choice (anonymousVoteId ev) now (Round.id r))
    ∧ mkResult (toLowerCase choice) n ∈ calculateResultsOf roundVotes ∧ 1 ≤ n
    ∧ vt_verified <$> myVoteTracking (verifyMyVote (Round.id r) roundVotes s2) !! Round.id r
      = Some true.
Proof.
  intros Hcipher Hjson Hr Hacc Hv ev Hfresh s2.
  destruct (castVote_accepted e now choice s Hacc) as (r' & Hr' & Hph & _ & Hcast).
  assert (r' = r) as -> by congruence.
  set (s1 := castVote e now choice s) in *.
  assert (currentRound s1 = Some r) as Hr1 by (by rewrite Hcast).
  destruct (enterConsensusPhase_frame e2 now2 s1 r Hr1 Hph) as (Hrc & Hvc & Hec & Hkc & Htc).
  set (sc := enterConsensusPhase e2 now2 s1) in *.
  set (ballot :=
         mkEncryptedVoteMessage (Round.id r) (anonymousVoteId ev) (encryptedData ev) (iv ev)
           now (signMessage (nodeId s) (Round.id r +:+ "_" +:+ encryptedData ev))).
  set (kd := mkKeyData (key ev) (Some (nodeId s)) None).
  assert (encryptedVotes sc !! Round.id r
          = Some (JsMap.set (anonymousVoteId ev) ballot
                    (default [] (encryptedVotes s !! Round.id r)))) as Hb.
  { rewrite Hec, Hcast. unfold cast_ballot. cbn.
    rewrite lookup_round_map_set, decide_True by done.
    by rewrite lookup_ensure_round_map, decide_True by done. }
  assert (voteKeys sc !! Round.id r
          = Some (JsMap.set (anonymousVoteId ev) kd
                    (default [] (voteKeys s !! Round.id r)))) as Hk.
  { rewrite Hkc, Hcast. unfold cast_ballot. cbn.
    rewrite lookup_round_map_set, decide_True by done.
    by rewrite lookup_ensure_round_map, decide_True by done. }
  assert (votes sc !! Round.id r = Some decrypted) as Hvs
    by (by rewrite Hvc, Hcast).
  assert (myVoteTracking sc !! Round.id r
          = Some (mkVoteTracking (anonymousVoteId ev) choice now false)) as Ht.
  { rewrite Htc, Hcast. unfold cast_ballot. cbn. by rewrite lookup_insert_eq. }
  set (record := mkVoteRecord choice (anonymousVoteId ev) now (Round.id r)).
  assert (∃ roundVotes, votes s2 !! Round.id r = Some roundVotes
                        ∧ JsMap.get (anonymousVoteId ev) roundVotes = Some record
                        ∧ myVoteTracking s2 = myVoteTracking sc)
    as (roundVotes & Hrv & Hget & Hts).
  { unfold s2, decryptAndProcessVotes. rewrite Hrc. cbv zeta.
    assert (Round.id (Round.with_phase CONSENSUS r) = Round.id r) as -> by (by destruct r).
    rewrite Hb, Hk. cbn [votes set_votes myVoteTracking].
    rewrite lookup_insert_eq, lookup_ensure_round_map, decide_True by done.
    rewrite Hvs. cbn [default from_option id]. eexists. split; [reflexivity|].
    split; [|done].
    eapply decrypt_fold_first; [apply JsMapFacts.get_set_eq | done
                                | apply JsMapFacts.get_set_eq |].
    apply (decryptVote_encryptVote e now choice (Round.id r) Hcipher Hjson). }
  exists roundVotes, (occurrences (toLowerCase choice) (JsMap.values roundVotes)).
  assert (0 < occurrences (toLowerCase choice) (JsMap.values roundVotes)) as Hpos.
  { apply get_elem_of in Hget. unfold occurrences, JsMap.values.
    assert (record ∈ filter (λ v, toLowerCase (vr_choice v) = toLowerCase choice)
                       roundVotes.*2) as Hin.
    { apply list_elem_of_filter. split; [done|].
      apply list_elem_of_fmap. by exists (anonymousVoteId ev, record). }
    destruct (filter _ _); [by apply elem_of_nil in Hin | cbn; lia]. }
  split_and!; [done | done | | lia |].
  - by apply elem_of_calculateResultsOf.
  - unfold verifyMyVote. rewrite Hts, Ht. cbn [vt_anonymousVoteId vt_choice].
    rewrite Hget. cbn [vr_choice record]. rewrite bool_decide_eq_true_2 by done.
    cbn. by rewrite lookup_insert_eq.
Qed.

Lemma own_vote_is_counted_witness :
  let s := Reference.node_with_votes "r1" VOTING [] in
  let s2 :=
    decryptAndProcessVotes (H := Reference.runtime)
      (enterConsensusPhase Reference.entropy 9
         (castVote (H := Reference.runtime) Reference.entropy 5 "Yes" s)) in
  ∃ roundVotes n,
    votes s2 !! "r1" = Some roundVotes
    ∧ mkResult "yes" n ∈ calculateResultsOf (H := Reference.runtime) roundVotes ∧ 1 ≤ n.
Proof.
  intros s s2.
  destruct (own_vote_is_counted (H := Reference.runtime) Reference.entropy 5 "Yes"
              Reference.entropy 9 s
              (Round.mk "r1" "topic" None 0 (inject_Z 100000) (inject_Z 100) VOTING
                 None false ∅ None None) [])
    as (roundVotes & n & Hrv & _ & Hin & Hn & _).
  - apply ReferenceCryptoFacts.cipher_contract_holds.
  - apply ReferenceCryptoFacts.JSON_contract_holds.
  - reflexivity.
  - unfold castVote_rejects. cbn.
    intros [Hph|[Hv|(allowed & Ha & _)]];
      [by destruct Hph | discriminate Hv | discriminate Ha].
  - reflexivity.
  - cbn [JsMap.get]. exact eq_refl.
  - exists roundVotes, n. split; [exact Hrv|]. split; [exact Hin | exact Hn].
Defined.
(** ** Connections *)

(** A handshake.  A HANDSHAKE or HANDSHAKE_ACK that carries the node's
    own id is answered with DUPLICATE_NODE_REJECTION and the socket is
    closed; the sender becomes no peer, no active peer and no registry
    entry.  A HANDSHAKE from another node makes the sender a peer on
    this socket and an active peer, records its address when the message
    carries a port ([::1], [127.0.0.1] and a missing address are
    recorded as [localhost]), and is answered with HANDSHAKE_ACK
    followed by PEER_EXCHANGE_REQUEST on the same socket. *)
Theorem handshake_outcome `{Runtime} now ws remoteAddress from peerPort knownPeers0 s :
  (from = nodeId s →
   ∀ message,
     message = HANDSHAKE from peerPort knownPeers0
     ∨ message = HANDSHAKE_ACK from peerPort knownPeers0 →
     ∃ s', handleMessage now ws remoteAddress message s = Some s'
           ∧ effects s'
             = effects s ++ [Send ws (DUPLICATE_NODE_REJECTION (nodeId s)); Close ws]
           ∧ peers s' = peers s ∧ activePeers s' = activePeers s
           ∧ nodeRegistry s' = nodeRegistry s ∧ peerAddresses s' = peerAddresses s
           ∧ knownPeers s' = knownPeers s ∧ timers s' = timers s)
  ∧ (from ≠ nodeId s →
     ∃ s', handleMessage now ws remoteAddress (HANDSHAKE from peerPort knownPeers0) s
           = Some s'
           ∧ JsMap.get from (peers s') = Some ws
           ∧ from ∈ activePeers s'
           ∧ (∀ p, peerPort = Some p → p ≠ 0 →
                   peerAddresses s' !! from
                   = Some (if bool_decide (remoteAddress = None)
                              || bool_decide (remoteAddress = Some "::1")
                              || bool_decide (remoteAddress = Some "127.0.0.1")
                           then "localhost" else default "" remoteAddress, p))
           ∧ (peerPort = None ∨ peerPort = Some 0 → peerAddresses s' = peerAddresses s)
           ∧ ∃ peerList,
               effects s'
               = effects s
                 ++ [Send ws (HANDSHAKE_ACK (nodeId s) (Some (port s)) peerList);
                     Send ws (PEER_EXCHANGE_REQUEST (nodeId s))]).
Proof.
  split.
  - intros -> message Hm.
    assert (handleMessage now ws remoteAddress message s
            = Some (emit (Close ws) (emit (Send ws (DUPLICATE_NODE_REJECTION (nodeId s))) s)))
      as ->.
    { unfold handleMessage. destruct Hm as [-> | ->]; cbn [is_handshake message_from];
        by rewrite bool_decide_eq_true_2. }
    eexists. split; [reflexivity|]. cbn. by rewrite <- app_assoc.
  - intros Hne. unfold handleMessage. cbn [is_handshake message_from andb].
    rewrite (bool_decide_eq_false_2 (Some from = Some (nodeId s))) by congruence.
    cbv zeta. cbn [originalHandleMessage]. cbv zeta. eexists. split; [reflexivity|].
    unfold emit. cbn [peers activePeers peerAddresses effects set_effects].
    match goal with
    | |- context [store_peer_address from remoteAddress peerPort ?x] => set (s1 := x)
    end.
    assert (nodeId (store_peer_address from remoteAddress peerPort s1) = nodeId s
            ∧ port (store_peer_address from remoteAddress peerPort s1) = port s)
      as [Hn Hpt].
    { unfold store_peer_address, s1.
      destruct peerPort as [p|]; [destruct (truthy_Z p)|]; by destruct (_ && _). }
    assert (peers (store_peer_address from remoteAddress peerPort s1) = peers s1
            ∧ activePeers (store_peer_address from remoteAddress peerPort s1)
              = activePeers s1
            ∧ effects (store_peer_address from remoteAddress peerPort s1) = effects s1)
      as (-> & -> & ->).
    { unfold store_peer_address. destruct peerPort as [p|]; [|done].
      by destruct (truthy_Z p). }
    assert (peers s1 = JsMap.set from ws (peers s)) as ->.
    { unfold s1. by destruct (_ && _). }
    assert (activePeers s1 = {[from]} ∪ activePeers s) as ->.
    { unfold s1. by destruct (_ && _). }
    assert (effects s1 = effects s) as -> by (unfold s1; by destruct (_ && _)).
    assert (peerAddresses s1 = peerAddresses s) as Hpa
      by (unfold s1; by destruct (_ && _)).
    split_and!.
    + apply JsMapFacts.get_set_eq.
    + by apply elem_of_union_l, elem_of_singleton.
    + intros p -> Hp. unfold store_peer_address, truthy_Z.
      rewrite bool_decide_eq_true_2 by done. cbn. rewrite lookup_insert_eq.
      do 2 f_equal. destruct remoteAddress as [a|]; cbn; [|done].
      destruct (decide (a = "::1")) as [->|]; [done|].
      destruct (decide (a = "127.0.0.1")) as [->|]; [done|].
      rewrite (bool_decide_eq_false_2 (a = "::1")) by done.
      rewrite (bool_decide_eq_false_2 (a = "127.0.0.1")) by done.
      rewrite (bool_decide_eq_false_2 (Some a = Some "::1")) by congruence.
      rewrite (bool_decide_eq_false_2 (Some a = Some "127.0.0.1")) by congruence.
      done.
    + intros [-> | ->]; [done|]. unfold store_peer_address, truthy_Z.
      by rewrite bool_decide_eq_false_2 by (by intros []).
    + eexists. cbn [nodeId set_effects]. by rewrite Hn, Hpt, <- app_assoc.
Qed.
Lemma get_delete_eq {V} k (m : list (string * V)) : JsMap.get k (JsMap.delete k m) = None.
Proof.
  apply JsMapFacts.get_None. unfold JsMap.keys, JsMap.delete.
  intros ([k' v] & -> & [Hne _]%list_elem_of_filter)%list_elem_of_fmap. by apply Hne.
Qed.

Lemma get_delete_ne {V} k k' (m : list (string * V)) :
  k ≠ k' → JsMap.get k' (JsMap.delete k m) = JsMap.get k' m.
Proof.
  intros Hne. unfold JsMap.delete. induction m as [|[k0 v0] m IH]; [done|].
  rewrite filter_cons. cbn. destruct (decide (k0 ≠ k)) as [Hk|Hk]; cbn.
  - destruct (decide (k0 = k')); [done | apply IH].
  - apply dec_stable in Hk. subst k0. by rewrite decide_False.
Qed.

Lemma find_socket_Some {V} `{EqDecision V} (ws : V) (m : list (string * V)) k :
  fst <$> head (filter (λ entry, entry.2 = ws) m) = Some k → (k, ws) ∈ m.
Proof.
  destruct (head _) as [[k' w]|] eqn:Hh; [|done]. intros [= <-].
  assert ((k', w) ∈ filter (λ entry : string * V, entry.2 = ws) m) as Hin.
  { destruct (filter _ m); [done|]. injection Hh as ->. by left. }
  apply list_elem_of_filter in Hin as [Hw Hin]. cbn in Hw. by subst w.
Qed.

(** Closing a socket.  When an accepted connection closes: if the
    socket belongs to a GUI client, that client is forgotten and the
    peers are untouched; otherwise, if it is the socket of a peer, the
    first such peer is removed from [peers] and from [activePeers] while
    its address and its registry entry are kept, and every other peer
    stays; a socket that belongs to nobody changes nothing.  When a
    connection the node opened itself closes, the peer's registry entry
    is removed as well. *)
Theorem close_forgets_peer `{Runtime} ws s :
  (∀ clientId,
     find_socket ws (guiClients s) = Some clientId →
     JsMap.get clientId (guiClients (incoming_close ws s)) = None
     ∧ peers (incoming_close ws s) = peers s
     ∧ activePeers (incoming_close ws s) = activePeers s)
  ∧ (∀ peerId,
       find_socket ws (guiClients s) = None → find_socket ws (peers s) = Some peerId →
       let s' := incoming_close ws s in
       (peerId, ws) ∈ peers s
       ∧ JsMap.get peerId (peers s') = None ∧ (peerId ∉ activePeers s')
       ∧ (∀ k, k ≠ peerId → JsMap.get k (peers s') = JsMap.get k (peers s)
                            ∧ (k ∈ activePeers s' ↔ k ∈ activePeers s))
       ∧ peerAddresses s' = peerAddresses s ∧ nodeRegistry s' = nodeRegistry s)
  ∧ (find_socket ws (guiClients s) = None → find_socket ws (peers s) = None →
     incoming_close ws s = s)
  ∧ (∀ peerId,
       find_socket ws (peers s) = Some peerId →
       let s' := outgoing_close ws s in
       JsMap.get peerId (peers s') = None ∧ (peerId ∉ activePeers s')
       ∧ nodeRegistry s' !! peerId = None
       ∧ (∀ k, k ≠ peerId → JsMap.get k (peers s') = JsMap.get k (peers s)
                            ∧ (k ∈ activePeers s' ↔ k ∈ activePeers s)
                            ∧ nodeRegistry s' !! k = nodeRegistry s !! k))
  ∧ (find_socket ws (peers s) = None → outgoing_close ws s = s).
Proof.
  assert (∀ (p : string) (X : gset string), p ∉ X ∖ {[p]}) as Hout.
  { intros p X [_ Hn]%elem_of_difference. apply Hn. by apply elem_of_singleton. }
  assert (∀ (p k : string) (X : gset string), k ≠ p → k ∈ X ∖ {[p]} ↔ k ∈ X) as Hin.
  { intros p k X Hk. rewrite elem_of_difference, elem_of_singleton.
    split; [by intros [? _] | by intros ?]. }
  split_and!.
  - intros clientId Hc. unfold incoming_close. rewrite Hc. cbn.
    split_and!; [apply get_delete_eq | done | done].
  - intros peerId Hg Hp s'. unfold s', incoming_close. rewrite Hg, Hp. cbn.
    split_and!; [by apply find_socket_Some | apply get_delete_eq | apply Hout | | done | done].
    intros k Hk. split; [by apply get_delete_ne | by apply Hin].
  - intros Hg Hp. unfold incoming_close. by rewrite Hg, Hp.
  - intros peerId Hp s'. unfold s', outgoing_close. rewrite Hp. cbn.
    split_and!; [apply get_delete_eq | apply Hout | apply lookup_delete_eq |].
    intros k Hk. split_and!; [by apply get_delete_ne | by apply Hin | by apply lookup_delete_ne].
  - intros Hp. unfold outgoing_close. by rewrite Hp.
Qed.
(** An ignored round is still announced to the GUI.  When a ROUND_START
    is not accepted (the current round started at the same time or
    later), [originalHandleMessage] leaves the round, the stores and the
    timers as they were, and still sends the ROUND_START notification
    for the announced round to every GUI client. *)
Theorem ignored_round_start_reaches_gui `{Runtime} now ws remoteAddress message s r :
  currentRound s = Some r → rs_startTime message ≤ Round.startTime r →
  originalHandleMessage now ws remoteAddress (ROUND_START message) s
  = Some (notifyGUIClients (GUI_ROUND_START message) s)
  ∧ let s' := notifyGUIClients (GUI_ROUND_START message) s in
    currentRound s' = Some r ∧ timers s' = timers s
    ∧ (∀ roundId, stores_at roundId s' = stores_at roundId s)
    ∧ hasVotedInRound s' = hasVotedInRound s
    ∧ effects s'
      = effects s ++ [Notify (GUI_ROUND_START message) (JsMap.values (guiClients s))].
Proof.
  intros Hr Hle. cbn [originalHandleMessage]. cbv zeta.
  rewrite (handleRoundStart_ignored now message s r Hr Hle). by split_and!.
Qed.

Lemma ignored_round_start_reaches_gui_witness :
  let s := Reference.node_with_votes "r1" VOTING [] in
  let message := mkRoundStartMessage "r0" "older" None None 0 "bob" in
  ∃ s', originalHandleMessage (H := Reference.runtime) 5 1%nat None (ROUND_START message) s
        = Some s'
        ∧ round_key s' = Some ("r1", VOTING)
        ∧ effects s' = [Notify (GUI_ROUND_START message) []].
Proof.
  intros s message.
  destruct (ignored_round_start_reaches_gui (H := Reference.runtime) 5 1%nat None message s
              (Round.mk "r1" "topic" None 0 (inject_Z 100000) (inject_Z 100) VOTING
                 None false ∅ None None) eq_refl) as [Hs' _]; [cbn; lia|].
  eexists. split; [exact Hs'|]. by split.
Defined.

Lemma checkForConsensus_reached `{Runtime} now s r :
  currentRound s = Some r → Round.phase r = CONSENSUS →
  Round.consensusAchieved r = false →
  getActiveNodeCount s ≤ Z.of_nat (size (Round.consensusNodes r)) →
  currentRound (checkForConsensus now s) = Some (Round.with_consensusAchieved true r)
  ∧ timers (checkForConsensus now s)
    = timers (clearTimeout_if_set (Round.finishTimeout r) s)
      ++ [mkTimer (nextTimer s) cb_finishRound now (inject_Z 500)].
Proof.
  intros Hr Hph Hach Hle. unfold checkForConsensus. rewrite Hr, Hach.
  rewrite (bool_decide_eq_false_2 (Round.phase r ≠ CONSENSUS)) by (by intros []).
  cbn [orb]. rewrite bool_decide_eq_true_2 by done. cbv zeta. split.
  - unfold update_round. rewrite Hr. by destruct (Round.finishTimeout r).
  - by destruct (Round.finishTimeout r).
Qed.

(** ** The start commands *)

Lemma validate_votingTime_whole (v : Z) :
  validate_votingTime (JsNumber (inject_Z v))
  = inject_Z (if bool_decide (30 ≤ v ≤ 600) then v else 100).
Proof.
  case_bool_decide as Hv.
  - apply validate_votingTime_kept; rewrite <- Zle_Qle; lia.
  - apply validate_votingTime_out_of_range.
    destruct (decide (v < 30)); [left | right]; rewrite <- Zlt_Qlt; lia.
Qed.

(** Rounds started from the GUI last a whole number of seconds.  The
    [start] command of the GUI, given at least one word while no round
    is in progress, starts a round in VOTING whose voting time is a
    whole number of seconds from 30 to 600: the last word when it is a
    string of digits with a value in that range, and 100 otherwise; the
    round's duration is that number of seconds.  While a round is in
    progress the command changes nothing, and still answers that a
    round was started. *)
Theorem gui_start_whole_seconds String_trim now args lastArg s :
  last args = Some lastArg →
  let seconds :=
    if matches_digits lastArg && bool_decide (30 ≤ parseInt lastArg ≤ 600)
    then parseInt lastArg else 100 in
  let outcome := handleGUICommand_start String_trim now args s in
  30 ≤ seconds ≤ 600
  ∧ (∃ topic votingTime, outcome.2 = Started topic votingTime)
  ∧ ((∀ r, currentRound s = Some r → Round.phase r = FINISHED) →
     ∃ r, currentRound outcome.1 = Some r ∧ Round.phase r = VOTING
          ∧ Round.votingTimeSeconds r = inject_Z seconds
          ∧ Round.duration r = (inject_Z seconds * inject_Z 1000)%Q)
  ∧ ((∃ r, currentRound s = Some r ∧ Round.phase r ≠ FINISHED) → outcome.1 = s).
Proof.
  intros Hlast seconds outcome.
  assert (30 ≤ seconds ≤ 600) as Hrange.
  { unfold seconds. destruct (matches_digits lastArg); cbn [andb]; [|lia].
    case_bool_decide; lia. }
  split; [done|]. unfold outcome, handleGUICommand_start. rewrite Hlast. cbv zeta.
  destruct (start_arguments String_trim _) as [topic allowedChoices]. cbn [fst snd].
  split; [by eauto|]. split.
  - intros Hfin.
    destruct (startVotingRound_arms now topic allowedChoices
                (JsNumber (inject_Z (if matches_digits lastArg then parseInt lastArg else 100)))
                s Hfin) as [(r & Hr & Hph & Hv & Hd) _].
    exists r. rewrite validate_votingTime_whole in Hv, Hd.
    assert ((if bool_decide
                  (30 ≤ (if matches_digits lastArg then parseInt lastArg else 100) ≤ 600)
             then if matches_digits lastArg then parseInt lastArg else 100
             else 100) = seconds) as Heq.
    { unfold seconds. destruct (matches_digits lastArg); cbn [andb]; [done|].
      by rewrite bool_decide_eq_true_2 by lia. }
    rewrite Heq in Hv, Hd.
    rewrite (proj2 (whole_seconds_exact seconds Hrange)) in Hd. by split_and!.
  - intros (r & Hr & Hph). unfold startVotingRound. rewrite Hr.
    by rewrite bool_decide_eq_true_2.
Qed.

Lemma gui_start_whole_seconds_witness :
  let outcome :=
    handleGUICommand_start (λ x, x) 1000 ["Deploy?"; "yes,no"; "45"] (init "alice" 3001 []) in
  outcome.2 = Started "Deploy?" 45
  ∧ ∃ r, currentRound outcome.1 = Some r
         ∧ Round.votingTimeSeconds r = inject_Z 45
         ∧ Round.allowedChoices r = Some ["yes"; "no"].
Proof.
  intros outcome.
  destruct (gui_start_whole_seconds (λ x, x) 1000 ["Deploy?"; "yes,no"; "45"] "45"
              (init "alice" 3001 []) eq_refl) as (_ & _ & Hstart & _).
  destruct Hstart as (r & Hr & _ & Hv & _); [intros r Hr; discriminate Hr|].
  split; [reflexivity|]. exists r. split; [exact Hr|]. split; [exact Hv|].
  fold outcome in Hr. vm_compute in Hr. injection Hr as <-. reflexivity.
Defined.
(** The command line cannot choose the voting time.  In [handleCommand]
    the words after [start] are bound by a [const] destructuring, so
    when the last word is a string of digits (a voting time) the
    assignment that removes it from the list throws a [TypeError] and
    [startVotingRound] is not reached.  When the command returns, the
    node is as before or its current round was started with the default
    of 100 seconds. *)
Theorem cli_start_cannot_choose_time String_trim now args s :
  (∀ lastArg, last args = Some lastArg → matches_digits lastArg = true →
              handleCommand_start String_trim now args s
              = Thrown "Assignment to constant variable.")
  ∧ (args = [] → handleCommand_start String_trim now args s = Returned s)
  ∧ (∀ s', handleCommand_start String_trim now args s = Returned s' →
           s' = s
           ∨ ∃ r, currentRound s' = Some r ∧ Round.phase r = VOTING
                  ∧ Round.votingTimeSeconds r = inject_Z 100
                  ∧ Round.duration r = (inject_Z 100 * inject_Z 1000)%Q).
Proof.
  split_and!.
  - intros lastArg Hlast Hd. unfold handleCommand_start. by rewrite Hlast, Hd.
  - by intros ->.
  - intros s'. unfold handleCommand_start. destruct (last args) as [lastArg|];
      [|intros [= <-]; by left].
    destruct (matches_digits lastArg); [done|]. cbv zeta.
    destruct (start_arguments String_trim args) as [topic allowedChoices].
    intros [= <-].
    destruct (currentRound s) as [r0|] eqn:Hr0.
    + destruct (decide (Round.phase r0 = FINISHED)) as [Hf|Hf].
      * right.
        destruct (startVotingRound_arms now topic allowedChoices (JsNumber (inject_Z 100)) s)
          as [(r & Hr & Hph & Hv & Hdur) _]; [intros r' Hr'; congruence|].
        exists r. by split_and!.
      * left. unfold startVotingRound. rewrite Hr0. by rewrite bool_decide_eq_true_2.
    + right.
      destruct (startVotingRound_arms now topic allowedChoices (JsNumber (inject_Z 100)) s)
        as [(r & Hr & Hph & Hv & Hdur) _]; [intros r' Hr'; congruence|].
      exists r. by split_and!.
Qed.

Lemma cli_start_cannot_choose_time_witness :
  handleCommand_start (λ x, x) 1000 ["Deploy?"; "yes,no"; "45"] (init "alice" 3001 [])
  = Thrown "Assignment to constant variable.".
Proof.
  apply (proj1 (cli_start_cannot_choose_time (λ x, x) 1000 ["Deploy?"; "yes,no"; "45"]
                  (init "alice" 3001 [])) "45"); reflexivity.
Defined.
(** ** The status shown to the GUI *)

Lemma Math_max_lower (a b : Q) : (a <= Math_max a b)%Q ∧ (b <= Math_max a b)%Q.
Proof.
  unfold Math_max. destruct (Qle_bool a b) eqn:Hab.
  - apply Qle_bool_iff in Hab. split; [done | apply Qle_refl].
  - split; [apply Qle_refl|]. apply Qlt_le_weak, Qnot_le_lt. intros Hle.
    apply Qle_bool_iff in Hle. congruence.
Qed.

Lemma Math_max_mono (a b b' : Q) : (b <= b')%Q → (Math_max a b <= Math_max a b')%Q.
Proof.
  intros Hb. unfold Math_max.
  destruct (Qle_bool a b) eqn:Hab, (Qle_bool a b') eqn:Hab'; try done.
  - apply Qle_bool_iff in Hab. destruct (Qle_bool a b') eqn:E; [done|].
    assert (Qle_bool a b' = true) as E'
      by (apply Qle_bool_iff; by apply Qle_trans with b). congruence.
  - by apply Qle_bool_iff in Hab'.
  - apply Qle_refl.
Qed.

Lemma floor_thousand (q : Q) :
  (inject_Z (Qfloor (q / inject_Z 1000) * 1000) <= q)%Q
  ∧ (q < inject_Z ((Qfloor (q / inject_Z 1000) + 1) * 1000))%Q.
Proof.
  destruct q as [n d]. unfold Qdiv, Qmult, Qinv, inject_Z, Qfloor, Qle, Qlt. cbn.
  rewrite Z.mul_1_r, Pos2Z.inj_mul.
  pose proof (Z.div_mod n (Z.pos d * 1000) ltac:(lia)) as Hdm.
  pose proof (Z.mod_pos_bound n (Z.pos d * 1000) ltac:(lia)) as Hb.
  split; nia.
Qed.

Lemma floor_thousand_mono (q q' : Q) :
  (q <= q')%Q → Qfloor (q / inject_Z 1000) ≤ Qfloor (q' / inject_Z 1000).
Proof.
  intros Hq. apply Qfloor_resp_le. unfold Qdiv. apply Qmult_le_compat_r; [done|].
  by unfold Qle.
Qed.

(** The countdown.  With a current round, [getCurrentRoundStatus]
    reports the round's topic and phase, the sizes of its ballot map and
    of its decrypted-vote map (0 for a missing map) and the number of
    active peers plus one.  The time remaining is the whole number of
    seconds in what is left of the round's duration: it is never
    negative, it is 0 as soon as less than one second is left, and it
    never increases as the clock advances.  Without a round there is no
    status. *)
Theorem status_countdown now s :
  (currentRound s = None ↔ getCurrentRoundStatus now s = None)
  ∧ (∀ r, currentRound s = Some r →
       ∃ status,
         getCurrentRoundStatus now s = Some status
         ∧ st_topic status = Round.topic r ∧ st_phase status = Round.phase r
         ∧ st_encryptedVoteCount status
           = default 0 (JsMap.size <$> encryptedVotes s !! Round.id r)
         ∧ st_decryptedVoteCount status = default 0 (JsMap.size <$> votes s !! Round.id r)
         ∧ st_activeNodes status = Z.of_nat (size (activePeers s)) + 1
         ∧ 0 ≤ st_timeRemaining status
         ∧ ((Round.duration r - inject_Z (now - Round.startTime r) < inject_Z 1000)%Q →
            st_timeRemaining status = 0)
         ∧ ((inject_Z 0 <= Round.duration r - inject_Z (now - Round.startTime r))%Q →
            (inject_Z (st_timeRemaining status * 1000)
             <= Round.duration r - inject_Z (now - Round.startTime r))%Q
            ∧ (Round.duration r - inject_Z (now - Round.startTime r)
               < inject_Z ((st_timeRemaining status + 1) * 1000))%Q)
         ∧ ∀ later status',
             now ≤ later → getCurrentRoundStatus later s = Some status' →
             st_timeRemaining status' ≤ st_timeRemaining status).
Proof.
  split.
  - unfold getCurrentRoundStatus. by destruct (currentRound s).
  - intros r Hr. unfold getCurrentRoundStatus. rewrite Hr. cbn [mbind option_bind].
    eexists. split; [reflexivity|]. cbn [st_topic st_phase st_encryptedVoteCount
      st_decryptedVoteCount st_activeNodes st_timeRemaining]. unfold Math_floor.
    set (left := (Round.duration r - inject_Z (now - Round.startTime r))%Q).
    pose proof (Math_max_lower (inject_Z 0) left) as [Hzero Hleft].
    pose proof (floor_thousand (Math_max (inject_Z 0) left)) as [Hlow Hhigh].
    set (t := Qfloor (Math_max (inject_Z 0) left / inject_Z 1000)) in *.
    assert (0 ≤ t) as Hpos.
    { assert (inject_Z 0 < inject_Z ((t + 1) * 1000))%Q as Hlt
        by (eapply Qle_lt_trans; [exact Hzero | exact Hhigh]).
      rewrite <- Zlt_Qlt in Hlt. lia. }
    split_and!; try done.
    + by destruct (encryptedVotes s !! Round.id r).
    + by destruct (votes s !! Round.id r).
    + intros Hlt.
      assert (Math_max (inject_Z 0) left < inject_Z 1000)%Q as Hm.
      { unfold Math_max. by destruct (Qle_bool _ _). }
      assert (inject_Z (t * 1000) < inject_Z 1000)%Q as Hlt'
        by (eapply Qle_lt_trans; [exact Hlow | exact Hm]).
      rewrite <- Zlt_Qlt in Hlt'. lia.
    + intros Hnonneg.
      assert (Math_max (inject_Z 0) left = left) as Hmax.
      { unfold Math_max. apply Qle_bool_iff in Hnonneg. by rewrite Hnonneg. }
      rewrite Hmax in Hlow, Hhigh. by split.
    + intros later status' Hlater [= <-]. cbn [st_timeRemaining]. unfold Math_floor.
      apply floor_thousand_mono, Math_max_mono.
      unfold left. apply Qplus_le_compat; [apply Qle_refl|].
      apply Qopp_le_compat. rewrite <- Zle_Qle. lia.
Qed.

Lemma status_countdown_witness :
  ∃ status,
    getCurrentRoundStatus 61500 (Reference.node_with_votes "r1" VOTING []) = Some status
    ∧ st_timeRemaining status = 38
    ∧ ∀ later status',
        61500 ≤ later →
        getCurrentRoundStatus later (Reference.node_with_votes "r1" VOTING []) = Some status' →
        st_timeRemaining status' ≤ 38.
Proof.
  destruct (status_countdown 61500 (Reference.node_with_votes "r1" VOTING [])) as [_ Hstatus].
  destruct (Hstatus (Round.mk "r1" "topic" None 0 (inject_Z 100000) (inject_Z 100) VOTING
                       None false ∅ None None) eq_refl)
    as (status & Hs & _ & _ & _ & _ & _ & _ & _ & _ & Hmono).
  exists status. split; [exact Hs|].
  assert (st_timeRemaining status = 38) as Ht by (injection Hs as <-; reflexivity).
  split; [exact Ht|]. rewrite <- Ht. exact Hmono.
Defined.
(** ** Finishing a round *)

(** ** The signature on a ballot *)

(** The signature names the voter.  The ballot that an accepted
    [castVote] broadcasts carries no [from], but its signature is the
    one [verifySignature] accepts for the voter's own node id over the
    round id and the ciphertext that the ballot itself carries: whoever
    receives the ballot can test it against each node id it knows.
    Under the name ['anonymous'], which is what [handleEncryptedVote]
    checks before storing the ballot regardless, it is accepted only if
    the two digests coincide. *)
Theorem ballot_signature_names_voter `{Runtime} e now choice s :
  ¬ castVote_rejects choice s →
  ∃ m to gui,
    effects (castVote e now choice s) = effects s ++ [Broadcast (ENCRYPTED_VOTE m) to gui]
    ∧ verifySignature (ev_signature m) (ev_roundId m +:+ "_" +:+ ev_encryptedData m)
        (nodeId s) = true
    ∧ (verifySignature (ev_signature m) (ev_roundId m +:+ "_" +:+ ev_encryptedData m)
         "anonymous" = true
       ↔ sha256_hex (nodeId s +:+ "_" +:+ (ev_roundId m +:+ "_" +:+ ev_encryptedData m))
         = sha256_hex ("anonymous" +:+ "_" +:+ (ev_roundId m +:+ "_" +:+ ev_encryptedData m))).
Proof.
  intros Hacc.
  destruct (castVote_accepted e now choice s Hacc) as (r & Hr & Hph & Hv & ->).
  eexists _, _, _. split; [reflexivity|]. cbn [ev_signature ev_roundId ev_encryptedData].
  unfold verifySignature, signMessage. cbn [nodeId set_hasVotedInRound set_voteKeys
    set_myVoteTracking]. split.
  - by apply bool_decide_eq_true_2.
  - by rewrite bool_decide_eq_true.
Qed.

Lemma ballot_signature_names_voter_witness :
  ∃ m to gui,
    effects (castVote (H := Reference.runtime) Reference.entropy 5 "yes"
               (Reference.node_with_votes "r1" VOTING []))
    = [Broadcast (ENCRYPTED_VOTE m) to gui]
    ∧ verifySignature (H := Reference.runtime) (ev_signature m)
        (ev_roundId m +:+ "_" +:+ ev_encryptedData m) "alice" = true
    ∧ verifySignature (H := Reference.runtime) (ev_signature m)
        (ev_roundId m +:+ "_" +:+ ev_encryptedData m) "anonymous" = false.
Proof.
  destruct (ballot_signature_names_voter (H := Reference.runtime) Reference.entropy 5 "yes"
              (Reference.node_with_votes "r1" VOTING [])) as (m & to & gui & He & Hown & _).
  - unfold castVote_rejects. cbn.
    intros [Hph|[Hv|(allowed & Ha & _)]];
      [by destruct Hph | discriminate Hv | discriminate Ha].
  - exists m, to, gui. split; [exact He|]. split; [exact Hown|].
    cbn [effects Reference.node_with_votes] in He.
    assert (effects (castVote (H := Reference.runtime) Reference.entropy 5 "yes"
                       (Reference.node_with_votes "r1" VOTING []))
            = [] ++ [Broadcast (ENCRYPTED_VOTE m) to gui]) as He' by exact He.
    clear He Hown. vm_compute in He'. injection He' as <- _ _. vm_compute. reflexivity.
Defined.
(** ** Waiting for the keys *)

Lemma elem_of_key_providers (p : string) (keys : list (string * KeyData)) (acc : gset string) :
  p ∈ foldl (λ acc (entry : string * KeyData),
               match kd_keyProvider entry.2 with
               | Some q => if truthy_string q then {[q]} ∪ acc else acc
               | None => acc
               end) acc keys
  ↔ p ∈ acc ∨ (p ≠ "" ∧ ∃ entry, entry ∈ keys ∧ kd_keyProvider entry.2 = Some p).
Proof.
  revert acc. induction keys as [|entry keys IH]; intros acc; cbn [foldl].
  - split; [by left|]. intros [?|(_ & entry & Hin & _)]; [done|]. by apply elem_of_nil in Hin.
  - rewrite IH. split.
    + intros [Hacc|(Hne & entry' & Hin & Hp)].
      * destruct (kd_keyProvider entry.2) as [q|] eqn:Hq; [|by left].
        unfold truthy_string in Hacc. case_bool_decide as Hq'; [|by left].
        apply elem_of_union in Hacc as [->%elem_of_singleton|Hacc]; [|by left].
        right. split; [done|]. exists entry. split; [by left | done].
      * right. split; [done|]. exists entry'. split; [by right | done].
    + intros [Hacc|(Hne & entry' & Hin & Hp)].
      * left. destruct (kd_keyProvider entry.2) as [q|]; [|done].
        destruct (truthy_string q); [|done]. by apply elem_of_union_r.
      * apply elem_of_cons in Hin as [->|Hin].
        -- left. rewrite Hp. unfold truthy_string. rewrite bool_decide_eq_true_2 by done.
           by apply elem_of_union_l, elem_of_singleton.
        -- right. split; [done|]. by exists entry'.
Qed.

(** The proposal waits for the keys.  In CONSENSUS, before a result is
    proposed and with the round's ballot and key maps in place,
    [checkIfReadyToPropose] sends nothing and arms itself again 3000 ms
    later unless the node holds at least as many keys as ballots and the
    keys come from at least as many providers as there are active nodes
    (the senders recorded as [keyProvider], and the node itself once it
    holds any key); the first time it finds this it only sets
    [keysSharingComplete] and arms itself again, and the next time it
    calls [proposeResults]. *)
Theorem proposal_waits_for_keys `{Runtime} now s r ballots keys :
  currentRound s = Some r → Round.phase r = CONSENSUS → resultProposed s = false →
  encryptedVotes s !! Round.id r = Some ballots → voteKeys s !! Round.id r = Some keys →
  let providers := uniqueKeyProviders (nodeId s) keys in
  let ready :=
    bool_decide (JsMap.size ballots ≤ JsMap.size keys)
    && bool_decide (getActiveNodeCount s ≤ Z.of_nat (size providers)) in
  let again := (setTimeout cb_checkIfReadyToPropose (inject_Z 3000) now s).2 in
  (∀ p, p ∈ providers
        ↔ (p = nodeId s ∧ keys ≠ [])
          ∨ (p ≠ "" ∧ ∃ entry, entry ∈ keys ∧ kd_keyProvider entry.2 = Some p))
  ∧ (ready = false → checkIfReadyToPropose now s = Some again)
  ∧ (ready = true → keysSharingComplete s = false →
     checkIfReadyToPropose now s
     = Some (setTimeout cb_checkIfReadyToPropose (inject_Z 3000) now
               (set_keysSharingComplete true s)).2)
  ∧ (ready = true → keysSharingComplete s = true →
     checkIfReadyToPropose now s = proposeResults now s)
  ∧ effects again = effects s ∧ resultProposed again = false
  ∧ timers again
    = timers s ++ [mkTimer (nextTimer s) cb_checkIfReadyToPropose now (inject_Z 3000)].
Proof.
  intros Hr Hph Hnot Hb Hk providers ready again. split_and!; try done.
  - intros p. unfold providers, uniqueKeyProviders. cbv zeta.
    destruct keys as [|entry keys].
    + cbn. split; [intros Hin; by apply elem_of_empty in Hin|].
      intros [[_ ?]|(_ & entry & Hin & _)]; [done | by apply elem_of_nil in Hin].
    + rewrite bool_decide_eq_true_2 by (unfold JsMap.size; cbn [length]; lia).
      rewrite elem_of_union, elem_of_singleton, elem_of_key_providers.
      split.
      * intros [->|[Hin|Hp]]; [by left | by apply elem_of_empty in Hin | by right].
      * intros [[-> _]|Hp]; [by left | right; by right].
  - intros Hready. unfold checkIfReadyToPropose. rewrite Hr, Hnot.
    rewrite bool_decide_eq_false_2 by (by intros []). cbn [orb]. rewrite Hb, Hk. cbv zeta.
    fold providers. fold ready. by rewrite Hready.
  - intros Hready Hflag. unfold checkIfReadyToPropose. rewrite Hr, Hnot.
    rewrite bool_decide_eq_false_2 by (by intros []). cbn [orb]. rewrite Hb, Hk. cbv zeta.
    fold providers. fold ready. by rewrite Hready, Hflag.
  - intros Hready Hflag. unfold checkIfReadyToPropose. rewrite Hr, Hnot.
    rewrite bool_decide_eq_false_2 by (by intros []). cbn [orb]. rewrite Hb, Hk. cbv zeta.
    fold providers. fold ready. by rewrite Hready, Hflag.
Qed.

Lemma proposal_waits_for_keys_witness :
  let s :=
    set_activePeers {["bob"]}
      (set_voteKeys {["r1" := [("id1", mkKeyData "k1" (Some "alice") None)]]}
         (set_encryptedVotes
            {["r1" := [("id1", mkEncryptedVoteMessage "r1" "id1" "data" "iv" 5 "sig");
                       ("id2", mkEncryptedVoteMessage "r1" "id2" "data" "iv" 6 "sig")]]}
            (Reference.node_with_votes "r1" CONSENSUS []))) in
  checkIfReadyToPropose (H := Reference.runtime) 7 s
  = Some (setTimeout cb_checkIfReadyToPropose (inject_Z 3000) 7 s).2.
Proof.
  intros s.
  apply (proposal_waits_for_keys (H := Reference.runtime) 7 s
           (Round.mk "r1" "topic" None 0 (inject_Z 100000) (inject_Z 100) CONSENSUS
              None false ∅ None None)
           [("id1", mkEncryptedVoteMessage "r1" "id1" "data" "iv" 5 "sig");
            ("id2", mkEncryptedVoteMessage "r1" "id2" "data" "iv" 6 "sig")]
           [("id1", mkKeyData "k1" (Some "alice") None)]); reflexivity.
Defined.

(** ** A round only advances

    No handler moves the current round back: its phase goes from VOTING
    to CONSENSUS to FINISHED, [consensusAchieved] is only ever set, and
    [consensusNodes] only grows.  Only an accepted round start replaces
    the round. *)

Section Advancing.
  Context `{Runtime}.

Lemma round_advanced_refl r : round_advanced r r.
  Proof. by repeat split. Qed.

Lemma round_advanced_trans r1 r2 r3 :
    round_advanced r1 r2 → round_advanced r2 r3 → round_advanced r1 r3.
  Proof.
    intros (? & ? & ? & ? & ? & ? & ? & ?) (? & ? & ? & ? & ? & ? & ? & ?).
    repeat split; try congruence; [lia | by auto | by etrans].
  Qed.

Lemma advances_refl s : advances s s.
  Proof. intros r Hr. exists r. split; [done | apply round_advanced_refl]. Qed.

Lemma advances_trans s1 s2 s3 : advances s1 s2 → advances s2 s3 → advances s1 s3.
  Proof.
    intros H12 H23 r Hr. destruct (H12 r Hr) as (r2 & Hr2 & Ha).
    destruct (H23 r2 Hr2) as (r3 & Hr3 & Hb). exists r3.
    split; [done | by eapply round_advanced_trans].
  Qed.

Lemma advances_same s s' : currentRound s' = currentRound s → advances s s'.
  Proof. intros Heq r Hr. exists r. rewrite Heq. split; [done | apply round_advanced_refl]. Qed.

Lemma advances_update_round f s :
    (∀ r, round_advanced r (f r)) → advances s (update_round f s).
  Proof.
    intros Hf r Hr. exists (f r). split; [|done].
    unfold update_round. by rewrite Hr.
  Qed.

Lemma advances_update_round_at f s r :
    currentRound s = Some r → round_advanced r (f r) → advances s (update_round f s).
  Proof.
    intros Hr Hf r' Hr'. assert (r' = r) as -> by congruence.
    exists (f r). split; [|done]. unfold update_round. by rewrite Hr.
  Qed.

Lemma notifyGUIClients_currentRound e s :
    currentRound (notifyGUIClients e s) = currentRound s.
  Proof. reflexivity. Qed.

Lemma setTimeout_currentRound cb delay now s :
    currentRound (setTimeout cb delay now s).2 = currentRound s.
  Proof. reflexivity. Qed.

Lemma castVote_currentRound e now choice s :
    currentRound (castVote e now choice s) = currentRound s.
  Proof.
    unfold castVote. destruct (currentRound s) as [r|] eqn:Hr; [|done].
    repeat (case_match; [done|]). unfold cast_ballot. cbn. done.
  Qed.

Lemma handleEncryptedVote_currentRound message s :
    currentRound (handleEncryptedVote message s) = currentRound s.
  Proof.
    unfold handleEncryptedVote. destruct (currentRound s) as [r|] eqn:Hr; [|done].
    by repeat (case_match; [done|]).
  Qed.

Lemma shareAllKeys_currentRound e now s :
    currentRound (shareAllKeys e now s) = currentRound s.
  Proof.
    unfold shareAllKeys. destruct (currentRound s) as [r|] eqn:Hr; [|done].
    cbn [setTimeout snd currentRound set_nextTimer set_timers]. done.
  Qed.

Lemma enterConsensusPhase_advances e now s : advances s (enterConsensusPhase e now s).
  Proof.
    unfold enterConsensusPhase. destruct (currentRound s) as [r|] eqn:Hr; [|apply advances_refl].
    case_bool_decide as Hph; [apply advances_refl|].
    cbv zeta.
    eapply advances_trans;
      [apply (advances_update_round_at (Round.with_phase CONSENSUS) s r Hr)|].
    - repeat split; try done. simpl. rewrite Hph. simpl. lia.
    - apply advances_same.
      rewrite notifyGUIClients_currentRound, setTimeout_currentRound.
      by rewrite shareAllKeys_currentRound.
  Qed.

Lemma checkForConsensus_advances now s : advances s (checkForConsensus now s).
  Proof.
    unfold checkForConsensus. destruct (currentRound s) as [r|] eqn:Hr; [|apply advances_refl].
    destruct (_ || _); [apply advances_refl|].
    case_bool_decide; [|apply advances_refl]. cbv zeta.
    eapply advances_trans;
      [apply (advances_update_round (Round.with_consensusAchieved true))|].
    - intros r'. by repeat split.
    - apply advances_same. by destruct (Round.finishTimeout r).
  Qed.

Lemma proposeResults_advances now s s' :
    proposeResults now s = Some s' → advances s s'.
  Proof.
    unfold proposeResults. destruct (currentRound s) as [r|] eqn:Hr;
      [|intros [= <-]; apply advances_refl].
    destruct (_ || _); [intros [= <-]; apply advances_refl|]. cbv zeta.
    destruct (calculateResults _) as [results|]; [|done]. cbn [mbind option_bind].
    destruct (votes _ !! Round.id r) as [roundVotes|]; [|done]. cbn [mbind option_bind].
    intros [= <-].
    eapply advances_trans; [|apply checkForConsensus_advances].
    eapply advances_trans; [|apply advances_update_round].
    - apply advances_same. unfold broadcast, emit. cbn [currentRound set_effects].
      by rewrite decryptAndProcessVotes_currentRound.
    - intros r'. repeat split; try done. simpl. apply union_subseteq_r.
  Qed.

Lemma checkIfReadyToPropose_advances now s s' :
    checkIfReadyToPropose now s = Some s' → advances s s'.
  Proof.
    unfold checkIfReadyToPropose. destruct (currentRound s) as [r|] eqn:Hr;
      [|intros [= <-]; apply advances_refl].
    destruct (_ || _); [intros [= <-]; apply advances_refl|].
    destruct (encryptedVotes s !! Round.id r) as [ballots|];
      [|intros [= <-]; by apply advances_same].
    destruct (voteKeys s !! Round.id r) as [keys|];
      [|intros [= <-]; by apply advances_same].
    cbv zeta. destruct (_ && _); [|intros [= <-]; by apply advances_same].
    destruct (negb _); [intros [= <-]; by apply advances_same|].
    apply proposeResults_advances.
  Qed.

Lemma after_new_keys_advances now s s' :
    after_new_keys now s = Some s' → advances s s'.
  Proof.
    unfold after_new_keys. cbv zeta. intros Hs.
    eapply advances_trans;
      [apply advances_same, decryptAndProcessVotes_currentRound|].
    destruct (negb _); [by eapply checkIfReadyToPropose_advances|].
    injection Hs as <-. apply advances_refl.
  Qed.

Lemma handleBatchVoteKeys_advances now roundId keys from s s' :
    handleBatchVoteKeys now roundId keys from s = Some s' → advances s s'.
  Proof.
    unfold handleBatchVoteKeys. destruct (currentRound s) as [r|] eqn:Hr;
      [|intros [= <-]; apply advances_refl].
    case_bool_decide; [intros [= <-]; apply advances_refl|].
    case_bool_decide; [intros [= <-]; apply advances_refl|].
    cbv zeta. case_bool_decide; [|intros [= <-]; by apply advances_same].
    intros Hs%after_new_keys_advances.
    eapply advances_trans; [|exact Hs]. by apply advances_same.
  Qed.

Lemma handleVoteKey_advances now roundId anonymousVoteId key from s s' :
    handleVoteKey now roundId anonymousVoteId key from s = Some s' → advances s s'.
  Proof.
    unfold handleVoteKey. destruct (currentRound s) as [r|] eqn:Hr;
      [|intros [= <-]; apply advances_refl].
    case_bool_decide; [intros [= <-]; apply advances_refl|].
    case_bool_decide; [intros [= <-]; apply advances_refl|].
    cbv zeta. destruct (negb _); [|intros [= <-]; by apply advances_same].
    intros Hs%after_new_keys_advances.
    eapply advances_trans; [|exact Hs]. by apply advances_same.
  Qed.

Lemma handleResultProposal_advances now roundId results from s s' :
    handleResultProposal now roundId results from s = Some s' → advances s s'.
  Proof.
    unfold handleResultProposal. destruct (currentRound s) as [r|] eqn:Hr;
      [|intros [= <-]; apply advances_refl].
    case_bool_decide; [intros [= <-]; apply advances_refl|].
    destruct (calculateResults s) as [myResults|]; [|done]. cbn [mbind option_bind].
    destruct (compareResults _ _); [|intros [= <-]; apply advances_refl].
    cbv zeta. intros [= <-].
    eapply advances_trans; [|apply checkForConsensus_advances].
    eapply advances_trans; apply advances_update_round.
    - intros r'. repeat split; try done. simpl. apply union_subseteq_r.
    - intros r'. case_bool_decide; [apply round_advanced_refl|].
      repeat split; try done. simpl. apply union_subseteq_r.
  Qed.

Lemma finishRound_advances s s' : finishRound s = Some s' → advances s s'.
  Proof.
    unfold finishRound. destruct (currentRound s) as [r|] eqn:Hr;
      [|intros [= <-]; apply advances_refl].
    case_bool_decide; [intros [= <-]; apply advances_refl|].
    cbv zeta.
    destruct (calculateResults _) as [finalResults|]; [|done]. cbn [mbind option_bind].
    destruct (votes _ !! Round.id r) as [roundVotes|]; [|done]. cbn [mbind option_bind].
    intros [= <-].
    unfold notifyGUIClients, emit. cbn [currentRound set_effects set_results].
    intros r0 Hr0.
    eexists. split.
    - cbn [currentRound set_effects set_results]. rewrite verifyMyVote_currentRound.
      unfold update_round. cbn [currentRound set_currentRound].
      destruct (Round.consensusTimeout r), (Round.finishTimeout r);
        cbn [clearTimeout_if_set clearTimeout currentRound set_timers];
        rewrite Hr; reflexivity.
    - assert (r0 = r) as -> by congruence.
      repeat split; try done. simpl. destruct (Round.phase r); simpl; lia.
  Qed.

Lemma processPeerExchange_loop_currentRound now receivedPeers n s :
    currentRound (processPeerExchange_loop now receivedPeers n s) = currentRound s.
  Proof.
    revert n s. induction receivedPeers as [|peerInfo rest IH]; intros n s; [done|].
    cbn [processPeerExchange_loop]. cbv zeta.
    repeat (case_match; try apply IH); try done; by rewrite IH.
  Qed.

Lemma store_peer_address_currentRound from remoteAddress peerPort s :
    currentRound (store_peer_address from remoteAddress peerPort s) = currentRound s.
  Proof. unfold store_peer_address. by repeat case_match. Qed.

Lemma originalHandleMessage_advances now ws remoteAddress message s s' :
    (∀ m, message ≠ ROUND_START m) →
    originalHandleMessage now ws remoteAddress message s = Some s' → advances s s'.
  Proof.
    intros Hns.
    destruct message as [f p kp|f p kp|f|f ps|f|x|m|m|rid ks f|rid a k f|rid rs vc f|ty f];
      cbn [originalHandleMessage]; cbv zeta.
    - intros [= <-]. apply advances_same. unfold emit. cbn [currentRound set_effects].
      by rewrite store_peer_address_currentRound.
    - intros [= <-]. apply advances_same.
      transitivity (currentRound
                      (store_peer_address f remoteAddress p
                         (set_activePeers ({[f]} ∪ activePeers
                            (if negb (JsMap.has f (peers s))
                             then set_peers (JsMap.set f ws (peers s)) s else s))
                            (if negb (JsMap.has f (peers s))
                             then set_peers (JsMap.set f ws (peers s)) s else s)))).
      { case_bool_decide; [apply processPeerExchange_loop_currentRound | done]. }
      rewrite store_peer_address_currentRound. by destruct (negb _).
    - intros [= <-]. by apply advances_same.
    - intros [= <-]. apply advances_same.
      case_bool_decide; [apply processPeerExchange_loop_currentRound | done].
    - intros [= <-]. by apply advances_same.
    - intros [= <-]. apply advances_refl.
    - by destruct (Hns m).
    - intros [= <-]. apply advances_same.
      rewrite notifyGUIClients_currentRound. apply handleEncryptedVote_currentRound.
    - apply handleBatchVoteKeys_advances.
    - apply handleVoteKey_advances.
    - apply handleResultProposal_advances.
    - intros [= <-]. apply advances_refl.
  Qed.

Lemma handleMessage_advances now ws remoteAddress message s s' :
    (∀ m, message ≠ ROUND_START m) →
    handleMessage now ws remoteAddress message s = Some s' → advances s s'.
  Proof.
    intros Hns. unfold handleMessage.
    destruct (_ && _); [intros [= <-]; by apply advances_same|]. cbv zeta.
    set (s1 := match message_from message with Some _ => _ | None => _ end).
    assert (currentRound s1 = currentRound s) as Hs1.
    { unfold s1. destruct (message_from message); [|done]. by destruct (_ && _). }
    intros Hs. eapply advances_trans; [by apply advances_same|].
    destruct message; try (by eapply originalHandleMessage_advances).
    injection Hs as <-. by apply advances_same.
  Qed.

Lemma incoming_close_currentRound ws s :
    currentRound (incoming_close ws s) = currentRound s.
  Proof. unfold incoming_close. by repeat case_match. Qed.

Lemma outgoing_close_currentRound ws s :
    currentRound (outgoing_close ws s) = currentRound s.
  Proof. unfold outgoing_close. by repeat case_match. Qed.

Lemma handleGUIConnection_currentRound ws clientId s :
    currentRound (handleGUIConnection ws clientId s) = currentRound s.
  Proof.
    unfold handleGUIConnection. cbv zeta. unfold emit.
    cbn [currentRound set_effects set_guiClients].
    destruct (currentRound s) eqn:Hr; cbn [currentRound set_effects set_guiClients]; done.
  Qed.

Lemma run_callback_advances e now cb s s' :
    run_callback e now cb s = Some s' → advances s s'.
  Proof.
    destruct cb; cbn [run_callback].
    - intros [= <-]. apply enterConsensusPhase_advances.
    - apply finishRound_advances.
    - apply checkIfReadyToPropose_advances.
    - unfold broadcastKeys. destruct (currentRound s) eqn:Hr; [|done].
      cbn [mbind option_bind]. intros [= <-]. by apply advances_same.
    - intros [= <-]. by apply advances_same.
    - intros [= <-]. by apply advances_same.
  Qed.

Lemma fire_advances e now handle s s' : fire e now handle s = Some s' → advances s s'.
  Proof.
    unfold fire. destruct (head _) as [t|]; [|intros [= <-]; apply advances_refl].
    destruct (due now t); [|intros [= <-]; apply advances_refl].
    intros Hs%run_callback_advances.
    eapply advances_trans; [|exact Hs]. by apply advances_same.
  Qed.

Lemma startVotingRound_in_progress now topic allowedChoices v s r :
    currentRound s = Some r → Round.phase r ≠ FINISHED →
    startVotingRound now topic allowedChoices v s = s.
  Proof.
    intros Hr Hph. unfold startVotingRound. rewrite Hr.
    by rewrite bool_decide_eq_true_2.
  Qed.

  (** Every event that begins no round lets the current round advance. *)
Lemma step_advances e now i s s' :
    is_round_start i = false → step e now i s = Some s' → advances s s'.
  Proof.
    destruct i as [[] ws ra m|[] ws|ws|host p|ws c| |handle|topic ac v|choice];
      cbn [is_round_start step]; intros Hns.
    - apply handleMessage_advances. intros m' ->. done.
    - unfold outgoing_message.
      destruct m; try done; try (apply handleMessage_advances; by intros m' [=]).
      intros [= <-]. by apply advances_same.
    - intros [= <-]. apply advances_same, incoming_close_currentRound.
    - intros [= <-]. apply advances_same, outgoing_close_currentRound.
    - intros [= <-]. by apply advances_same.
    - intros [= <-]. by apply advances_same.
    - intros [= <-]. apply advances_same, handleGUIConnection_currentRound.
    - intros [= <-]. by apply advances_same.
    - apply fire_advances.
    - done.
    - intros [= <-]. apply advances_same, castVote_currentRound.
  Qed.

Lemma run_advances schedule s s' :
    Forall (λ ev : Event, is_round_start ev.2 = false) schedule →
    run schedule s = Some s' → advances s s'.
  Proof.
    revert s. induction schedule as [|[[e now] i] rest IH]; intros s Hns; simpl.
    - intros [= <-]. apply advances_refl.
    - apply Forall_cons in Hns as [Hi Hrest].
      destruct (step e now i s) as [s1|] eqn:Hs1; [|done]. simpl. intros Hrun.
      eapply advances_trans; [by eapply step_advances | by apply IH].
  Qed.
End Advancing.

Lemma handleMessage_round_start `{Runtime} now ws remoteAddress m s s' :
  handleMessage now ws remoteAddress (ROUND_START m) s = Some s' →
  ∃ s1, currentRound s1 = currentRound s ∧ nextTimer s1 = nextTimer s
        ∧ s' = notifyGUIClients (GUI_ROUND_START m) (handleRoundStart now m s1).
Proof.
  unfold handleMessage. cbn [is_handshake andb]. cbv zeta.
  set (s1 := match message_from (ROUND_START m) with Some _ => _ | None => _ end).
  cbn [originalHandleMessage]. cbv zeta. intros [= <-]. exists s1.
  split_and!; [| |done].
  - unfold s1. destruct (message_from _); [|done]. by destruct (_ && _).
  - unfold s1. destruct (message_from _); [|done]. by destruct (_ && _).
Qed.

(** A round only advances.  Whatever event the node handles, the
    current round stays in place, in the same or a later phase (VOTING,
    then CONSENSUS, then FINISHED), with [consensusAchieved] still set
    if it was and [consensusNodes] no smaller; or else the event is a
    round start that put a round in VOTING in its place: a start command
    given when the round is FINISHED, or a ROUND_START frame with a
    later start time, in whatever phase the round is.  So along a
    schedule without start commands and ROUND_START frames the round is
    never replaced and its phase never goes back. *)
Theorem round_only_advances `{Runtime} :
  (∀ e now i s s' r,
     step e now i s = Some s' → currentRound s = Some r →
     (∃ r', currentRound s' = Some r' ∧ round_advanced r r')
     ∨ (∃ r', currentRound s' = Some r' ∧ Round.phase r' = VOTING
              ∧ ((∃ topic allowedChoices v,
                    i = In_start topic allowedChoices v ∧ Round.phase r = FINISHED)
                 ∨ (∃ incoming ws remoteAddress m,
                      i = In_message incoming ws remoteAddress (ROUND_START m)
                      ∧ Round.startTime r < rs_startTime m
                      ∧ Round.id r' = rs_roundId m
                      ∧ Round.startTime r' = rs_startTime m))))
  ∧ (∀ schedule s s' r,
       currentRound s = Some r →
       Forall (λ ev : Event, is_round_start ev.2 = false) schedule →
       run schedule s = Some s' →
       ∃ r', currentRound s' = Some r' ∧ round_advanced r r').
Proof.
  split.
  - intros e now i s s' r Hstep Hr.
    destruct (is_round_start i) eqn:Hi;
      [|left; by apply (step_advances e now i s s' Hi Hstep)].
    assert (∀ incoming ws remoteAddress m,
              handleMessage now ws remoteAddress (ROUND_START m) s = Some s' →
              i = In_message incoming ws remoteAddress (ROUND_START m) →
              (∃ r', currentRound s' = Some r' ∧ round_advanced r r')
              ∨ (∃ r', currentRound s' = Some r' ∧ Round.phase r' = VOTING
                       ∧ ((∃ topic allowedChoices v,
                             i = In_start topic allowedChoices v ∧ Round.phase r = FINISHED)
                          ∨ (∃ incoming ws remoteAddress m,
                               i = In_message incoming ws remoteAddress (ROUND_START m)
                               ∧ Round.startTime r < rs_startTime m
                               ∧ Round.id r' = rs_roundId m
                               ∧ Round.startTime r' = rs_startTime m)))) as Hmsg.
    { intros incoming ws remoteAddress m (s1 & Hr1 & _ & ->)%handleMessage_round_start Heq.
      rewrite <- Hr1 in Hr.
      destruct (decide (Round.startTime r < rs_startTime m)) as [Hlt|Hge].
      - right.
        destruct (handleRoundStart_accepted now m s1) as [Hcur _];
          [right; by exists r|].
        cbv zeta in Hcur. eexists. rewrite notifyGUIClients_currentRound.
        split; [exact Hcur|]. split; [done|]. right.
        exists incoming, ws, remoteAddress, m. by split_and!.
      - left. rewrite (handleRoundStart_ignored now m s1 r Hr) by lia.
        exists r. rewrite notifyGUIClients_currentRound.
        split; [done | apply round_advanced_refl]. }
    destruct i as [incoming ws ra m|incoming ws|ws|host p|ws c| |handle|topic ac v|choice];
      try discriminate Hi.
    + destruct m; try discriminate Hi.
      destruct incoming; cbn [step outgoing_message] in Hstep; by eapply Hmsg.
    + cbn [step] in Hstep. injection Hstep as <-.
      destruct (decide (Round.phase r = FINISHED)) as [Hfin|Hnf].
      * right.
        destruct (startVotingRound_arms now topic ac v s) as [(r' & Hr' & Hph & _) _].
        { intros r0 Hr0. by assert (r0 = r) as -> by congruence. }
        exists r'. split; [exact Hr'|]. split; [exact Hph|]. left. by exists topic, ac, v.
      * left. rewrite (startVotingRound_in_progress now topic ac v s r Hr Hnf).
        exists r. split; [done | apply round_advanced_refl].
  - intros schedule s s' r Hr Hns Hrun. by apply (run_advances schedule s s' Hns Hrun).
Qed.

Lemma round_only_advances_witness :
  let s := Reference.node_with_votes "r1" VOTING [] in
  let schedule : list Event :=
    [(Reference.entropy, 5, In_vote "yes");
     (Reference.entropy, 6,
      In_message true 1%nat None (BATCH_VOTE_KEYS "r1" [("id2", "key")] "bob"));
     (Reference.entropy, 7, In_heartbeat)] in
  ∃ s' r r',
    run (H := Reference.runtime) schedule s = Some s'
    ∧ currentRound s = Some r ∧ currentRound s' = Some r' ∧ round_advanced r r'.
Proof.
  intros s schedule.
  destruct (run (H := Reference.runtime) schedule s) as [s'|] eqn:Hrun;
    [|vm_compute in Hrun; discriminate Hrun].
  destruct (proj2 (round_only_advances (H := Reference.runtime)) schedule s s'
              (Round.mk "r1" "topic" None 0 (inject_Z 100000) (inject_Z 100) VOTING
                 None false ∅ None None)) as (r' & Hr' & Hadv).
  - reflexivity.
  - repeat constructor.
  - exact Hrun.
  - exists s'. eexists. exists r'. split; [reflexivity|]. split; [reflexivity|].
    split; [exact Hr' | exact Hadv].
Defined.

Lemma checkForConsensus_short `{Runtime} now s r :
  currentRound s = Some r →
  Z.of_nat (size (Round.consensusNodes r)) < getActiveNodeCount s →
  checkForConsensus now s = s.
Proof.
  intros Hr Hlt. unfold checkForConsensus. rewrite Hr.
  destruct (_ || _); [done|]. by rewrite bool_decide_eq_false_2 by lia.
Qed.

Lemma filter_active_unknown {V} from (X : gset string) (m : list (string * V)) :
  JsMap.get from m = None →
  filter (λ p, p.1 ∈ {[from]} ∪ X) m = filter (λ p, p.1 ∈ X) m.
Proof.
  induction m as [|[k v] m IH]; [done|]. cbn [JsMap.get].
  destruct (decide (k = from)) as [->|Hne]; [done|]. intros Hnone.
  rewrite !filter_cons. cbn [fst]. rewrite (IH Hnone).
  destruct (decide (k ∈ X)) as [Hin|Hout].
  - rewrite decide_True by (by apply elem_of_union_r). done.
  - rewrite decide_False; [done|].
    intros [Heq%elem_of_singleton|Hin]%elem_of_union; done.
Qed.

(** A heartbeat from a stranger counts towards the quorum.  A HEARTBEAT
    naming a sender that is no peer and not yet active makes that name
    an active peer: the number of active nodes, which is the number of
    agreeing nodes that consensus needs, goes up by one, although the
    node has no socket for the sender and [broadcast] reaches exactly
    the sockets it reached before.  A round whose [consensusNodes] had
    just reached the number needed is then one short: the check that
    would have set [consensusAchieved] changes nothing. *)
Theorem stranger_heartbeat_counts `{Runtime} now ws remoteAddress from s :
  from ∉ activePeers s → JsMap.get from (peers s) = None →
  ∃ s',
    handleMessage now ws remoteAddress (HEARTBEAT from) s = Some s'
    ∧ activePeers s' = {[from]} ∪ activePeers s
    ∧ getActiveNodeCount s' = getActiveNodeCount s + 1
    ∧ peers s' = peers s ∧ currentRound s' = currentRound s
    ∧ effects s' = effects s
    ∧ (∀ m, effects (broadcast m s') = effects (broadcast m s))
    ∧ (∀ r now',
         currentRound s = Some r → Round.phase r = CONSENSUS →
         Round.consensusAchieved r = false →
         Z.of_nat (size (Round.consensusNodes r)) = getActiveNodeCount s →
         checkForConsensus now' s' = s'
         ∧ Round.consensusAchieved <$> currentRound (checkForConsensus now' s) = Some true).
Proof.
  intros Hfresh Hpeer. unfold handleMessage. cbn [is_handshake andb]. cbv zeta.
  cbn [message_from originalHandleMessage].
  set (s1 := if truthy_string from && bool_decide (from ≠ nodeId s)
             then set_nodeRegistry (<[from := (now, ws)]> (nodeRegistry s)) s else s).
  assert (activePeers s1 = activePeers s ∧ peers s1 = peers s
          ∧ currentRound s1 = currentRound s ∧ effects s1 = effects s
          ∧ guiClients s1 = guiClients s)
    as (Ha & Hp & Hr & He & Hg) by (unfold s1; by destruct (_ && _)).
  eexists. split; [reflexivity|].
  cbn [activePeers peers currentRound effects set_activePeers].
  assert (getActiveNodeCount (set_activePeers ({[from]} ∪ activePeers s1) s1)
          = getActiveNodeCount s + 1) as Hcount.
  { unfold getActiveNodeCount. cbn [activePeers set_activePeers]. rewrite Ha.
    rewrite size_union by (by apply disjoint_singleton_l). rewrite size_singleton. lia. }
  split_and!; [by rewrite Ha | exact Hcount | done | done | done | |].
  - intros m. unfold broadcast, emit. cbv zeta.
    cbn [effects activePeers peers guiClients set_activePeers set_effects].
    rewrite Ha, Hp, He, Hg. by rewrite filter_active_unknown.
  - intros r now' Hcur Hph Hach Hsize. split.
    + apply (checkForConsensus_short now' _ r); [by rewrite <- Hcur | lia].
    + destruct (checkForConsensus_reached now' s r Hcur Hph Hach) as [-> _]; [lia|].
      done.
Qed.

Lemma stranger_heartbeat_counts_witness :
  ∃ s', handleMessage (H := Reference.runtime) 7 1%nat None (HEARTBEAT "mallory")
          (init "alice" 3001 []) = Some s'
        ∧ getActiveNodeCount s' = 2.
Proof.
  destruct (stranger_heartbeat_counts (H := Reference.runtime) 7 1%nat None "mallory"
              (init "alice" 3001 [])) as (s' & Hs' & _ & Hc & _).
  - cbn. apply not_elem_of_empty.
  - reflexivity.
  - exists s'. split; [exact Hs'|]. rewrite Hc. reflexivity.
Defined.

(** ** The table of peers

    [peers] is written by the two handshake handlers and by the close
    handlers only; the voting engine never touches it. *)

Section Connections.
  Context `{Runtime}.

Lemma notifyGUIClients_peers e s : peers (notifyGUIClients e s) = peers s.
  Proof. reflexivity. Qed.

Lemma setTimeout_peers cb delay now s : peers (setTimeout cb delay now s).2 = peers s.
  Proof. reflexivity. Qed.

Lemma broadcast_peers m s : peers (broadcast m s) = peers s.
  Proof. reflexivity. Qed.

Lemma update_round_peers f s : peers (update_round f s) = peers s.
  Proof. reflexivity. Qed.

Lemma castVote_peers e now choice s : peers (castVote e now choice s) = peers s.
  Proof.
    unfold castVote. destruct (currentRound s) as [r|]; [|done].
    by repeat (case_match; [done|]).
  Qed.

Lemma handleEncryptedVote_peers message s : peers (handleEncryptedVote message s) = peers s.
  Proof.
    unfold handleEncryptedVote. destruct (currentRound s) as [r|]; [|done].
    by repeat (case_match; [done|]).
  Qed.

Lemma shareAllKeys_peers e now s : peers (shareAllKeys e now s) = peers s.
  Proof. unfold shareAllKeys. by destruct (currentRound s). Qed.

Lemma enterConsensusPhase_peers e now s : peers (enterConsensusPhase e now s) = peers s.
  Proof.
    unfold enterConsensusPhase. destruct (currentRound s) as [r|]; [|done].
    case_bool_decide; [done|]. cbv zeta.
    rewrite notifyGUIClients_peers, setTimeout_peers.
    by rewrite shareAllKeys_peers.
  Qed.

Lemma decryptAndProcessVotes_peers s : peers (decryptAndProcessVotes s) = peers s.
  Proof. by destruct (decryptAndProcessVotes_frame s) as (_ & _ & _ & ? & _). Qed.

Lemma checkForConsensus_peers now s : peers (checkForConsensus now s) = peers s.
  Proof.
    unfold checkForConsensus. destruct (currentRound s) as [r|]; [|done].
    destruct (_ || _); [done|]. case_bool_decide; [|done].
    by destruct (Round.finishTimeout r).
  Qed.

Lemma proposeResults_peers now s s' : proposeResults now s = Some s' → peers s' = peers s.
  Proof.
    unfold proposeResults. destruct (currentRound s) as [r|]; [|by intros [= <-]].
    destruct (_ || _); [by intros [= <-]|]. cbv zeta.
    destruct (calculateResults _) as [results|]; [|done]. cbn [mbind option_bind].
    destruct (votes _ !! Round.id r) as [roundVotes|]; [|done]. cbn [mbind option_bind].
    intros [= <-]. rewrite checkForConsensus_peers.
    rewrite update_round_peers, broadcast_peers.
    by rewrite decryptAndProcessVotes_peers.
  Qed.

Lemma checkIfReadyToPropose_peers now s s' :
    checkIfReadyToPropose now s = Some s' → peers s' = peers s.
  Proof.
    unfold checkIfReadyToPropose. destruct (currentRound s) as [r|]; [|by intros [= <-]].
    destruct (_ || _); [by intros [= <-]|].
    destruct (encryptedVotes s !! Round.id r) as [ballots|]; [|by intros [= <-]].
    destruct (voteKeys s !! Round.id r) as [keys|]; [|by intros [= <-]].
    cbv zeta. destruct (_ && _); [|by intros [= <-]].
    destruct (negb _); [by intros [= <-]|]. apply proposeResults_peers.
  Qed.

Lemma after_new_keys_peers now s s' : after_new_keys now s = Some s' → peers s' = peers s.
  Proof.
    unfold after_new_keys. cbv zeta. intros Hs.
    rewrite <- (decryptAndProcessVotes_peers s).
    destruct (negb _); [by eapply checkIfReadyToPropose_peers | by injection Hs as <-].
  Qed.

Lemma handleBatchVoteKeys_peers now roundId keys from s s' :
    handleBatchVoteKeys now roundId keys from s = Some s' → peers s' = peers s.
  Proof.
    unfold handleBatchVoteKeys. destruct (currentRound s) as [r|]; [|by intros [= <-]].
    case_bool_decide; [by intros [= <-]|]. case_bool_decide; [by intros [= <-]|].
    cbv zeta. case_bool_decide; [|by intros [= <-]].
    by intros ->%after_new_keys_peers.
  Qed.

Lemma handleVoteKey_peers now roundId anonymousVoteId key from s s' :
    handleVoteKey now roundId anonymousVoteId key from s = Some s' → peers s' = peers s.
  Proof.
    unfold handleVoteKey. destruct (currentRound s) as [r|]; [|by intros [= <-]].
    case_bool_decide; [by intros [= <-]|]. case_bool_decide; [by intros [= <-]|].
    cbv zeta. destruct (negb _); [|by intros [= <-]].
    by intros ->%after_new_keys_peers.
  Qed.

Lemma handleResultProposal_peers now roundId results from s s' :
    handleResultProposal now roundId results from s = Some s' → peers s' = peers s.
  Proof.
    unfold handleResultProposal. destruct (currentRound s) as [r|]; [|by intros [= <-]].
    case_bool_decide; [by intros [= <-]|].
    destruct (calculateResults s) as [myResults|]; [|done]. cbn [mbind option_bind].
    destruct (compareResults _ _); [|by intros [= <-]].
    cbv zeta. intros [= <-]. by rewrite checkForConsensus_peers.
  Qed.

Lemma verifyMyVote_peers roundId roundVotes s :
    peers (verifyMyVote roundId roundVotes s) = peers s.
  Proof. unfold verifyMyVote. by repeat case_match. Qed.

Lemma finishRound_peers s s' : finishRound s = Some s' → peers s' = peers s.
  Proof.
    unfold finishRound. destruct (currentRound s) as [r|]; [|by intros [= <-]].
    case_bool_decide; [by intros [= <-]|]. cbv zeta.
    destruct (calculateResults _) as [finalResults|]; [|done]. cbn [mbind option_bind].
    destruct (votes _ !! Round.id r) as [roundVotes|]; [|done]. cbn [mbind option_bind].
    intros [= <-].
    rewrite !notifyGUIClients_peers. cbn [peers set_results].
    rewrite verifyMyVote_peers.
    by destruct (Round.consensusTimeout r), (Round.finishTimeout r).
  Qed.

Lemma startVotingRound_peers now topic allowedChoices v s :
    peers (startVotingRound now topic allowedChoices v s) = peers s.
  Proof.
    unfold startVotingRound.
    by destruct (match currentRound s with Some _ => _ | None => _ end).
  Qed.

Lemma handleRoundStart_peers now m s : peers (handleRoundStart now m s) = peers s.
  Proof.
    unfold handleRoundStart.
    by destruct (match currentRound s with Some _ => _ | None => _ end).
  Qed.

Lemma processPeerExchange_loop_peers now receivedPeers n s :
    peers (processPeerExchange_loop now receivedPeers n s) = peers s.
  Proof.
    revert n s. induction receivedPeers as [|peerInfo rest IH]; intros n s; [done|].
    cbn [processPeerExchange_loop]. cbv zeta.
    repeat (case_match; try apply IH); try done; by rewrite IH.
  Qed.

Lemma store_peer_address_peers from remoteAddress peerPort s :
    peers (store_peer_address from remoteAddress peerPort s) = peers s.
  Proof. unfold store_peer_address. by repeat case_match. Qed.

Lemma run_callback_peers e now cb s s' :
    run_callback e now cb s = Some s' → peers s' = peers s.
  Proof.
    destruct cb; cbn [run_callback].
    - intros [= <-]. apply enterConsensusPhase_peers.
    - apply finishRound_peers.
    - apply checkIfReadyToPropose_peers.
    - unfold broadcastKeys. destruct (currentRound s); [|done]. by intros [= <-].
    - by intros [= <-].
    - by intros [= <-].
  Qed.

Lemma fire_peers e now handle s s' : fire e now handle s = Some s' → peers s' = peers s.
  Proof.
    unfold fire. destruct (head _) as [t|]; [|by intros [= <-]].
    destruct (due now t); [|by intros [= <-]].
    by intros ->%run_callback_peers.
  Qed.

Lemma NoDup_keys_delete {V} k (m : list (string * V)) :
    NoDup (JsMap.keys m) → NoDup (JsMap.keys (JsMap.delete k m)).
  Proof.
    unfold JsMap.keys, JsMap.delete. induction m as [|[k' v] m IH]; [done|].
    rewrite fmap_cons. intros [Hk' Hnd]%NoDup_cons. rewrite filter_cons.
    destruct (decide _); [|by apply IH]. rewrite fmap_cons. apply NoDup_cons.
    split; [|by apply IH].
    intros ([k0 v0] & Heq & [_ Hin]%list_elem_of_filter)%list_elem_of_fmap.
    apply Hk'. apply list_elem_of_fmap. by exists (k0, v0).
  Qed.


Lemma originalHandleMessage_table now ws remoteAddress message s s' :
    NoDup (JsMap.keys (peers s)) →
    originalHandleMessage now ws remoteAddress message s = Some s' →
    NoDup (JsMap.keys (peers s')).
  Proof.
    intros Hnd.
    destruct message as [f p kp|f p kp|f|f ps|f|x|m|m|rid ks f|rid a k f|rid rs vc f|ty f];
      cbn [originalHandleMessage]; cbv zeta.
    - intros [= <-]. unfold emit. cbn [peers set_effects].
      rewrite store_peer_address_peers. cbn [peers set_activePeers set_peers].
      by apply JsMapFacts.NoDup_keys_set.
    - intros [= <-].
      assert (∀ x, peers (if bool_decide (0 < length kp)%nat
                          then processPeerExchange now kp x else x) = peers x) as ->.
      { intros x. case_bool_decide; [apply processPeerExchange_loop_peers | done]. }
      rewrite store_peer_address_peers. cbn [peers set_activePeers].
      destruct (negb _); [|done]. by apply JsMapFacts.NoDup_keys_set.
    - by intros [= <-].
    - intros [= <-].
      case_bool_decide; [unfold processPeerExchange; by rewrite processPeerExchange_loop_peers
                        | done].
    - by intros [= <-].
    - by intros [= <-].
    - intros [= <-]. rewrite notifyGUIClients_peers. by rewrite handleRoundStart_peers.
    - intros [= <-]. rewrite notifyGUIClients_peers. by rewrite handleEncryptedVote_peers.
    - by intros ->%handleBatchVoteKeys_peers.
    - by intros ->%handleVoteKey_peers.
    - by intros ->%handleResultProposal_peers.
    - by intros [= <-].
  Qed.

Lemma handleMessage_table now ws remoteAddress message s s' :
    NoDup (JsMap.keys (peers s)) →
    handleMessage now ws remoteAddress message s = Some s' →
    NoDup (JsMap.keys (peers s')).
  Proof.
    intros Hnd. unfold handleMessage.
    destruct (_ && _); [by intros [= <-]|]. cbv zeta.
    set (s1 := match message_from message with Some _ => _ | None => _ end).
    assert (peers s1 = peers s) as Hs1.
    { unfold s1. destruct (message_from message); [|done]. by destruct (_ && _). }
    rewrite <- Hs1 in Hnd.
    destruct message; try (by apply originalHandleMessage_table).
    by intros [= <-].
  Qed.

Lemma step_table e now i s s' :
    NoDup (JsMap.keys (peers s)) → step e now i s = Some s' →
    NoDup (JsMap.keys (peers s')).
  Proof.
    intros Hnd.
    destruct i as [[] ws ra m|[] ws|ws|host p|ws c| |handle|topic ac v|choice];
      cbn [step].
    - by apply handleMessage_table.
    - unfold outgoing_message.
      destruct m; try (by apply handleMessage_table). by intros [= <-].
    - intros [= <-]. unfold incoming_close.
      destruct (find_socket ws (guiClients s)); [done|].
      destruct (find_socket ws (peers s)); [|done].
      cbn [peers set_activePeers set_peers]. by apply NoDup_keys_delete.
    - intros [= <-]. unfold outgoing_close.
      destruct (find_socket ws (peers s)); [|done].
      cbn [peers set_activePeers set_peers set_nodeRegistry]. by apply NoDup_keys_delete.
    - by intros [= <-].
    - by intros [= <-].
    - intros [= <-]. unfold handleGUIConnection. cbv zeta. unfold emit.
      by destruct (currentRound _).
    - by intros [= <-].
    - by intros ->%fire_peers.
    - intros [= <-]. by rewrite startVotingRound_peers.
    - intros [= <-]. by rewrite castVote_peers.
  Qed.

Lemma run_table schedule s s' :
    NoDup (JsMap.keys (peers s)) → run schedule s = Some s' →
    NoDup (JsMap.keys (peers s')).
  Proof.
    revert s. induction schedule as [|[[e now] i] rest IH]; intros s Hnd; simpl.
    - by intros [= <-].
    - destruct (step e now i s) as [s1|] eqn:Hs1; [|done]. simpl.
      apply IH. by eapply step_table.
  Qed.

Lemma set_fresh {V} k (v : V) (m : list (string * V)) :
    JsMap.get k m = None → JsMap.set k v m = m ++ [(k, v)].
  Proof.
    induction m as [|[k' v'] m IH]; [done|]. cbn [JsMap.get JsMap.set].
    destruct (decide (k' = k)); [done|]. intros Hm. by rewrite IH.
  Qed.

Lemma count_connection_fold active (m : list (string * WebSocket)) acc :
    NoDup (JsMap.keys m) →
    (∀ k, k ∈ JsMap.keys m → JsMap.get k acc = None) →
    foldl (count_connection active) acc m
    = acc ++ ((λ p, (p.1, (1, p.2))) <$> filter (λ p, p.1 ∈ active) m).
  Proof.
    unfold JsMap.keys. revert acc. induction m as [|[k w] m IH]; intros acc Hnd Hacc.
    - cbn. by rewrite app_nil_r.
    - rewrite fmap_cons in Hnd. apply NoDup_cons in Hnd as [Hk Hnd].
      cbn [foldl]. rewrite filter_cons. unfold count_connection at 2. cbn [fst snd].
      case_bool_decide as Hact.
      + rewrite (Hacc k) by (rewrite fmap_cons; by left).
        rewrite set_fresh by (apply Hacc; rewrite fmap_cons; by left).
        rewrite decide_True by done. rewrite fmap_cons. cbn [fst snd].
        rewrite IH; [by rewrite <- app_assoc | done |].
        intros k' Hk'. apply JsMapFacts.get_None. unfold JsMap.keys.
        rewrite fmap_app. cbn. rewrite elem_of_app, list_elem_of_singleton.
        intros [Hin| ->]; [|done].
        apply (proj1 (JsMapFacts.get_None k' acc)); [|done].
        apply Hacc. rewrite fmap_cons. by right.
      + rewrite decide_False by done. apply IH; [done|].
        intros k' Hk'. apply Hacc. rewrite fmap_cons. by right.
  Qed.
End Connections.

(** The duplicate check finds nothing.  [peers] is keyed by node id, so
    however the node got to its state, [checkForDuplicates] counts every
    connected active peer exactly once, with the socket [peers] holds
    for it, and its list of duplicates is empty: a second connection
    under an id replaces or is refused, it is never counted. *)
Theorem duplicates_never_found `{Runtime} nodeId0 port0 knownPeers0 schedule :
  ∃ s, run schedule (init nodeId0 port0 knownPeers0) = Some s
       ∧ NoDup (JsMap.keys (peers s))
       ∧ connection_counts s
         = (λ p, (p.1, (1, p.2))) <$> filter (λ p, p.1 ∈ activePeers s) (peers s)
       ∧ checkForDuplicates s = [].
Proof.
  destruct (run_well_formed schedule (init nodeId0 port0 knownPeers0))
    as (s & Hrun & _ & _); [apply init_well_formed|].
  exists s. split; [done|].
  assert (NoDup (JsMap.keys (peers s))) as Hnd.
  { eapply run_table; [|exact Hrun]. apply NoDup_nil_2. }
  assert (connection_counts s
          = (λ p, (p.1, (1, p.2))) <$> filter (λ p, p.1 ∈ activePeers s) (peers s))
    as Hcounts.
  { unfold connection_counts. by rewrite count_connection_fold. }
  split_and!; [done | done |].
  unfold checkForDuplicates. rewrite Hcounts. clear Hcounts.
  induction (filter _ (peers s)) as [|p l IH]; [done|].
  rewrite fmap_cons, filter_cons. cbn beta. cbn [fst snd].
  rewrite decide_False by lia. exact IH.
Qed.

(** ** Cancelled timers *)

Lemma timers_clearTimeout_if_set handle s :
  timers (clearTimeout_if_set handle s)
  = filter (λ t, Some (timer_id t) ≠ handle) (timers s).
Proof.
  destruct handle as [h|]; cbn.
  - apply list_filter_iff. intros t. split; [intros Hne [= ?]; done | intros Hne ?; by subst].
  - symmetry. induction (timers s) as [|t l IH]; [done|].
    rewrite filter_cons. cbn. by rewrite IH.
Qed.

Lemma timers_clear_both c f s :
  timers (clearTimeout_if_set f (clearTimeout_if_set c s))
  = filter (λ t, Some (timer_id t) ≠ c ∧ Some (timer_id t) ≠ f) (timers s).
Proof.
  rewrite !timers_clearTimeout_if_set, list_filter_filter.
  apply list_filter_iff. intros t. tauto.
Qed.

(** Finishing publishes the tally.  [finishRound] on a round that is not
    finished and whose decrypted votes carry string choices (those of
    the model all do) returns: the round is FINISHED; both of its timers
    are cancelled, the pending timers afterwards being exactly those
    that were pending under another handle than the round's two, so that
    no timer with the CONSENSUS or the FINISH handle is left; its
    [results] and the entry of the node's result map for the round are
    the tally of the votes decrypted so far (nothing more is decrypted
    now, the vote map is as it was); and the GUI clients are sent
    RESULTS and then PHASE_CHANGE. *)
Theorem finishRound_publishes_tally `{Runtime} s r roundVotes :
  currentRound s = Some r → Round.phase r ≠ FINISHED →
  votes s !! Round.id r = Some roundVotes →
  ∃ s' r',
    finishRound s = Some s'
    ∧ currentRound s' = Some r' ∧ Round.phase r' = FINISHED ∧ Round.id r' = Round.id r
    ∧ Round.results r' = Some (calculateResultsOf roundVotes)
    ∧ JsMap.get (Round.id r) (results s') = Some (calculateResultsOf roundVotes)
    ∧ timers s'
      = filter (λ t, Some (timer_id t) ≠ Round.consensusTimeout r
                     ∧ Some (timer_id t) ≠ Round.finishTimeout r) (timers s)
    ∧ (∀ t, t ∈ timers s' → Some (timer_id t) ≠ Round.consensusTimeout r
                            ∧ Some (timer_id t) ≠ Round.finishTimeout r)
    ∧ (∀ t, t ∈ timers s → Some (timer_id t) ≠ Round.consensusTimeout r →
            Some (timer_id t) ≠ Round.finishTimeout r → t ∈ timers s')
    ∧ votes s' = votes s ∧ encryptedVotes s' = encryptedVotes s
    ∧ voteKeys s' = voteKeys s
    ∧ effects s'
      = effects s
        ++ [Notify
              (GUI_RESULTS (Some (calculateResultsOf roundVotes)) (Round.id r)
                 (Round.topic r) (JsMap.size roundVotes)
                 (Z.of_nat (size (activePeers s)) + 1)
                 (default 0 (JsMap.size <$> encryptedVotes s !! Round.id r)))
              (JsMap.values (guiClients s));
            Notify (GUI_PHASE_CHANGE FINISHED (Round.id r)) (JsMap.values (guiClients s))].
Proof.
  intros Hr Hph Hv. unfold finishRound. rewrite Hr.
  rewrite bool_decide_eq_false_2 by done. cbv zeta.
  set (s0 := clearTimeout_if_set (Round.finishTimeout r)
               (clearTimeout_if_set (Round.consensusTimeout r) s)).
  assert (currentRound s0 = Some r ∧ votes s0 = votes s ∧ encryptedVotes s0 = encryptedVotes s
          ∧ voteKeys s0 = voteKeys s ∧ effects s0 = effects s
          ∧ activePeers s0 = activePeers s ∧ guiClients s0 = guiClients s
          ∧ results s0 = results s ∧ myVoteTracking s0 = myVoteTracking s)
    as (Hr0 & Hv0 & He0 & Hk0 & Hf0 & Ha0 & Hg0 & Hres0 & Hm0).
  { unfold s0. by destruct (Round.consensusTimeout r), (Round.finishTimeout r). }
  assert (timers s0
          = filter (λ t, Some (timer_id t) ≠ Round.consensusTimeout r
                         ∧ Some (timer_id t) ≠ Round.finishTimeout r) (timers s)) as Ht0
    by apply timers_clear_both.
  set (s1 := update_round (Round.with_phase FINISHED) s0).
  assert (calculateResults s1 = Some (calculateResultsOf roundVotes)) as ->.
  { unfold calculateResults, s1, update_round. cbn. rewrite Hr0. cbn.
    by rewrite Hv0, Hv. }
  cbn [mbind option_bind].
  assert (votes (update_round (Round.with_results (Some (calculateResultsOf roundVotes))) s1)
            !! Round.id r = Some roundVotes) as ->.
  { unfold s1, update_round. cbn. by rewrite Hv0. }
  cbn [mbind option_bind].
  set (s2 := update_round (Round.with_results (Some (calculateResultsOf roundVotes))) s1).
  set (s3 := verifyMyVote (Round.id r) roundVotes s2).
  assert (currentRound s3
          = Some (Round.with_results (Some (calculateResultsOf roundVotes))
                    (Round.with_phase FINISHED r))
          ∧ votes s3 = votes s ∧ encryptedVotes s3 = encryptedVotes s
          ∧ voteKeys s3 = voteKeys s ∧ effects s3 = effects s ∧ timers s3 = timers s0
          ∧ activePeers s3 = activePeers s ∧ guiClients s3 = guiClients s
          ∧ results s3 = results s)
    as (Hr3 & Hv3 & He3 & Hk3 & Hf3 & Ht3 & Ha3 & Hg3 & Hres3).
  { unfold s3, verifyMyVote.
    assert (currentRound s2
            = Some (Round.with_results (Some (calculateResultsOf roundVotes))
                      (Round.with_phase FINISHED r))) as Hr2.
    { unfold s2, s1, update_round. cbn. by rewrite Hr0. }
    destruct (myVoteTracking s2 !! Round.id r) as [info|];
      [destruct (JsMap.get _ roundVotes); [destruct (bool_decide _)|]|];
      cbn; rewrite ?Hr2; by split_and!. }
  eexists _, _. split; [reflexivity|].
  unfold notifyGUIClients, emit.
  cbn [currentRound set_effects set_results results timers votes encryptedVotes voteKeys
       effects guiClients activePeers getActiveNodeCount].
  unfold getActiveNodeCount. cbn [activePeers set_results].
  rewrite Hr3, Hv3, He3, Hk3, Hf3, Ht3, Ha3, Hg3, Ht0.
  split_and!; try done; try (by destruct r).
  - apply JsMapFacts.get_set_eq.
  - intros t [Hne _]%list_elem_of_filter. exact Hne.
  - intros t Hin Hc Hf. apply list_elem_of_filter. by split.
  - rewrite <- app_assoc. cbn. do 4 f_equal. by destruct (encryptedVotes s !! Round.id r).
Qed.

Lemma finishRound_publishes_tally_witness :
  let s :=
    set_votes {["round_1000_alice" := [("id1", Reference.vote "Yes");
                                       ("id2", Reference.vote "yes")]]}
      (startVotingRound 1000 "topic" None (JsNumber (inject_Z 60)) (init "alice" 3001 [])) in
  timer_id <$> timers s = [0; 1]%nat
  ∧ ∃ s', finishRound (H := Reference.runtime) s = Some s'
          ∧ timers s' = []
          ∧ JsMap.get "round_1000_alice" (results s') = Some [mkResult "yes" 2].
Proof.
  intros s. split; [vm_compute; reflexivity|].
  destruct (currentRound s) as [r|] eqn:Hcur; [|vm_compute in Hcur; discriminate Hcur].
  assert (Round.phase r = VOTING ∧ Round.id r = "round_1000_alice"
          ∧ Round.consensusTimeout r = Some 0%nat ∧ Round.finishTimeout r = Some 1%nat)
    as (Hph & Hid & Hc & Hf).
  { vm_compute in Hcur. injection Hcur as <-. by repeat split. }
  destruct (finishRound_publishes_tally (H := Reference.runtime) s r
              [("id1", Reference.vote "Yes"); ("id2", Reference.vote "yes")] Hcur)
    as (s' & r' & Hs' & _ & _ & _ & _ & Hres & Ht & _).
  - rewrite Hph. discriminate.
  - rewrite Hid. vm_compute. reflexivity.
  - exists s'. split; [exact Hs'|]. split.
    + rewrite Ht, Hc, Hf. vm_compute. reflexivity.
    + rewrite Hid in Hres. rewrite Hres. vm_compute. reflexivity.
Defined.

(** ** Proposing once everything is decrypted *)

Section Decrypted.
  Context `{Runtime}.

Lemma decrypt_fold_skip keys (ballots : JsMap.t EncryptedVoteMessage) decrypted :
    (∀ k, k ∈ JsMap.keys ballots → JsMap.has k keys = true → JsMap.has k decrypted = true) →
    foldl (decrypt_entry keys) decrypted ballots = decrypted.
  Proof.
    unfold JsMap.keys. induction ballots as [|[k ballot] ballots IH]; intros Hall; [done|].
    cbn [foldl]. unfold decrypt_entry at 2. cbn [fst snd].
    destruct (JsMap.has k keys) eqn:Hk; cbn [andb].
    - rewrite (Hall k) by (rewrite ?fmap_cons; by try left). cbn [negb].
      apply IH. intros k' Hk'. apply Hall. rewrite fmap_cons. by right.
    - apply IH. intros k' Hk'. apply Hall. rewrite fmap_cons. by right.
  Qed.

  (** With no ballot left to decrypt, [decryptAndProcessVotes] changes
      nothing. *)
Lemma decryptAndProcessVotes_id s : all_decrypted s → decryptAndProcessVotes s = s.
  Proof.
    intros Hall. unfold decryptAndProcessVotes.
    destruct (currentRound s) as [r|] eqn:Hr; [|done]. cbv zeta.
    destruct (encryptedVotes s !! Round.id r) as [ballots|] eqn:Hb; [|done].
    destruct (voteKeys s !! Round.id r) as [keys|] eqn:Hk; [|done].
    destruct (Hall r ballots keys Hr Hb Hk) as (decrypted & Hd & Hin).
    unfold ensure_round_map. rewrite Hd. cbn [votes set_votes]. rewrite Hd.
    cbn [default from_option id]. rewrite (decrypt_fold_skip keys ballots decrypted Hin).
    rewrite insert_id by done. by destruct s.
  Qed.

Lemma all_decrypted_set_resultProposed b s :
    all_decrypted s → all_decrypted (set_resultProposed b s).
  Proof. intros Hall r ballots keys. apply Hall. Qed.
End Decrypted.




